(** * Shipment-invoice reconciliation engine: subset matcher, code expansion,
      package explosion and three-mode billing

    A shallow embedding of the functions of [hub/sku_master.py] (the part
    headed "hvdc wh invoice.py" and, for the monthly billing match, the part
    headed "hvdc wh invoice safe.py") together with the properties stated
    for them.

    Modelling conventions.
    - Python floats are idealised as rationals ([Q]); sums, differences,
      quotients and comparisons are exact.  NaN and the infinities do not
      exist in this model, except for the [float('inf')] that
      [calculate_error] returns for an empty selection, which is kept as a
      constructor of [xerr].  The statements that depend on how a sum, a
      product, a quotient or a rounding comes out in floating point are made
      on a second embedding, [Double], of the exact matcher and of the
      monthly billing match on binary64 floats.
    - A pandas frame is a list of rows; a numpy array is a list.
    - A Python [str] is a Rocq [string]: a sequence of characters with code
      points below 256.
    - A Python [set] of strings is a [gset string].
    - A function that can raise returns an [option]: [None] is the
      exception. *)

From Stdlib Require Import QArith Qabs Qminmax Qround Qfield Qpower Lqa.
From Stdlib Require Import Ascii DecimalString.
From Stdlib Require Import Floats.
From stdpp Require Import base list sorting strings gmap.

Set Default Proof Using "Type".
Set Warnings "-inexact-float".
Local Open Scope Q_scope.

(** ** Rational arithmetic helpers *)

Definition Qltb (x y : Q) : bool := negb (Qle_bool y x).

(** [np.sum] over an array. *)
Definition Qsum (l : list Q) : Q := foldr Qplus 0 l.

(** [arr[i]] for an in-range position. *)
Definition at_ (arr : list Q) (i : nat) : Q := nth i arr 0.

(** [arr[list(indices)].sum()]: fancy indexing followed by a sum. *)
Definition sum_at (arr : list Q) (indices : list nat) : Q :=
  Qsum (map (at_ arr) indices).

(** ** Constants *)

Definition TOL : Q := 0.10.
Definition MAX_EXACT_N : nat := 18.

(** [close2(a, b, tol)]: both arguments are floats at every call site. *)
Definition close2 (a b tol : Q) : bool := Qle_bool (Qabs (a - b)) tol.

(** ** Exact matcher *)

(** One row of the candidate frame: its index label and the two columns
    the matchers read. *)
Record pkg_row := PkgRow { ix : Z; GW : Q; CBM : Q }.

(** [itertools.combinations(pool, r)]: the [r]-element subsequences of
    [pool] in lexicographic order of positions. *)
Fixpoint combinations {A} (pool : list A) (r : nat) : list (list A) :=
  match r with
  | O => [[]]
  | S r' =>
    match pool with
    | [] => []
    | x :: rest => map (cons x) (combinations rest r') ++ combinations rest r
    end
  end.

Definition result4 : Type := bool * list nat * option Q * option Q.

(** The test of the loop body: both sums of the combination are within
    [tol] of their targets. *)
Definition feasible (arr_gw arr_cbm : list Q) (gw_tgt cbm_tgt tol : Q)
    (comb : list nat) : bool :=
  close2 (sum_at arr_gw comb) gw_tgt tol && close2 (sum_at arr_cbm comb) cbm_tgt tol.

(** The loop of [exact_subset_match]: the first combination of positions,
    in the order of [combinations], that passes the test.  [k] is a natural
    number here: [combinations] raises on a negative [r], and the only
    caller calls with [k > 0]. *)
Definition exact_subset_pos (pkgs_df : list pkg_row) (k : nat)
    (gw_tgt cbm_tgt tol : Q) : option (list nat) :=
  let idxs := map ix pkgs_df in
  let arr_gw := map GW pkgs_df in
  let arr_cbm := map CBM pkgs_df in
  find (feasible arr_gw arr_cbm gw_tgt cbm_tgt tol)
       (combinations (seq 0 (length idxs)) k).

(** [exact_subset_match] reads the index labels of the positions found
    ([picked = [idxs[i] for i in comb]]) and reports their two sums. *)
Definition exact_subset_match (pkgs_df : list pkg_row) (k : nat)
    (gw_tgt cbm_tgt tol : Q) : bool * list Z * option Q * option Q :=
  let idxs := map ix pkgs_df in
  let arr_gw := map GW pkgs_df in
  let arr_cbm := map CBM pkgs_df in
  match exact_subset_pos pkgs_df k gw_tgt cbm_tgt tol with
  | Some comb =>
    let gw := sum_at arr_gw comb in
    let cbm := sum_at arr_cbm comb in
    let picked := map (fun i => nth i idxs 0%Z) comb in
    (true, picked, Some gw, Some cbm)
  | None => (false, [], None, None)
  end.

(** ** Approximate matcher: greedy start and local search *)

(** [float('inf')] is the error of an empty selection. *)
Inductive xerr := Fin (e : Q) | Inf.

Definition xlt (a b : xerr) : bool :=
  match a, b with
  | Fin x, Fin y => Qltb x y
  | Fin _, Inf => true
  | Inf, _ => false
  end.

Definition xis0 (a : xerr) : bool :=
  match a with Fin x => Qeq_bool x 0 | Inf => false end.

Definition mean (l : list Q) : Q := Qsum l / inject_Z (Z.of_nat (length l)).

(** [np.argsort]: the positions ordered by increasing score.  numpy does
    not fix the order of equal scores; here equal scores keep their
    positional order.  The proofs below use only that the result is a
    rearrangement of the positions. *)
Fixpoint insert_by (score : nat → Q) (i : nat) (l : list nat) : list nat :=
  match l with
  | [] => [i]
  | j :: l' =>
    if Qle_bool (score i) (score j) then i :: j :: l'
    else j :: insert_by score i l'
  end.

Definition argsort (scores : list Q) : list nat :=
  foldr (insert_by (at_ scores)) [] (seq 0 (length scores)).

(** The outcome of one pass over the selected positions: either the target
    was reached inside the pass and the function returned, or the pass ran
    to its end. *)
Inductive pass_outcome :=
| Hit (res : result4)
| PassDone (current_indices : list nat) (best_error : xerr) (improved : bool).

Section RobustGreedyLocal.
Variables (values_gw values_cbm : list Q) (gw_tgt cbm_tgt tol : Q).

Let n : nat := length values_gw.

Definition combined_score : list Q :=
  let ratio_target := gw_tgt / Qmax cbm_tgt 1e-6 in
  let ratio := zip_with (fun g c => g / Qmax c 1e-6) values_gw values_cbm in
  let score2 := map (fun r => Qabs (r - ratio_target)) ratio in
  let gw_norm := map (fun g => g / Qmax gw_tgt 1e-6) values_gw in
  let cbm_norm := map (fun c => c / Qmax cbm_tgt 1e-6) values_cbm in
  let score :=
    zip_with (fun g c => Qabs (g - mean gw_norm) + Qabs (c - mean cbm_norm))
             gw_norm cbm_norm in
  zip_with (fun s2 s => 0.6 * s2 + 0.4 * s) score2 score.

Definition total_error (indices : list nat) : Q :=
  Qabs (sum_at values_gw indices - gw_tgt)
  + Qabs (sum_at values_cbm indices - cbm_tgt).

Definition calculate_error (indices : list nat) : xerr :=
  if (length indices =? 0)%nat then Inf else Fin (total_error indices).

Definition within_tol (indices : list nat) : bool :=
  close2 (sum_at values_gw indices) gw_tgt tol
  && close2 (sum_at values_cbm indices) cbm_tgt tol.

(** The loop [for in_idx in range(n)] for one position [i]; [cands] is
    the rest of the range still to visit. *)
Fixpoint scan_replacements (cands : list nat) (current_indices : list nat)
    (i : nat) (best_local_error : xerr) (best_replacement : option nat)
    : xerr * option nat :=
  match cands with
  | [] => (best_local_error, best_replacement)
  | in_idx :: rest =>
    if bool_decide (in_idx ∈ current_indices) then
      scan_replacements rest current_indices i best_local_error best_replacement
    else
      let trial_indices := <[i := in_idx]> current_indices in
      let trial_error := calculate_error trial_indices in
      if xlt trial_error best_local_error then
        if xis0 trial_error then (trial_error, Some in_idx)
        else scan_replacements rest current_indices i trial_error (Some in_idx)
      else
        scan_replacements rest current_indices i best_local_error best_replacement
  end.

(** The loop [for i in range(k)] of one pass; [positions] is the rest of
    the range still to visit. *)
Fixpoint swap_loop (positions : list nat) (current_indices : list nat)
    (best_error : xerr) (improved : bool) : pass_outcome :=
  match positions with
  | [] => PassDone current_indices best_error improved
  | i :: rest =>
    let '(best_local_error, best_replacement) :=
      scan_replacements (seq 0 n) current_indices i best_error None in
    match best_replacement with
    | Some r =>
      if xlt best_local_error best_error then
        let current_indices' := <[i := r]> current_indices in
        let gw_sum := sum_at values_gw current_indices' in
        let cbm_sum := sum_at values_cbm current_indices' in
        if close2 gw_sum gw_tgt tol && close2 cbm_sum cbm_tgt tol then
          Hit (true, current_indices', Some gw_sum, Some cbm_sum)
        else swap_loop rest current_indices' best_local_error true
      else swap_loop rest current_indices best_error improved
    | None => swap_loop rest current_indices best_error improved
    end
  end.

Definition final_result (best_indices : list nat) : result4 :=
  let final_gw := sum_at values_gw best_indices in
  let final_cbm := sum_at values_cbm best_indices in
  let success := close2 final_gw gw_tgt tol && close2 final_cbm cbm_tgt tol in
  (success, best_indices, Some final_gw, Some final_cbm).

(** The loop [for iteration in range(max_iter)].  Besides the result, the
    selection held at the end of every executed pass is logged, oldest
    first; the log is not read by the search. *)
Fixpoint local_search (max_iter : nat) (k : nat) (best_indices : list nat)
    (best_error : xerr) : result4 * list (list nat) :=
  match max_iter with
  | O => (final_result best_indices, [])
  | S iters =>
    match swap_loop (seq 0 k) best_indices best_error false with
    | Hit res => (res, [res.1.1.2])
    | PassDone current_indices best_error' improved =>
      if improved then
        let '(res, log) := local_search iters k current_indices best_error' in
        (res, current_indices :: log)
      else (final_result best_indices, [current_indices])
    end
  end.

(** [robust_greedy_local] with its pass log: the first entry is the
    greedy start, followed by one entry per executed pass. *)
Definition robust_greedy_local_run (k : Z) (max_iter : nat)
    : result4 * list (list nat) :=
  if (Z.of_nat n <? k)%Z || (k <=? 0)%Z then ((false, [], None, None), [])
  else
    let picked_indices := take (Z.to_nat k) (argsort combined_score) in
    let gw := sum_at values_gw picked_indices in
    let cbm := sum_at values_cbm picked_indices in
    if close2 gw gw_tgt tol && close2 cbm cbm_tgt tol then
      ((true, picked_indices, Some gw, Some cbm), [picked_indices])
    else
      let best_indices := picked_indices in
      let best_error := calculate_error best_indices in
      let '(res, log) :=
        local_search max_iter (Z.to_nat k) best_indices best_error in
      (res, picked_indices :: log).

Definition robust_greedy_local (k : Z) (max_iter : nat) : result4 :=
  (robust_greedy_local_run k max_iter).1.
End RobustGreedyLocal.

Definition MAX_ITER : nat := 300.

(** ** Dispatch between the two matchers *)

Record match_result := MatchResult {
  found : bool;
  picked : list Z;
  sum_gw : option Q;
  sum_cbm : option Q;
  method : string
}.

Definition find_subset_match (pkgs_df : list pkg_row) (k : Z)
    (gw_tgt cbm_tgt tol : Q) : match_result :=
  let N := length pkgs_df in
  if (Z.of_nat N <? k)%Z || (k <=? 0)%Z then
    MatchResult false [] None None "invalid"
  else if (N <=? MAX_EXACT_N)%nat then
    let '(ok, picked, gw, cbm) :=
      exact_subset_match pkgs_df (Z.to_nat k) gw_tgt cbm_tgt tol in
    MatchResult ok picked gw cbm "exact"
  else
    let values_gw := map GW pkgs_df in
    let values_cbm := map CBM pkgs_df in
    let '(success, picked_indices, sum_gw, sum_cbm) :=
      robust_greedy_local values_gw values_cbm gw_tgt cbm_tgt tol k MAX_ITER in
    let picked_df_indices :=
      map (fun i => nth i (map ix pkgs_df) 0%Z) picked_indices in
    MatchResult success picked_df_indices sum_gw sum_cbm "robust-greedy-local".

(** ** Strings: the operations of [str] and [re] that the code uses *)

Definition chr (c : nat) : Ascii.ascii := Ascii.ascii_of_nat c.

Definition ord (a : Ascii.ascii) : nat := Ascii.nat_of_ascii a.

Definition in_range (lo hi : nat) (a : Ascii.ascii) : bool :=
  (lo <=? ord a)%nat && (ord a <=? hi)%nat.

(** ['0'..'9']: what [\d] matches and what [int] accepts. *)
Definition is_decimal (a : Ascii.ascii) : bool := in_range 48 57 a.

(** The characters for which [str.isdigit] holds: the decimal digits and
    the superscripts U+00B2, U+00B3 and U+00B9. *)
Definition is_digit_char (a : Ascii.ascii) : bool :=
  is_decimal a || (ord a =? 178)%nat || (ord a =? 179)%nat || (ord a =? 185)%nat.

(** [[A-Za-z0-9]] *)
Definition is_alnum_ascii (a : Ascii.ascii) : bool :=
  in_range 65 90 a || in_range 97 122 a || in_range 48 57 a.

(** What [.] matches: anything but a line feed. *)
Definition not_newline (a : Ascii.ascii) : bool := negb (ord a =? 10)%nat.

(** The characters removed by [str.strip]: U+0009..U+000D, U+001C..U+001F,
    the space, U+0085 and U+00A0. *)
Definition is_space (a : Ascii.ascii) : bool :=
  in_range 9 13 a || in_range 28 32 a || (ord a =? 133)%nat || (ord a =? 160)%nat.

Fixpoint str_all (p : Ascii.ascii → bool) (s : string) : bool :=
  match s with
  | EmptyString => true
  | String a s' => p a && str_all p s'
  end.

(** [c in s] for a one-character [c]. *)
Fixpoint contains (c : Ascii.ascii) (s : string) : bool :=
  match s with
  | EmptyString => false
  | String a s' => Ascii.eqb a c || contains c s'
  end.

(** [s.replace(c, "")] for a one-character [c]. *)
Fixpoint remove_char (c : Ascii.ascii) (s : string) : string :=
  match s with
  | EmptyString => EmptyString
  | String a s' =>
    if Ascii.eqb a c then remove_char c s' else String a (remove_char c s')
  end.

(** [s.split(c)] for a one-character [c]. *)
Fixpoint split (c : Ascii.ascii) (s : string) : list string :=
  match s with
  | EmptyString => [EmptyString]
  | String a s' =>
    if Ascii.eqb a c then EmptyString :: split c s'
    else
      match split c s' with
      | h :: t => String a h :: t
      | [] => [String a EmptyString]
      end
  end.

(** [s.split(c, 1)] when [c] occurs in [s]: the text before and after the
    first occurrence. *)
Fixpoint split1 (c : Ascii.ascii) (s : string) : option (string * string) :=
  match s with
  | EmptyString => None
  | String a s' =>
    if Ascii.eqb a c then Some (EmptyString, s')
    else '(x, y) ← split1 c s'; Some (String a x, y)
  end.

(** [s.rsplit(c, 1)]: one piece when [c] does not occur in [s], otherwise
    the text before and after the last occurrence. *)
Fixpoint rsplit1 (c : Ascii.ascii) (s : string) : list string :=
  match s with
  | EmptyString => [EmptyString]
  | String a s' =>
    match rsplit1 c s' with
    | [x; y] => [String a x; y]
    | _ => if Ascii.eqb a c then [EmptyString; s'] else [s]
    end
  end.

(** [str.isdigit] *)
Definition isdigit (s : string) : bool :=
  negb (String.eqb s "") && str_all is_digit_char s.

(** [str.strip] *)
Fixpoint lstrip (s : string) : string :=
  match s with
  | EmptyString => EmptyString
  | String a s' => if is_space a then lstrip s' else s
  end.

Fixpoint rstrip (s : string) : string :=
  match s with
  | EmptyString => EmptyString
  | String a s' =>
    match rstrip s' with
    | EmptyString => if is_space a then EmptyString else String a EmptyString
    | r => String a r
    end
  end.

Definition strip (s : string) : string := rstrip (lstrip s).

(** The default of [sys.int_max_str_digits]: [int] refuses a text of more
    digits with a [ValueError]. *)
Definition INT_MAX_STR_DIGITS : nat := 4300.

(** [int(x)] for the texts that reach it, which all satisfy [isdigit]: the
    value of a run of at most [INT_MAX_STR_DIGITS] decimal digits, a
    [ValueError] for anything else. *)
Fixpoint int_digits (acc : N) (s : string) : option N :=
  match s with
  | EmptyString => Some acc
  | String a s' =>
    if is_decimal a then int_digits (acc * 10 + (N.of_nat (ord a) - 48))%N s'
    else None
  end.

Definition int (x : string) : option N :=
  if String.eqb x "" then None
  else if (INT_MAX_STR_DIGITS <? String.length x)%nat then None
  else int_digits 0%N x.

(** [f"{v:04d}"]: decimal, padded with zeros on the left to four places. *)
Definition format_04d (v : N) : string :=
  let d := NilZero.string_of_uint (N.to_uint v) in
  String.concat "" (replicate (4 - String.length d) "0") +:+ d.

Definition pad4 (x : string) : option string := v ← int x; Some (format_04d v).

(** *** Regular expressions with Python's backtracking order *)

Inductive regex :=
| Lit (c : Ascii.ascii)
| Class (p : Ascii.ascii → bool)
| Cat (r1 r2 : regex)
| Star (r : regex)
| Opt (r : regex)
| Group (i : nat) (r : regex)
| Eol.

Definition Plus (r : regex) : regex := Cat r (Star r).

(** The text captured by each group, the latest capture first. *)
Definition captures : Type := list (nat * string).

(** The part of [s] read when the rest is [s']. *)
Definition consumed (s s' : string) : string :=
  String.substring 0 (String.length s - String.length s') s.

(** [rmatch r s g k]: match [r] at the head of [s], then hand the rest of
    the text to [k]; alternatives are tried in the order of the [re]
    module: a greedy [Star] or [Opt] first takes its operand and falls back
    to taking nothing. [Eol] is [$]: the end of the text, or the position
    before a final line feed. *)
Fixpoint rmatch (r : regex) (s : string) (g : captures)
    (k : string → captures → option captures) : option captures :=
  match r with
  | Lit c =>
    match s with
    | String a s' => if Ascii.eqb a c then k s' g else None
    | EmptyString => None
    end
  | Class p =>
    match s with
    | String a s' => if p a then k s' g else None
    | EmptyString => None
    end
  | Cat r1 r2 => rmatch r1 s g (fun s' g' => rmatch r2 s' g' k)
  | Star r1 =>
    (fix star (fuel : nat) (s : string) (g : captures) : option captures :=
       match fuel with
       | O => k s g
       | S fuel' =>
         match rmatch r1 s g
                 (fun s' g' =>
                    if (String.length s' <? String.length s)%nat
                    then star fuel' s' g' else None)
         with
         | Some m => Some m
         | None => k s g
         end
       end) (String.length s) s g
  | Opt r1 =>
    match rmatch r1 s g k with
    | Some m => Some m
    | None => k s g
    end
  | Group i r1 => rmatch r1 s g (fun s' g' => k s' ((i, consumed s s') :: g'))
  | Eol =>
    if String.eqb s "" || String.eqb s (String (chr 10) "") then k s g else None
  end.

(** [re.match(r, s)]; the match starts at the head of [s], which is what
    the leading [^] of the patterns asks for. *)
Definition re_match (r : regex) (s : string) : option captures :=
  rmatch r s [] (fun _ g => Some g).

(** [m.group(i)], [None] for a group that did not take part. *)
Definition group (i : nat) (m : captures) : option string :=
  snd <$> List.find (fun c => (fst c =? i)%nat) m.

(** [^(.*-)(\d+)(-[A-Za-z0-9]+)?$] *)
Definition RE_BASE : regex :=
  Cat (Group 1 (Cat (Star (Class not_newline)) (Lit "-"%char)))
    (Cat (Group 2 (Plus (Class is_decimal)))
       (Cat (Opt (Group 3 (Cat (Lit "-"%char) (Plus (Class is_alnum_ascii))))) Eol)).

(** [^(\d+)(-[A-Za-z0-9]+)?$] *)
Definition RE_NUM : regex :=
  Cat (Group 1 (Plus (Class is_decimal)))
    (Cat (Opt (Group 2 (Cat (Lit "-"%char) (Plus (Class is_alnum_ascii))))) Eol).

(** ** Expansion of combined codes *)

(** The prefix, the numeric block ([None] when none was found) and the
    sub-suffix read off the base token. *)
Definition parse_base (base : string) : string * option string * string :=
  match re_match RE_BASE base with
  | None =>
    let prefix := hd "" (rsplit1 "-"%char base) +:+ "-" in
    let num_suffix := List.last (rsplit1 "-"%char base) "" in
    match re_match RE_NUM num_suffix with
    | Some num_m => (prefix, group 1 num_m, default "" (group 2 num_m))
    | None => (prefix, None, "")
    end
  | Some m => (default "" (group 1 m), group 2 m, default "" (group 3 m))
  end.

(** The body of the loop over [parts[1:]]. *)
Definition expand_token (prefix : string) (num : option string) (sub : string)
    (expanded : gset string) (t : string) : option (gset string) :=
  if contains "-"%char t then
    '(num_part, sub_part) ← split1 "-"%char t;
    if isdigit num_part then
      p ← pad4 num_part;
      Some ({[prefix +:+ p +:+ "-" +:+ sub_part]} ∪ expanded)
    else Some ({[t]} ∪ expanded)
  else if isdigit t && bool_decide (is_Some num) then
    p ← pad4 t;
    Some ({[prefix +:+ p +:+ sub]} ∪ expanded)
  else Some ({[t]} ∪ expanded).

Fixpoint expand_tokens (prefix : string) (num : option string) (sub : string)
    (expanded : gset string) (tokens : list string) : option (gset string) :=
  match tokens with
  | [] => Some expanded
  | t :: rest =>
    expanded' ← expand_token prefix num sub expanded t;
    expand_tokens prefix num sub expanded' rest
  end.

(** [expand_combined_codes] on a [str] argument; [None] is an exception
    raised on the way. *)
Definition expand_combined_codes (code : string) : option (gset string) :=
  if negb (contains ","%char code) then Some {[code]}
  else
    let code := remove_char " "%char code in
    let parts := split ","%char code in
    let base := hd "" parts in
    let expanded : gset string := {[base]} in
    let '(prefix, num, sub) := parse_base base in
    expand_tokens prefix num sub expanded (tl parts).

(** ** Package-unit explosion *)

(** A candidate row: its index label and the columns [Pkg], [G.W(kgs)] and
    [CBM]. *)
Record cand_row := CandRow { row_ix : Z; Pkg : Q; row_GW : Q; row_CBM : Q }.

(** An exploded unit; the columns [G.W(kgs)] and [CBM] are [unit_GW] and
    [unit_CBM], the column [Pkg] of a unit is [unit_Pkg]. *)
Record unit_row := UnitRow {
  Original_Index : Z;
  Pkg_Unit : Z;
  unit_Pkg : Z;
  unit_GW : Q;
  unit_CBM : Q
}.

(** [int(x)] on a float: the fractional part is dropped, towards zero. *)
Definition int_of_float (x : Q) : Z := Z.quot (Qnum x) (Z.pos (Qden x)).

(** The units appended for one row by the body of the loop. *)
Definition explode_row (row : cand_row) : list unit_row :=
  let pkg_count := int_of_float (Pkg row) in
  if (pkg_count <=? 0)%Z then []
  else
    let unit_gw := row_GW row / inject_Z pkg_count in
    let unit_cbm := row_CBM row / inject_Z pkg_count in
    map (fun pkg_idx =>
           UnitRow (row_ix row) (Z.of_nat pkg_idx + 1) 1 unit_gw unit_cbm)
        (seq 0 (Z.to_nat pkg_count)).

Definition explode_by_pkg (df_subset : list cand_row) : list unit_row :=
  flat_map explode_row df_subset.

(** ** Billing modes and contract rates *)

Definition BILLING_MODE_RATE : gset string :=
  {[ "DSV Outdoor"; "DSV MZP"; "DSV Indoor"; "DSV Al Markaz" ]}.
Definition BILLING_MODE_PASSTHROUGH : gset string :=
  {[ "AAA Storage"; "Hauler Indoor"; "DHL Warehouse" ]}.
Definition BILLING_MODE_NO_CHARGE : gset string := {[ "MOSB" ]}.

Definition WAREHOUSE_RATES : gmap string Q :=
  <["DSV Outdoor" := 18.0]> (<["DSV MZP" := 33.0]> (<["DSV Indoor" := 47.0]>
  (<["DSV Al Markaz" := 47.0]> (<["AAA Storage" := 0.0]>
  (<["Hauler Indoor" := 0.0]> (<["DHL Warehouse" := 0.0]>
  (<["MOSB" := 0.0]> ∅))))))).

Definition get_billing_mode (warehouse : string) : string :=
  if String.eqb warehouse "" then "unknown"
  else
    let warehouse_clean := strip warehouse in
    if bool_decide (warehouse_clean ∈ BILLING_MODE_RATE) then "rate"
    else if bool_decide (warehouse_clean ∈ BILLING_MODE_PASSTHROUGH) then "passthrough"
    else if bool_decide (warehouse_clean ∈ BILLING_MODE_NO_CHARGE) then "no-charge"
    else "unknown".

Definition get_warehouse_rate (warehouse : string) : Q :=
  default 0.0 (WAREHOUSE_RATES !! warehouse).

(** ** Monthly charges: system against invoice *)

(** One row of the merged frame of [create_monthly_charges_match], with the
    columns read by [_recalc], [_status] and [_grade].  [Invoice_Amount] is
    missing ([None], a NaN in the frame) when the left merge found no
    invoice line for the month and warehouse. *)
Record charge_row := ChargeRow {
  Expected_Mode : string;
  System_Avg_SQM : Q;
  Contract_Rate : Q;
  System_Amount : Q;
  Invoice_Amount : option Q
}.

(** [round(x)] to an integer, ties going to the even neighbour. *)
Definition round_half_even (x : Q) : Z :=
  let f := Qfloor x in
  let r := x - inject_Z f in
  if Qltb r (1 # 2) then f
  else if Qltb (1 # 2) r then (f + 1)%Z
  else if Z.even f then f else (f + 1)%Z.

(** [round(x, 2)] *)
Definition round2 (x : Q) : Q := inject_Z (round_half_even (x * 100)) / 100.

Definition _recalc (row : charge_row) : Q :=
  let mode := Expected_Mode row in
  if String.eqb mode "rate" then
    round2 (System_Avg_SQM row * Contract_Rate row)
  else if String.eqb mode "passthrough" then System_Amount row
  else 0.0.

(** The column [Invoice_Amount] after [fillna(0.0)]. *)
Definition invoice_amount (row : charge_row) : Q := default 0.0 (Invoice_Amount row).

(** The column [Δ_AED]. *)
Definition delta_aed (row : charge_row) : Q := invoice_amount row - _recalc row.

(** The column [Δ_%]. *)
Definition delta_pct (row : charge_row) : Q :=
  if Qeq_bool (invoice_amount row) 0 then 0.0
  else delta_aed row / invoice_amount row.

Definition _status (delta_thr : Q) (row : charge_row) : string :=
  let mode := Expected_Mode row in
  let inv_amt := invoice_amount row in
  let sys_amt := _recalc row in
  if String.eqb mode "rate" then
    if Qle_bool (Qabs (delta_pct row)) delta_thr then "PASS" else "FAIL"
  else if String.eqb mode "passthrough" then
    if Qltb (Qabs (inv_amt - sys_amt)) 0.5 then "PASS" else "FAIL"
  else if String.eqb mode "no-charge" then
    if Qeq_bool inv_amt 0.0 then "PASS" else "FAIL"
  else "FAIL".

(** [_grade] of [create_exceptions_and_evidence], reading the columns
    [Δ_%] and [Status] computed above. *)
Definition _grade (delta_thr : Q) (row : charge_row) : string :=
  if String.eqb (Expected_Mode row) "rate" then
    if Qle_bool (Qabs (delta_pct row)) delta_thr then "PASS"
    else if Qle_bool (Qabs (delta_pct row)) 0.05 then "WARN"
    else "FAIL"
  else _status delta_thr row.

(** ** Matching on exploded units and the choice between the strategies *)

(** [needle in hay] for two texts. *)
Fixpoint str_prefix (p s : string) : bool :=
  match p with
  | EmptyString => true
  | String a p' =>
    match s with
    | EmptyString => false
    | String b s' => Ascii.eqb a b && str_prefix p' s'
    end
  end.

Fixpoint str_in (needle hay : string) : bool :=
  str_prefix needle hay
  || match hay with
     | EmptyString => false
     | String _ hay' => str_in needle hay'
     end.

(** The result reported when no unit was picked. *)
Definition not_found (method : string) : match_result :=
  MatchResult false [] None None method.

(** [find_subset_match_exploded]; the picked entries are positions in the
    frame of units. *)
Definition find_subset_match_exploded (cand_df : list cand_row) (k : Z)
    (gw_tgt cbm_tgt tol : Q) : match_result :=
  if bool_decide (cand_df = []) || (k <=? 0)%Z then
    not_found "no-candidate-exploded"
  else
    let units := explode_by_pkg cand_df in
    if (length units =? 0)%nat then not_found "no-units-exploded"
    else
      let vals_gw := map unit_GW units in
      let vals_cbm := map unit_CBM units in
      if (length units <=? MAX_EXACT_N)%nat then
        match find (feasible vals_gw vals_cbm gw_tgt cbm_tgt tol)
                (combinations (seq 0 (length vals_gw)) (Z.to_nat k)) with
        | Some comb =>
          MatchResult true (map Z.of_nat comb)
            (Some (sum_at vals_gw comb)) (Some (sum_at vals_cbm comb))
            "exact-exploded"
        | None => not_found "exact-exploded"
        end
      else
        let '(success, picked_indices, sum_gw, sum_cbm) :=
          robust_greedy_local vals_gw vals_cbm gw_tgt cbm_tgt tol k MAX_ITER in
        MatchResult success (map Z.of_nat picked_indices) sum_gw sum_cbm
          "robust-greedy-local-exploded".

(** The columns [G.W(kgs)] and [CBM] of a candidate frame, with its index. *)
Definition gw_cbm_columns (cand_df : list cand_row) : list pkg_row :=
  map (fun r => PkgRow (row_ix r) (row_GW r) (row_CBM r)) cand_df.

(** [calculate_total_error] of [enhanced_subset_matching]. *)
Definition calculate_total_error (gw_tgt cbm_tgt : Q) (result : match_result)
    : xerr :=
  match sum_gw result, sum_cbm result with
  | Some gw, Some cbm =>
    if negb (found result) || (length (picked result) =? 0)%nat then Inf
    else Fin (Qabs (gw - gw_tgt) + Qabs (cbm - cbm_tgt))
  | _, _ => Inf
  end.

(** [min(results, key=key)]: the first result of least key. *)
Fixpoint min_by (key : match_result → xerr) (best : match_result)
    (rest : list match_result) : match_result :=
  match rest with
  | [] => best
  | r :: rest' => min_by key (if xlt (key r) (key best) then r else best) rest'
  end.

(** [enhanced_subset_matching]; a candidate frame always has its [Pkg]
    column here. *)
Definition enhanced_subset_matching (cand_df : list cand_row) (k : Z)
    (gw_tgt cbm_tgt tol : Q) (use_exploded : bool) : match_result :=
  if bool_decide (cand_df = []) || (k <=? 0)%Z then not_found "no-candidate"
  else
    let result1 := find_subset_match (gw_cbm_columns cand_df) k gw_tgt cbm_tgt tol in
    let results1 := if found result1 then [result1] else [] in
    let results :=
      if use_exploded then
        let result2 := find_subset_match_exploded cand_df k gw_tgt cbm_tgt tol in
        if found result2 then results1 ++ [result2] else results1
      else results1 in
    match results with
    | [] => result1
    | first :: others =>
      match List.filter (fun r => str_in "exact" (method r)) results with
      | exact_first :: _ => exact_first
      | [] => min_by (calculate_total_error gw_tgt cbm_tgt) first others
      end
    end.

(** ** Matching one invoice line *)

(** The three columns of an invoice line after [pd.to_numeric]; [None] is
    a NaN. *)
Record inv_row := InvRow {
  No_of_Pkgs : option Q;
  Weight_kg : option Q;
  inv_CBM : option Q
}.

(** The dictionary returned by [_match_one_code], read the way its caller
    does: a missing [Picked_Count] is 0, a missing [Method] is empty and a
    missing sum is [None]. *)
Record code_match := CodeMatch {
  Match_Status : string;
  GW_SumPicked : option Q;
  CBM_SumPicked : option Q;
  Method : string;
  Picked_Count : nat;
  Reason : string
}.

Definition within_opt (sum : option Q) (target tol : Q) : bool :=
  match sum with
  | Some s => Qle_bool (Qabs (s - target)) tol
  | None => false
  end.

Definition _match_one_code (inv_row : inv_row) (cand_df : list cand_row)
    (tol : Q) : code_match :=
  let k := match No_of_Pkgs inv_row with
           | Some k_raw => if Qltb 0 k_raw then int_of_float k_raw else 0%Z
           | None => 0%Z
           end in
  let gwT := default 0.0 (Weight_kg inv_row) in
  let cbT := default 0.0 (inv_CBM inv_row) in
  if (k <=? 0)%Z then CodeMatch "FAIL" None None "" 0 "INVALID_PKG_COUNT"
  else if bool_decide (cand_df = []) then
    CodeMatch "FAIL" None None "" 0 "NO_CANDIDATE"
  else if (length (explode_by_pkg cand_df) =? 0)%nat then
    CodeMatch "FAIL" None None "" 0 "NO_UNITS"
  else
    let res := enhanced_subset_matching cand_df k gwT cbT tol true in
    let gw_ok := within_opt (sum_gw res) gwT tol in
    let cb_ok := within_opt (sum_cbm res) cbT tol in
    let status :=
      if (Z.of_nat (length (picked res)) =? k)%Z && gw_ok && cb_ok
      then "PASS" else "FAIL" in
    CodeMatch status (sum_gw res) (sum_cbm res) (method res)
      (length (picked res))
      (if String.eqb status "PASS" then "" else "PKG/GW/CBM MISMATCH").

(** ** Warehouse names *)

(** [str.lower] for one character: the capital letters U+0041..U+005A
    and U+00C0..U+00DE, the multiplication sign U+00D7 excepted, move up
    by 32; every other code point below 256 stays. *)
Definition lower_char (a : Ascii.ascii) : Ascii.ascii :=
  if in_range 65 90 a || (in_range 192 222 a && negb (ord a =? 215)%nat)
  then chr (ord a + 32) else a.

Fixpoint lower (s : string) : string :=
  match s with
  | EmptyString => EmptyString
  | String a s' => String (lower_char a) (lower s')
  end.

(** The dictionary [WAREHOUSE_NAME_MAPPING], in the order of its keys; the
    two variants of the file define the same one. *)
Definition WAREHOUSE_NAME_MAPPING : list (string * list string) :=
  [ ("DSV Al Markaz", ["DSV Al Markaz"; "DSV AlMarkaz"; "Al Markaz"; "AlMarkaz"]);
    ("DSV Indoor", ["DSV Indoor"; "DSVIndoor"; "Indoor"]);
    ("DSV Outdoor", ["DSV Outdoor"; "DSVOutdoor"; "Outdoor"]);
    ("DSV MZP", ["DSV MZP"; "DSVMZP"; "MZP"]);
    ("AAA Storage", ["AAA Storage"; "AAAStorage"; "AAA"]);
    ("Hauler Indoor", ["Hauler Indoor"; "HaulerIndoor"; "Hauler"]);
    ("DHL Warehouse", ["DHL Warehouse"; "DHLWarehouse"; "DHL"]);
    ("MOSB", ["MOSB"; "MOSB Storage"]) ].

(** [name in variants] *)
Definition is_variant (name : string) (variants : list string) : bool :=
  existsb (String.eqb name) variants.

(** The test of the partial matching, true for some variant of the list:
    [name_lower in variant.lower() or variant.lower() in name_lower]. *)
Definition partial_match (name_lower : string) (variants : list string) : bool :=
  existsb (fun variant => str_in name_lower (lower variant)
                          || str_in (lower variant) name_lower) variants.

(** The standard name of the first entry of the dictionary that passes
    a test on its variants. *)
Definition first_standard_name (test : list string → bool)
    (mapping : list (string * list string)) : option string :=
  fst <$> find (fun entry => test (snd entry)) mapping.

(** [normalize_warehouse_name] of the main script: all the exact matches
    are tried before any partial one.  [None] is a missing name ([None] or
    NaN). *)
Definition normalize_warehouse_name (warehouse_name : option string) : string :=
  match warehouse_name with
  | None => "Unknown"
  | Some warehouse_name =>
    if String.eqb warehouse_name "" then "Unknown"
    else
      let warehouse_name := strip warehouse_name in
      match first_standard_name (is_variant warehouse_name)
              WAREHOUSE_NAME_MAPPING with
      | Some standard_name => standard_name
      | None =>
        let warehouse_name_lower := lower warehouse_name in
        match first_standard_name (partial_match warehouse_name_lower)
                WAREHOUSE_NAME_MAPPING with
        | Some standard_name => standard_name
        | None => warehouse_name
        end
      end
  end.

(** The functions of the same names in the recover build
    ([hvdc wh invoice safe.py]). *)
Module Safe.

(** One pass over the dictionary: an entry answers as soon as the name is
    one of its variants or matches one of them partially. *)
Definition normalize_warehouse_name (name : option string) : string :=
  match name with
  | None => "Unknown"
  | Some name =>
    let s := strip name in
    match first_standard_name
            (fun variants => is_variant s variants || partial_match (lower s) variants)
            WAREHOUSE_NAME_MAPPING with
    | Some std => std
    | None => s
    end
  end.

Definition get_billing_mode (wh : string) : string :=
  if bool_decide (wh ∈ BILLING_MODE_RATE) then "rate"
  else if bool_decide (wh ∈ BILLING_MODE_PASSTHROUGH) then "passthrough"
  else if bool_decide (wh ∈ BILLING_MODE_NO_CHARGE) then "no-charge"
  else "unknown".

Definition get_rate (wh : string) : Q := default 0.0 (WAREHOUSE_RATES !! wh).

End Safe.

(** ** Reason codes and exceptions *)

(** [_reason] of [create_monthly_charges_match]; next to the columns of
    the row it reads [Invoice_Rate], where [None] is a NaN, and [Status]. *)
Definition _reason (row : charge_row) (Invoice_Rate : option Q)
    (Status : string) : string :=
  let mode := Expected_Mode row in
  if String.eqb mode "unknown" then "MODE_MISSING"
  else if String.eqb mode "rate" then
    if match Invoice_Rate with
       | Some rate => Qltb 1e-6 (Qabs (rate - Contract_Rate row))
       | None => false
       end
    then "RATE_DIFF"
    else if String.eqb Status "PASS" then "" else "PRORATION_MISMATCH"
  else if String.eqb mode "passthrough" then
    if String.eqb Status "PASS" then "" else "PASSTHROUGH_MISMATCH"
  else if String.eqb mode "no-charge" then
    if String.eqb Status "PASS" then "" else "NOCHARGE_VIOLATION"
  else "".

(** A row of the merged frame [m]: the columns [Expected_Mode] and
    [Contract_Rate] are mapped from the column [Warehouse]. *)
Definition merged_row (Warehouse : string) (System_Avg_SQM System_Amount : Q)
    (Invoice_Amount : option Q) : charge_row :=
  ChargeRow (Safe.get_billing_mode Warehouse) System_Avg_SQM
    (Safe.get_rate Warehouse) System_Amount Invoice_Amount.

(** The frame [ex] of [create_exceptions_and_evidence], before it is sorted
    by month and warehouse: the rows of the frame built by
    [create_monthly_charges_match] whose grade is not PASS. *)
Definition exception_rows (delta_thr : Q) (match_df : list charge_row)
    : list charge_row :=
  List.filter (fun row => negb (String.eqb (_grade delta_thr row) "PASS")) match_df.

(** ** Normalisation and splitting of codes *)

(** [str.upper] for one character: the small letters U+0061..U+007A and
    U+00E0..U+00FE, the division sign U+00F7 excepted, move down by 32 and
    U+00DF becomes "SS".  The capitals of U+00B5 and U+00FF lie above
    U+00FF, outside the texts modelled here: [None]. *)
Definition upper_char (a : Ascii.ascii) : option string :=
  if (ord a =? 181)%nat || (ord a =? 255)%nat then None
  else if (ord a =? 223)%nat then Some "SS"
  else if in_range 97 122 a || (in_range 224 254 a && negb (ord a =? 247)%nat)
  then Some (String (chr (ord a - 32)) "")
  else Some (String a "").

Fixpoint upper (s : string) : option string :=
  match s with
  | EmptyString => Some EmptyString
  | String a s' => u ← upper_char a; r ← upper s'; Some (u +:+ r)
  end.

(** What [\w] matches below U+0100: the letters, the digits in the sense of
    [str.isdigit], the fractions U+00BC..U+00BE and the underscore. *)
Definition is_word_char (a : Ascii.ascii) : bool :=
  is_alnum_ascii a || (ord a =? 95)%nat || (ord a =? 170)%nat
  || (ord a =? 178)%nat || (ord a =? 179)%nat || (ord a =? 181)%nat
  || (ord a =? 185)%nat || (ord a =? 186)%nat || in_range 188 190 a
  || (in_range 192 255 a && negb (ord a =? 215)%nat && negb (ord a =? 247)%nat).

(** [re.sub('[^...]', '', s)] for a class of characters to keep. *)
Fixpoint keep_chars (p : Ascii.ascii → bool) (s : string) : string :=
  match s with
  | EmptyString => EmptyString
  | String a s' => if p a then String a (keep_chars p s') else keep_chars p s'
  end.

(** [re.sub('c+', 'c', s)]: an occurrence of [c] followed by another one is
    dropped, which leaves one [c] for every run. *)
Fixpoint squeeze (c : Ascii.ascii) (s : string) : string :=
  match s with
  | EmptyString => EmptyString
  | String a s' =>
    if Ascii.eqb a c then
      match s' with
      | String b _ => if Ascii.eqb b c then squeeze c s' else String a (squeeze c s')
      | EmptyString => String a EmptyString
      end
    else String a (squeeze c s')
  end.

(** [normalize_hvdc_code] on a [str] argument; the two variants of the
    file have the same body.  [None] when [upper] leaves the texts modelled
    here. *)
Definition normalize_hvdc_code (code : string) : option string :=
  if String.eqb code "" then Some ""
  else
    normalized ← upper (strip code);
    let normalized :=
      keep_chars (fun a => is_word_char a || Ascii.eqb a "-") normalized in
    Some (squeeze "-" normalized).

(** [split_hvdc_code] on a [str] argument: five entries, [None] for a
    missing part. *)
Definition split_hvdc_code (code : string) : option (list (option string)) :=
  normalized_code ← normalize_hvdc_code code;
  let parts :=
    strip <$> List.filter (fun p => negb (String.eqb (strip p) ""))
                (split "-" normalized_code) in
  let parts := (Some <$> parts) ++ replicate (5 - length parts) None in
  Some (take 5 parts).

(** ** The matching step of the main script *)

Module Script.

(** What the body of the loop over the invoice codes computes for one code
    before it writes the report row. *)
Record match_row := MatchRow {
  result : match_result;
  all_pkgs_sum : Z;
  pkg_pass : bool;
  gw_ok : bool;
  cbm_ok : bool;
  match_status : string
}.

(** The body of the loop from the targets on: [cand] is the candidate
    frame, [k], [gw_tgt] and [cbm_tgt] are the sums over the invoice
    lines. *)
Definition match_code (cand : list cand_row) (k : Z) (gw_tgt cbm_tgt : Q)
    : match_row :=
  let N := length cand in
  let all_pkgs_sum :=
    if (0 <? N)%nat then int_of_float (Qsum (map Pkg cand)) else 0%Z in
  let pkg_pass := (k <=? all_pkgs_sum)%Z in
  if (N =? 0)%nat || (all_pkgs_sum =? 0)%Z || (k <=? 0)%Z then
    MatchRow (not_found "no-candidate") all_pkgs_sum pkg_pass false false "FAIL"
  else
    let units := explode_by_pkg cand in
    if (length units =? 0)%nat then
      MatchRow (not_found "no-units") all_pkgs_sum pkg_pass false false "FAIL"
    else
      let vals_gw := map unit_GW units in
      let vals_cbm := map unit_CBM units in
      let result :=
        if (length units <=? MAX_EXACT_N)%nat then
          match find (feasible vals_gw vals_cbm gw_tgt cbm_tgt TOL)
                  (combinations (seq 0 (length vals_gw)) (Z.to_nat k)) with
          | Some comb =>
            MatchResult true (map Z.of_nat comb)
              (Some (sum_at vals_gw comb)) (Some (sum_at vals_cbm comb))
              "exact-exploded"
          | None => not_found "exact-exploded"
          end
        else
          let '(success, picked_indices, sum_gw, sum_cbm) :=
            robust_greedy_local vals_gw vals_cbm gw_tgt cbm_tgt TOL k MAX_ITER in
          MatchResult success (map Z.of_nat picked_indices) sum_gw sum_cbm
            "robust-greedy-local-exploded" in
      let gw_ok := within_opt (sum_gw result) gw_tgt TOL in
      let cbm_ok := within_opt (sum_cbm result) cbm_tgt TOL in
      MatchRow result all_pkgs_sum pkg_pass gw_ok cbm_ok
        (if pkg_pass && gw_ok && cbm_ok then "PASS" else "FAIL").

End Script.

(** ** The exact matcher and the monthly match on binary64 floats *)

Module Double.
Local Open Scope float_scope.

(** *** The exact matcher *)

Definition TOL : float := 0.10.

(** [arr[i]] for an in-range position. *)
Definition at_ (arr : list float) (i : nat) : float := nth i arr 0.

(** [close2(a, b, tol)]: [abs(a - b) <= tol] on doubles. *)
Definition close2 (a b tol : float) : bool := abs (a - b) <=? tol.

Record pkg_row := PkgRow { ix : Z; GW : float; CBM : float }.

Record match_result := MatchResult {
  found : bool;
  picked : list Z;
  sum_gw : option float;
  sum_cbm : option float;
  method : string
}.

Section Matchers.

(** [np.sum] on a one-dimensional array of doubles.  The order in which
    numpy adds the elements of an array is its own (one after the other for
    fewer than eight elements, by blocks beyond); the definitions take the
    function as it is, whatever that order. *)
Variable np_sum : list float → float.

(** [robust_greedy_local], entered for pools of more than [MAX_EXACT_N]
    rows only; on doubles it is left open here. *)
Variable robust_greedy_local :
  list float → list float → Z → float → float → float →
  bool * list nat * option float * option float.

(** [arr[list(indices)].sum()] *)
Definition sum_at (arr : list float) (indices : list nat) : float :=
  np_sum (map (at_ arr) indices).

Definition feasible (arr_gw arr_cbm : list float) (gw_tgt cbm_tgt tol : float)
    (comb : list nat) : bool :=
  close2 (sum_at arr_gw comb) gw_tgt tol && close2 (sum_at arr_cbm comb) cbm_tgt tol.

Definition exact_subset_pos (pkgs_df : list pkg_row) (k : nat)
    (gw_tgt cbm_tgt tol : float) : option (list nat) :=
  let idxs := map ix pkgs_df in
  let arr_gw := map GW pkgs_df in
  let arr_cbm := map CBM pkgs_df in
  find (feasible arr_gw arr_cbm gw_tgt cbm_tgt tol)
       (combinations (seq 0 (length idxs)) k).

Definition exact_subset_match (pkgs_df : list pkg_row) (k : nat)
    (gw_tgt cbm_tgt tol : float) : bool * list Z * option float * option float :=
  let idxs := map ix pkgs_df in
  let arr_gw := map GW pkgs_df in
  let arr_cbm := map CBM pkgs_df in
  match exact_subset_pos pkgs_df k gw_tgt cbm_tgt tol with
  | Some comb =>
    let gw := sum_at arr_gw comb in
    let cbm := sum_at arr_cbm comb in
    let picked := map (fun i => nth i idxs 0%Z) comb in
    (true, picked, Some gw, Some cbm)
  | None => (false, [], None, None)
  end.

Definition find_subset_match (pkgs_df : list pkg_row) (k : Z)
    (gw_tgt cbm_tgt tol : float) : match_result :=
  let N := length pkgs_df in
  if (Z.of_nat N <? k)%Z || (k <=? 0)%Z then
    MatchResult false [] None None "invalid"
  else if (N <=? MAX_EXACT_N)%nat then
    let '(ok, picked, gw, cbm) :=
      exact_subset_match pkgs_df (Z.to_nat k) gw_tgt cbm_tgt tol in
    MatchResult ok picked gw cbm "exact"
  else
    let values_gw := map GW pkgs_df in
    let values_cbm := map CBM pkgs_df in
    let '(success, picked_indices, sum_gw, sum_cbm) :=
      robust_greedy_local values_gw values_cbm k gw_tgt cbm_tgt tol in
    let picked_df_indices :=
      map (fun i => nth i (map ix pkgs_df) 0%Z) picked_indices in
    MatchResult success picked_df_indices sum_gw sum_cbm "robust-greedy-local".

End Matchers.

(** [np.sum] where it adds one element after the other, as it does on the
    arrays of fewer than eight elements of the examples. *)
Definition sequential_sum (arr : list float) : float := foldl add 0 arr.

(** The approximate matcher is not entered in the examples. *)
Definition not_entered (values_gw values_cbm : list float) (k : Z)
    (gw_tgt cbm_tgt tol : float)
    : bool * list nat * option float * option float :=
  (false, [], None, None).

(** *** The monthly match *)

(** The real number a double stands for; 0 for NaN and the infinities. *)
Definition exact_value (x : float) : Q :=
  match Prim2SF x with
  | S754_finite s m e =>
    ((if s then -1 else 1) * (inject_Z (Z.pos m) * Qpower 2 e))%Q
  | _ => 0%Q
  end.

(** The double nearest to [n / 100], with the sign given. *)
Definition hundredths (negative : bool) (n : Z) : float :=
  SF2Prim
    (SFdiv prec emax
       (if (n =? 0)%Z then S754_zero negative
        else S754_finite negative (Z.to_pos n) 0)
       (S754_finite false 100 0)).

(** [round(x, 2)]: the real number [x] stands for is rounded to a whole
    number of hundredths, ties going to the even one, and the result is the
    double nearest to that decimal; zeros, NaN and the infinities are
    returned as they are. *)
Definition round2 (x : float) : float :=
  match Prim2SF x with
  | S754_finite s m e =>
    hundredths s (round_half_even (inject_Z (Z.pos m) * Qpower 2 e * 100)%Q)
  | _ => x
  end.

(** One row of the merged frame; [Invoice_Amount] is NaN when the left
    merge found no invoice line for the month and warehouse. *)
Record charge_row := ChargeRow {
  Expected_Mode : string;
  System_Avg_SQM : float;
  Contract_Rate : float;
  System_Amount : float;
  Invoice_Amount : float
}.

Definition _recalc (row : charge_row) : float :=
  let mode := Expected_Mode row in
  if String.eqb mode "rate" then
    round2 (System_Avg_SQM row * Contract_Rate row)
  else if String.eqb mode "passthrough" then System_Amount row
  else 0.0.

(** The column [Invoice_Amount] after [fillna(0.0)]. *)
Definition invoice_amount (row : charge_row) : float :=
  if is_nan (Invoice_Amount row) then 0.0 else Invoice_Amount row.

(** The column [Δ_AED]. *)
Definition delta_aed (row : charge_row) : float :=
  invoice_amount row - _recalc row.

(** The column [Δ_%]. *)
Definition delta_pct (row : charge_row) : float :=
  if invoice_amount row =? 0 then 0.0
  else delta_aed row / invoice_amount row.

Definition _status (delta_thr : float) (row : charge_row) : string :=
  let mode := Expected_Mode row in
  let inv_amt := invoice_amount row in
  let sys_amt := _recalc row in
  if String.eqb mode "rate" then
    if abs (delta_pct row) <=? delta_thr then "PASS" else "FAIL"
  else if String.eqb mode "passthrough" then
    if abs (inv_amt - sys_amt) <? 0.5 then "PASS" else "FAIL"
  else if String.eqb mode "no-charge" then
    if inv_amt =? 0.0 then "PASS" else "FAIL"
  else "FAIL".

(** [_grade] of [create_exceptions_and_evidence], reading the columns
    [Δ_%] and [Status] computed above. *)
Definition _grade (delta_thr : float) (row : charge_row) : string :=
  if String.eqb (Expected_Mode row) "rate" then
    if abs (delta_pct row) <=? delta_thr then "PASS"
    else if abs (delta_pct row) <=? 0.05 then "WARN"
    else "FAIL"
  else _status delta_thr row.

(** *** The merge of the system rows with the invoice lines *)

Definition WAREHOUSE_RATES : list (string * float) :=
  [("DSV Outdoor", 18.0); ("DSV MZP", 33.0); ("DSV Indoor", 47.0);
   ("DSV Al Markaz", 47.0); ("AAA Storage", 0.0); ("Hauler Indoor", 0.0);
   ("DHL Warehouse", 0.0); ("MOSB", 0.0)].

(** [get_rate] of the recover build. *)
Definition get_rate (wh : string) : float :=
  match find (fun entry => String.eqb (fst entry) wh) WAREHOUSE_RATES with
  | Some entry => snd entry
  | None => 0.0
  end.

(** A row of [df_sys]: one month and warehouse of the reporter's charges,
    with [avg_sqm] and [monthly_charge_aed]. *)
Record system_row := SystemRow {
  sys_Month : string;
  sys_Warehouse : string;
  sys_Avg_SQM : float;
  sys_Amount : float
}.

(** A line of the invoice frame [inv]: the month as the text of its period
    ("YYYY-MM"), the warehouse column as read ([None] for a missing name)
    and the amount. *)
Record invoice_line := InvoiceLine {
  line_Month : string;
  line_Warehouse : option string;
  line_Amount : float
}.

Section Merge.

(** The sum pandas takes of the amounts of one group. *)
Variable group_sum : list float → float.

(** The amounts of the group of [inv.groupby(["Month", "Warehouse"])] for
    a month and a warehouse name, the column [Warehouse] being the
    normalised name of each line. *)
Definition invoice_group (inv : list invoice_line) (ym wh : string)
    : list float :=
  map line_Amount
    (List.filter
       (fun line =>
          String.eqb (line_Month line) ym
          && String.eqb (Safe.normalize_warehouse_name (line_Warehouse line)) wh)
       inv).

(** The column [Invoice_Amount] after the left merge: the sum of the group
    of the same month and warehouse, NaN where there is no such group. *)
Definition merged_invoice_amount (inv : list invoice_line) (ym wh : string)
    : float :=
  match invoice_group inv ym wh with
  | [] => nan
  | amounts => group_sum amounts
  end.

(** The row of the merged frame [m] for a row of [df_sys]. *)
Definition merged_row (inv : list invoice_line) (r : system_row) : charge_row :=
  ChargeRow (Safe.get_billing_mode (sys_Warehouse r)) (sys_Avg_SQM r)
    (get_rate (sys_Warehouse r)) (sys_Amount r)
    (merged_invoice_amount inv (sys_Month r) (sys_Warehouse r)).

End Merge.

End Double.

(** ** Vocabulary of the statements *)

(** The index labels of the rows at the positions [c]. *)
Definition labels_at (pkgs_df : list pkg_row) (c : list nat) : list Z :=
  map (fun i => nth i (map ix pkgs_df) 0%Z) c.

(** A pool of four rows in which positions 0 and 2 are the first pair that
    sums to 4 in both columns. *)
Definition pool4 : list pkg_row :=
  [PkgRow 10 1 1; PkgRow 11 2 2; PkgRow 12 3 3; PkgRow 13 2 2].

(** A selection of [k] distinct positions of an array of length [n]. *)
Definition valid_sel (n k : nat) (sel : list nat) : Prop :=
  length sel = k ∧ NoDup sel ∧ ∀ i, i ∈ sel → (i < n)%nat.

(** What the scan of candidate replacements for position [i] has found so
    far: nothing, or an unselected position whose trial error is the
    recorded one and is below the error the scan started from. *)
Definition scan_inv (values_gw values_cbm : list Q) (gw_tgt cbm_tgt : Q)
    (current : list nat) (i : nat) (start : xerr)
    (acc : xerr * option nat) : Prop :=
  match acc.2 with
  | None => acc.1 = start
  | Some r =>
    (r ∉ current) ∧ (r < length values_gw)%nat
    ∧ acc.1 = calculate_error values_gw values_cbm gw_tgt cbm_tgt (<[i:=r]> current)
    ∧ xlt acc.1 start = true
  end.

(** The selections logged by [robust_greedy_local]: the greedy start, then
    the selection held at the end of each executed pass. *)
Definition pass_log (values_gw values_cbm : list Q) (gw_tgt cbm_tgt tol : Q)
    (k : Z) (max_iter : nat) : list (list nat) :=
  (robust_greedy_local_run values_gw values_cbm gw_tgt cbm_tgt tol k max_iter).2.

(** Along a log that starts after [prev]: a pass is only run from a
    selection outside the tolerance, it never raises the total error, and it
    is followed by another pass only if it lowered the error. *)
Fixpoint pass_chain (values_gw values_cbm : list Q) (gw_tgt cbm_tgt tol : Q)
    (prev : list nat) (log : list (list nat)) : Prop :=
  match log with
  | [] => True
  | s :: rest =>
    within_tol values_gw values_cbm gw_tgt cbm_tgt tol prev = false
    ∧ total_error values_gw values_cbm gw_tgt cbm_tgt s
      <= total_error values_gw values_cbm gw_tgt cbm_tgt prev
    ∧ (rest ≠ [] →
       total_error values_gw values_cbm gw_tgt cbm_tgt s
       < total_error values_gw values_cbm gw_tgt cbm_tgt prev)
    ∧ pass_chain values_gw values_cbm gw_tgt cbm_tgt tol s rest
  end.

(** The number of local-search passes executed by [robust_greedy_local]. *)
Definition passes_run (values_gw values_cbm : list Q) (gw_tgt cbm_tgt tol : Q)
    (k : Z) (max_iter : nat) : nat :=
  (length (pass_log values_gw values_cbm gw_tgt cbm_tgt tol k max_iter) - 1)%nat.

(** Six items used to exercise the approximate matcher. *)
Definition six_gw : list Q := [1; 2; 3; 2; 10; 7].
Definition six_cbm : list Q := [1; 2; 3; 2; 1; 7].

(** A pool of twenty rows, labelled 100..119, the row at position [i]
    weighing [i + 1] and measuring [2 (i + 1)]. *)
Definition pool20 : list pkg_row :=
  map (fun i => PkgRow (100 + Z.of_nat i) (inject_Z (Z.of_nat i + 1))
                       (inject_Z (2 * (Z.of_nat i + 1)))) (seq 0 20).

(** Every character of the text that [str.isdigit] accepts is a decimal
    digit: the text has no superscript digit. *)
Definition plain_digits (s : string) : bool :=
  str_all (fun a => negb (is_digit_char a) || is_decimal a) s.

(** The base token of a combined code and the tokens after it. *)
Definition base_token (code : string) : string :=
  hd "" (split ","%char (remove_char " "%char code)).

Definition later_tokens (code : string) : list string :=
  tl (split ","%char (remove_char " "%char code)).

(** The part of a later token that can reach [int]: the text before its
    first hyphen, or the whole token when it has none. *)
Definition token_head (t : string) : string :=
  match split1 "-"%char t with
  | Some (num_part, _) => num_part
  | None => t
  end.

(** The head of the token, when all digits, has no more digits than [int]
    converts. *)
Definition short_number (t : string) : bool :=
  negb (isdigit (token_head t))
  || (String.length (token_head t) <=? INT_MAX_STR_DIGITS)%nat.

Definition short_numbers (code : string) : bool :=
  forallb short_number (later_tokens code).

(** A run of 4301 digits, one more than [int] converts. *)
Definition long_number : string :=
  String.concat "" (replicate (S INT_MAX_STR_DIGITS) "9").

(** The entry contributed by a later token when the base token has no
    numeric block: a token with a hyphen and an all-digit head becomes the
    prefix, the head padded to four places, a hyphen and the rest; any other
    token is kept as it is. *)
Definition degraded_entry (prefix t : string) : string :=
  match split1 "-"%char t with
  | Some (num_part, sub_part) =>
    if isdigit num_part then
      prefix +:+ default "" (pad4 num_part) +:+ "-" +:+ sub_part
    else t
  | None => t
  end.

(** A rate-mode row whose area times rate, 97.9968, lies beyond the second
    decimal, against an invoice of 100. *)
Definition rounding_row : Double.charge_row :=
  Double.ChargeRow "rate" 2.9696 33 0 100.

(** A rate-mode row with a credited (negative) invoice total. *)
Definition credit_row : Double.charge_row :=
  Double.ChargeRow "rate" 0 18 0 (-100).

(** The scenario of the specification: area 120.5 at rate 47.0 against an
    invoice of 5,600.00. *)
Definition scenario_row : Double.charge_row :=
  Double.ChargeRow "rate" 120.5 47.0 0 5600.

(** A rate-mode row whose two factors have a product above 0.495 as real
    numbers and below it once formed in floating point. *)
Definition product_row : Double.charge_row :=
  Double.ChargeRow "rate" 0.0275 18.0 0 0.51.

(** A double that is neither a zero, nor NaN, nor an infinity. *)
Definition finite_nonzero (x : float) : bool :=
  match Prim2SF x with
  | S754_finite _ _ _ => true
  | _ => false
  end.

(** The index labels at the positions [c]. *)
Definition index_labels (pkgs_df : list Double.pkg_row) (c : list nat) : list Z :=
  map (fun i => nth i (map Double.ix pkgs_df) 0%Z) c.

(** The sum, as a real number, of the entries of [arr] at the positions
    [c]. *)
Definition real_sum_at (arr : list float) (c : list nat) : Q :=
  Qsum (map (fun i => Double.exact_value (Double.at_ arr i)) c).

(** Two rows of 0.1 and 0.2 kg: as real numbers the pair weighs exactly
    0.1 more than the target 0.2. *)
Definition boundary_pool : list Double.pkg_row :=
  [Double.PkgRow 0 0.1 0; Double.PkgRow 1 0.2 0].

(** A pool of four rows in which positions 0 and 2 are the first pair whose
    sums are the targets 4 and 3. *)
Definition float_pool4 : list Double.pkg_row :=
  [Double.PkgRow 10 1.25 0.5; Double.PkgRow 11 2.5 1.5;
   Double.PkgRow 12 2.75 2.5; Double.PkgRow 13 0.1 0.2].

(** A match result agrees with its own sums: [found] holds exactly when
    both reported sums are present and within [tol] of the targets, and a
    found result has picked [k] entries. *)
Definition result_consistent (k : Z) (gw_tgt cbm_tgt tol : Q)
    (r : match_result) : Prop :=
  found r = within_opt (sum_gw r) gw_tgt tol && within_opt (sum_cbm r) cbm_tgt tol
  ∧ (found r = true → (0 < k)%Z ∧ length (picked r) = Z.to_nat k).

(** The number of packages of a row that become units. *)
Definition unit_count (row : cand_row) : nat := Z.to_nat (int_of_float (Pkg row)).

(** A candidate frame of three rows: four packages in all, one row with
    no package. *)
Definition cand3 : list cand_row :=
  [CandRow 10 2 8 4; CandRow 11 0 5 5; CandRow 12 2 6 2].

(** A text that does not begin with a character that [strip] removes. *)
Definition head_kept (s : string) : bool :=
  match s with
  | EmptyString => true
  | String a _ => negb (is_space a)
  end.

(** The keys of [WAREHOUSE_NAME_MAPPING]. *)
Definition standard_names : list string := WAREHOUSE_NAME_MAPPING.*1.

(** All the variants listed in [WAREHOUSE_NAME_MAPPING]. *)
Definition listed_variants : list string := mjoin (WAREHOUSE_NAME_MAPPING.*2).

(** No replacement of one of the [k] picked positions by an unpicked
    position of the pool lowers the total error of the selection. *)
Definition swap_optimal (values_gw values_cbm : list Q) (gw_tgt cbm_tgt : Q)
    (k : nat) (sel : list nat) : Prop :=
  ∀ i r : nat, (i < k)%nat → (r < length values_gw)%nat → r ∉ sel →
    total_error values_gw values_cbm gw_tgt cbm_tgt sel
    <= total_error values_gw values_cbm gw_tgt cbm_tgt (<[i:=r]> sel).

(** The selection [robust_greedy_local] starts from: the [k] positions of
    least combined score. *)
Definition greedy_start (values_gw values_cbm : list Q) (gw_tgt cbm_tgt : Q)
    (k : Z) : list nat :=
  take (Z.to_nat k) (argsort (combined_score values_gw values_cbm gw_tgt cbm_tgt)).

(** The loop of a starred character class, as [rmatch] runs it. *)
Definition class_star (p : Ascii.ascii → bool)
    (k : string → captures → option captures)
    : nat → string → captures → option captures :=
  fix star (fuel : nat) (s : string) (g : captures) : option captures :=
    match fuel with
    | O => k s g
    | S fuel' =>
      match
        match s with
        | EmptyString => None
        | String a s' =>
          if p a then
            if (String.length s' <? String.length s)%nat
            then star fuel' s' g else None
          else None
        end
      with
      | Some m => Some m
      | None => k s g
      end
    end.

(** The entry contributed by a later token when the base token has a
    numeric block: a token with a hyphen is treated as in
    [degraded_entry]; an all-digit token becomes the prefix, the token padded
    to four places and the sub-suffix of the base token; any other token is
    kept as it is. *)
Definition numeric_entry (prefix sub t : string) : string :=
  if contains "-"%char t then degraded_entry prefix t
  else if isdigit t then prefix +:+ default "" (pad4 t) +:+ sub
  else t.

(** Pascal's rule: the number of [r]-element subsequences of a pool of [n]
    elements. *)
Fixpoint choose (n r : nat) : nat :=
  match r with
  | O => 1
  | S r' =>
    match n with
    | O => 0
    | S n' => choose n' r' + choose n' r
    end
  end.

(** A character that [str.upper] leaves alone. *)
Definition is_upper_fixed (a : Ascii.ascii) : bool :=
  match upper_char a with
  | Some u => String.eqb u (String a EmptyString)
  | None => false
  end.

(** A character of a part of a normalised code. *)
Definition is_part_char (a : Ascii.ascii) : bool :=
  is_word_char a && is_upper_fixed a.

(** The text begins with [c]. *)
Definition starts_with (c : Ascii.ascii) (s : string) : bool :=
  match s with
  | EmptyString => false
  | String b _ => Ascii.eqb b c
  end.

(** [c] does not occur twice in a row. *)
Fixpoint no_double (c : Ascii.ascii) (s : string) : bool :=
  match s with
  | EmptyString => true
  | String a s' => negb (Ascii.eqb a c && starts_with c s') && no_double c s'
  end.

(** The shape of a normalised code: parts separated by single hyphens. *)
Definition normal_code (s : string) : bool :=
  str_all (fun a => is_part_char a || Ascii.eqb a "-") s && no_double "-" s.

(** A part of a code: a non-empty run of part characters. *)
Definition is_part (w : string) : Prop :=
  w ≠ "" ∧ str_all is_part_char w = true.

(** The five entries for a list of at most five parts. *)
Definition five_parts (ws : list string) : list (option string) :=
  (Some <$> ws) ++ replicate (5 - length ws) None.

(** * Properties *)

(** ** The definitions at work *)

Example combinations_4_2 :
  combinations (seq 0 4) 2
  = [[0; 1]; [0; 2]; [0; 3]; [1; 2]; [1; 3]; [2; 3]]%nat.
Proof. reflexivity. Qed.

Example argsort_ties : argsort [3; 1; 2; 1] = [1; 3; 2; 0]%nat.
Proof. vm_compute. reflexivity. Qed.

Example exact_subset_match_pool4 :
  exact_subset_match pool4 2 4 4 TOL = (true, [10; 12]%Z, Some 4, Some 4).
Proof. vm_compute. reflexivity. Qed.

(** A run that makes one improving pass, then one pass without an improving
    swap, and reports FAIL. *)
Example robust_greedy_local_run_six :
  robust_greedy_local_run six_gw six_cbm 14 13.95 TOL 3 MAX_ITER
  = ((false, [5; 2; 3]%nat, Some 12, Some 12),
     [[2; 1; 3]; [5; 2; 3]; [5; 2; 3]]%nat).
Proof. vm_compute. reflexivity. Qed.

(** A run that reaches the targets inside its first pass. *)
Example robust_greedy_local_run_hit :
  robust_greedy_local_run six_gw six_cbm 17 8 TOL 2 MAX_ITER
  = ((true, [5; 4]%nat, Some 17, Some 8), [[2; 1]; [5; 4]]%nat).
Proof. vm_compute. reflexivity. Qed.

Example find_subset_match_invalid :
  find_subset_match pool4 0 0 0 TOL = MatchResult false [] None None "invalid".
Proof. reflexivity. Qed.

Example parse_base_examples :
  parse_base "X-0087" = ("X-", Some "0087", "")
  ∧ parse_base "X-12-ab" = ("X-", Some "12", "-ab")
  ∧ parse_base "0087" = ("0087-", Some "0087", "")
  ∧ parse_base "ABC" = ("ABC-", None, "")
  ∧ parse_base "A-B" = ("A-", None, "").
Proof. repeat apply conj; vm_compute; reflexivity. Qed.

Example expand_combined_codes_run :
  expand_combined_codes "HVDC-ADOPT-HE-0192,195,189,193,197,191"
  = Some {[ "HVDC-ADOPT-HE-0192"; "HVDC-ADOPT-HE-0195"; "HVDC-ADOPT-HE-0189";
            "HVDC-ADOPT-HE-0193"; "HVDC-ADOPT-HE-0197"; "HVDC-ADOPT-HE-0191" ]}.
Proof. vm_compute. reflexivity. Qed.

Example strip_examples :
  strip "  DSV Indoor " = "DSV Indoor" ∧ strip "   " = "" ∧ strip "a b" = "a b".
Proof. repeat apply conj; reflexivity. Qed.

Example explode_by_pkg_run :
  explode_by_pkg [CandRow 7 2 9 1; CandRow 8 0 5 5]
  = [UnitRow 7 1 1 (9 / 2) (1 / 2); UnitRow 7 2 1 (9 / 2) (1 / 2)].
Proof. reflexivity. Qed.

Example round2_examples :
  round2 (120.5 * 47.0) == 5663.50 ∧ round2 0.125 == 0.12 ∧ round2 0.135 == 0.14.
Proof. repeat apply conj; vm_compute; reflexivity. Qed.

(** ** Rational helper lemmas *)

Lemma Qltb_lt (x y : Q) : Qltb x y = true ↔ x < y.
Proof.
  unfold Qltb. rewrite negb_true_iff. split.
  - intros H. apply Qnot_le_lt. intros Hle.
    apply Qle_bool_iff in Hle. congruence.
  - intros H. destruct (Qle_bool y x) eqn:E; [|done].
    apply Qle_bool_iff in E. exfalso. by apply (Qlt_not_le x y).
Qed.

Lemma close2_iff (a b tol : Q) : close2 a b tol = true ↔ Qabs (a - b) <= tol.
Proof. unfold close2. apply Qle_bool_iff. Qed.

Lemma close2_Qeq (a a' b tol : Q) : a == a' → close2 a b tol = close2 a' b tol.
Proof. intros H. unfold close2. by rewrite H. Qed.

Lemma Qsum_Permutation (l l' : list Q) : l ≡ₚ l' → Qsum l == Qsum l'.
Proof.
  induction 1 as [|x l l' _ IH|x y l|l l' l'' _ IH1 _ IH2]; simpl.
  - reflexivity.
  - by rewrite IH.
  - ring.
  - by rewrite IH1.
Qed.

Lemma sum_at_Permutation (arr : list Q) (s s' : list nat) :
  s ≡ₚ s' → sum_at arr s == sum_at arr s'.
Proof. intros H. apply Qsum_Permutation. by apply Permutation_map. Qed.

(** ** Enumeration of combinations *)

Lemma combinations_sound {A} (pool : list A) (r : nat) (c : list A) :
  c ∈ combinations pool r → c `sublist_of` pool ∧ length c = r.
Proof.
  revert r c. induction pool as [|x rest IH]; intros [|r'] c; simpl.
  - intros ->%list_elem_of_singleton. split; [constructor | done].
  - by intros ?%elem_of_nil.
  - intros ->%list_elem_of_singleton. split; [apply sublist_nil_l | done].
  - rewrite elem_of_app, list_elem_of_fmap.
    intros [(c' & -> & Hc') | Hc].
    + destruct (IH _ _ Hc') as [Hs Hl]. split; [by constructor | simpl; lia].
    + destruct (IH _ _ Hc) as [Hs Hl]. split; [by constructor | done].
Qed.

Lemma combinations_complete {A} (pool c : list A) :
  c `sublist_of` pool → c ∈ combinations pool (length c).
Proof.
  induction 1 as [|x l1 l2 _ IH|x l1 l2 _ IH]; simpl.
  - apply list_elem_of_singleton. done.
  - apply elem_of_app. left. apply list_elem_of_fmap. eauto.
  - destruct l1 as [|y l1]; simpl in *.
    + by apply list_elem_of_singleton.
    + apply elem_of_app. by right.
Qed.

(** A strictly increasing run of positions taken from a range is one of
    its subsequences. *)
Lemma sorted_sublist_seq (c : list nat) (a m : nat) :
  StronglySorted le c → NoDup c → (∀ i, i ∈ c → (a ≤ i < a + m)%nat) →
  c `sublist_of` seq a m.
Proof.
  revert a c. induction m as [|m IH]; intros a c Hs Hn Hb; simpl.
  - destruct c as [|x c]; [constructor|].
    specialize (Hb x (list_elem_of_here _ _)). lia.
  - destruct c as [|x c]; [apply sublist_nil_l|].
    pose proof Hs as Hs0. pose proof Hn as Hn0.
    apply StronglySorted_cons in Hs as [Hx Hs].
    apply NoDup_cons in Hn as [Hnx Hn].
    rewrite Forall_forall in Hx.
    destruct (decide (x = a)) as [->|Hne].
    + apply sublist_skip, IH; [done..|].
      intros i Hi. pose proof (Hx i Hi). pose proof (Hb i (list_elem_of_further _ _ _ Hi)).
      assert (i ≠ a) by (intros ->; done). lia.
    + apply sublist_cons, IH; [done..|].
      intros i Hi. pose proof (Hb x (list_elem_of_here _ _)).
      apply elem_of_cons in Hi as [->|Hi]; [lia|].
      pose proof (Hx i Hi). pose proof (Hb i (list_elem_of_further _ _ _ Hi)). lia.
Qed.

(** Every [k]-element set of positions below [n] is enumerated, as its
    increasing arrangement. *)
Lemma subset_in_combinations (s : list nat) (n : nat) :
  NoDup s → (∀ i, i ∈ s → (i < n)%nat) →
  ∃ c, c ≡ₚ s ∧ c ∈ combinations (seq 0 n) (length s).
Proof.
  intros Hn Hb. exists (merge_sort le s).
  pose proof (merge_sort_Permutation le s) as Hp.
  split; [done|].
  rewrite <- (Permutation_length Hp).
  apply combinations_complete, sorted_sublist_seq.
  - apply (StronglySorted_merge_sort le).
  - by rewrite Hp.
  - intros i Hi. rewrite Hp in Hi. specialize (Hb i Hi). lia.
Qed.

Lemma find_first {A} (f : A → bool) (l : list A) (x : A) :
  find f l = Some x →
  ∃ pre post, l = pre ++ x :: post ∧ f x = true ∧ Forall (λ y, f y = false) pre.
Proof.
  induction l as [|y l IH]; simpl; [done|].
  destruct (f y) eqn:E.
  - intros [= ->]. exists [], l. by repeat split.
  - intros (pre & post & -> & Hx & Hpre)%IH.
    exists (y :: pre), post. repeat split; [done|]. by constructor.
Qed.

Lemma find_is_Some {A} (f : A → bool) (l : list A) (x : A) :
  x ∈ l → f x = true → is_Some (find f l).
Proof.
  intros Hx Hf. destruct (find f l) eqn:E; [by eexists|].
  apply list_elem_of_In in Hx.
  by rewrite (find_none f l E x Hx) in Hf.
Qed.

Lemma feasible_iff (arr_gw arr_cbm : list Q) (gw_tgt cbm_tgt tol : Q) (c : list nat) :
  feasible arr_gw arr_cbm gw_tgt cbm_tgt tol c = true ↔
  Qabs (sum_at arr_gw c - gw_tgt) <= tol ∧ Qabs (sum_at arr_cbm c - cbm_tgt) <= tol.
Proof. unfold feasible. by rewrite andb_true_iff, !close2_iff. Qed.

(** ** The exact matcher is a first-fit search *)

Lemma increasing_le (c : list nat) : StronglySorted lt c → StronglySorted le c.
Proof.
  induction 1 as [|x l _ IH Hx]; constructor; [done|].
  eapply Forall_impl; [exact Hx|]. intros y Hy. simpl in Hy. lia.
Qed.

Lemma increasing_NoDup (c : list nat) : StronglySorted lt c → NoDup c.
Proof.
  induction 1 as [|x l _ IH Hx]; constructor; [|done].
  intros Hin. rewrite Forall_forall in Hx. specialize (Hx x Hin). lia.
Qed.

Lemma increasing_in_combinations (c : list nat) (n : nat) :
  StronglySorted lt c → (∀ i, i ∈ c → (i < n)%nat) →
  c ∈ combinations (seq 0 n) (length c).
Proof.
  intros Hs Hb. apply combinations_complete.
  apply (sorted_sublist_seq c 0 n);
    [by apply increasing_le | by apply increasing_NoDup|].
  intros i Hi. specialize (Hb i Hi). lia.
Qed.

Lemma sublist_seq_increasing (c : list nat) (a m : nat) :
  c `sublist_of` seq a m → StronglySorted lt c.
Proof.
  revert a c. induction m as [|m IH]; intros a c Hsub; simpl in Hsub.
  - apply sublist_nil_r in Hsub as ->. constructor.
  - apply sublist_cons_r in Hsub as [Hsub|(c' & -> & Hsub)]; [by eapply IH|].
    constructor; [by eapply IH|].
    apply Forall_forall. intros i Hi.
    pose proof (elem_of_sublist _ _ _ Hi Hsub) as Hi'.
    apply elem_of_seq in Hi'. lia.
Qed.

(** C1, as amended.  For a pool of at most 18 rows, with the sums taken as
    the code takes them ([np.sum] of the doubles at the chosen positions, in
    the order of the pool) and compared as the code compares them
    ([abs(sum - target) <= tol] on doubles): if some set of [k] positions
    passes both comparisons, then [exact_subset_match] returns found = True
    with the first such combination in the enumeration order of
    [combinations] (every earlier combination fails a comparison), whose
    two sums pass the comparisons and are the sums reported; for [k > 0]
    this is also what [find_subset_match] returns, tagged "exact". *)
Theorem exact_subset_match_first_fit
    (np_sum : list float → float)
    (robust_greedy_local :
       list float → list float → Z → float → float → float →
       bool * list nat * option float * option float)
    (pkgs_df : list Double.pkg_row) (k : nat) (gw_tgt cbm_tgt tol : float) :
  (length pkgs_df ≤ MAX_EXACT_N)%nat →
  (∃ c : list nat,
      StronglySorted lt c ∧ length c = k
      ∧ (∀ i, i ∈ c → (i < length pkgs_df)%nat)
      ∧ Double.feasible np_sum (map Double.GW pkgs_df) (map Double.CBM pkgs_df)
          gw_tgt cbm_tgt tol c = true) →
  ∃ pre comb post,
    combinations (seq 0 (length pkgs_df)) k = pre ++ comb :: post
    ∧ Forall
        (λ c, Double.feasible np_sum (map Double.GW pkgs_df)
                (map Double.CBM pkgs_df) gw_tgt cbm_tgt tol c = false) pre
    ∧ length comb = k ∧ StronglySorted lt comb
    ∧ (∀ i, i ∈ comb → (i < length pkgs_df)%nat)
    ∧ Double.close2 (Double.sum_at np_sum (map Double.GW pkgs_df) comb)
        gw_tgt tol = true
    ∧ Double.close2 (Double.sum_at np_sum (map Double.CBM pkgs_df) comb)
        cbm_tgt tol = true
    ∧ Double.exact_subset_match np_sum pkgs_df k gw_tgt cbm_tgt tol
      = (true, index_labels pkgs_df comb,
         Some (Double.sum_at np_sum (map Double.GW pkgs_df) comb),
         Some (Double.sum_at np_sum (map Double.CBM pkgs_df) comb))
    ∧ ((0 < k)%nat →
       Double.find_subset_match np_sum robust_greedy_local pkgs_df (Z.of_nat k)
         gw_tgt cbm_tgt tol
       = Double.MatchResult true (index_labels pkgs_df comb)
           (Some (Double.sum_at np_sum (map Double.GW pkgs_df) comb))
           (Some (Double.sum_at np_sum (map Double.CBM pkgs_df) comb)) "exact").
Proof.
  intros Hn (c & Hs & Hlen & Hb & Hfc).
  pose proof (increasing_in_combinations c (length pkgs_df) Hs Hb) as Hc.
  rewrite Hlen in Hc.
  destruct (find_is_Some _ _ _ Hc Hfc) as [comb Hfind].
  destruct (find_first _ _ _ Hfind) as (pre & post & Heq & Hfcomb & Hpre).
  assert (Hin : comb ∈ combinations (seq 0 (length pkgs_df)) k).
  { rewrite Heq. apply elem_of_app. right. apply list_elem_of_here. }
  destruct (combinations_sound _ _ _ Hin) as [Hsub Hlc].
  assert (Hexact : Double.exact_subset_match np_sum pkgs_df k gw_tgt cbm_tgt tol
      = (true, index_labels pkgs_df comb,
         Some (Double.sum_at np_sum (map Double.GW pkgs_df) comb),
         Some (Double.sum_at np_sum (map Double.CBM pkgs_df) comb))).
  { unfold Double.exact_subset_match, Double.exact_subset_pos.
    rewrite length_map. by rewrite Hfind. }
  pose proof Hfcomb as Hclose. unfold Double.feasible in Hclose.
  apply andb_true_iff in Hclose as [Hgw Hcbm].
  exists pre, comb, post. split_and!; try done.
  - by eapply sublist_seq_increasing.
  - intros i Hi. pose proof (elem_of_sublist _ _ _ Hi Hsub) as Hi'.
    apply elem_of_seq in Hi'. lia.
  - intros Hk. unfold Double.find_subset_match.
    assert ((Z.of_nat (length pkgs_df) <? Z.of_nat k)%Z = false) as ->.
    { apply Z.ltb_ge. apply Nat2Z.inj_le.
      rewrite <- Hlc. pose proof (sublist_length _ _ Hsub) as Hl.
      by rewrite length_seq in Hl. }
    assert ((Z.of_nat k <=? 0)%Z = false) as -> by (apply Z.leb_gt; lia).
    simpl orb. cbv iota.
    assert ((length pkgs_df <=? MAX_EXACT_N)%nat = true) as -> by (by apply Nat.leb_le).
    by rewrite Nat2Z.id, Hexact.
Qed.

Lemma exact_subset_match_first_fit_witness :
  ∃ pre comb post,
    combinations (seq 0 (length float_pool4)) 2 = pre ++ comb :: post
    ∧ Forall
        (λ c, Double.feasible Double.sequential_sum (map Double.GW float_pool4)
                (map Double.CBM float_pool4) 4 3 Double.TOL c = false) pre
    ∧ length comb = 2%nat ∧ StronglySorted lt comb
    ∧ (∀ i, i ∈ comb → (i < length float_pool4)%nat)
    ∧ Double.close2
        (Double.sum_at Double.sequential_sum (map Double.GW float_pool4) comb)
        4 Double.TOL = true
    ∧ Double.close2
        (Double.sum_at Double.sequential_sum (map Double.CBM float_pool4) comb)
        3 Double.TOL = true
    ∧ Double.exact_subset_match Double.sequential_sum float_pool4 2 4 3 Double.TOL
      = (true, index_labels float_pool4 comb,
         Some (Double.sum_at Double.sequential_sum (map Double.GW float_pool4) comb),
         Some (Double.sum_at Double.sequential_sum (map Double.CBM float_pool4) comb))
    ∧ ((0 < 2)%nat →
       Double.find_subset_match Double.sequential_sum Double.not_entered
         float_pool4 (Z.of_nat 2) 4 3 Double.TOL
       = Double.MatchResult true (index_labels float_pool4 comb)
           (Some (Double.sum_at Double.sequential_sum (map Double.GW float_pool4) comb))
           (Some (Double.sum_at Double.sequential_sum (map Double.CBM float_pool4) comb))
           "exact").
Proof.
  apply (exact_subset_match_first_fit Double.sequential_sum Double.not_entered
           float_pool4 2 4 3 Double.TOL).
  - vm_compute. lia.
  - exists [0; 2]%nat. split_and!.
    + repeat constructor; lia.
    + reflexivity.
    + intros i Hi.
      apply elem_of_cons in Hi as [->|Hi]; [vm_compute; lia|].
      apply elem_of_cons in Hi as [->|Hi]; [vm_compute; lia|].
      by apply elem_of_nil in Hi.
    + vm_compute. reflexivity.
Defined.

(** The claim as stated fails on [boundary_pool] with k = 2, target weight
    0.2 and target volume 0: as real numbers the weights of the two rows
    sum to the target plus exactly the tolerance, and the volumes to the
    target, so the pair is within the tolerance; the sum the code forms is
    0.30000000000000004, its distance from the target 0.10000000000000003
    exceeds the tolerance, and the matcher reports no match. *)
Lemma exact_subset_match_rounding_counterexample :
  (length boundary_pool ≤ MAX_EXACT_N)%nat
  ∧ (Qabs (real_sum_at (map Double.GW boundary_pool) [0; 1]%nat
           - Double.exact_value 0.2)
     <= Double.exact_value Double.TOL)%Q
  ∧ (Qabs (real_sum_at (map Double.CBM boundary_pool) [0; 1]%nat
           - Double.exact_value 0)
     <= Double.exact_value Double.TOL)%Q
  ∧ combinations (seq 0 (length boundary_pool)) 2 = [[0; 1]%nat]
  ∧ Double.exact_subset_match Double.sequential_sum boundary_pool 2 0.2 0
      Double.TOL
    = (false, [], None, None)
  ∧ Double.find_subset_match Double.sequential_sum Double.not_entered
      boundary_pool 2 0.2 0 Double.TOL
    = Double.MatchResult false [] None None "exact".
Proof.
  split_and!.
  - vm_compute. lia.
  - apply Qle_bool_iff. vm_compute. reflexivity.
  - apply Qle_bool_iff. vm_compute. reflexivity.
  - reflexivity.
  - vm_compute. reflexivity.
  - vm_compute. reflexivity.
Qed.

(** ** Invariants of the local search *)

Lemma xlt_Fin (a b : Q) : xlt (Fin a) (Fin b) = true ↔ a < b.
Proof. apply Qltb_lt. Qed.

Lemma xlt_trans (a b c : xerr) : xlt a b = true → xlt b c = true → xlt a c = true.
Proof.
  destruct a as [a|], b as [b|], c as [c|]; simpl; try done.
  rewrite !Qltb_lt. apply Qlt_trans.
Qed.

Lemma insert_by_Permutation (score : nat → Q) (i : nat) (l : list nat) :
  insert_by score i l ≡ₚ i :: l.
Proof.
  induction l as [|j l IH]; simpl; [done|].
  destruct (Qle_bool _ _); [done|].
  rewrite IH. apply perm_swap.
Qed.

Lemma argsort_Permutation (scores : list Q) :
  argsort scores ≡ₚ seq 0 (length scores).
Proof.
  unfold argsort. generalize (seq 0 (length scores)) as l.
  induction l as [|i l IH]; simpl; [done|].
  by rewrite insert_by_Permutation, IH.
Qed.

Lemma NoDup_list_insert (l : list nat) (i x : nat) :
  NoDup l → x ∉ l → NoDup (<[i:=x]> l).
Proof.
  revert i. induction l as [|y l IH]; intros i Hn Hx; simpl; [done|].
  apply NoDup_cons in Hn as [Hy Hn].
  apply not_elem_of_cons in Hx as [Hxy Hx].
  destruct i as [|i]; simpl; apply NoDup_cons.
  - done.
  - split; [|by apply IH].
    intros Hin. apply list_elem_of_lookup in Hin as [j Hj].
    destruct (decide (i = j)) as [->|Hne].
    + destruct (decide (j < length l)%nat).
      * rewrite list_lookup_insert_eq in Hj by done. congruence.
      * rewrite list_insert_ge in Hj by lia.
        apply Hy. apply list_elem_of_lookup. eauto.
    + rewrite list_lookup_insert_ne in Hj by done.
      apply Hy. apply list_elem_of_lookup. eauto.
Qed.

Lemma elem_of_list_insert_inv (l : list nat) (i x y : nat) :
  y ∈ <[i:=x]> l → y = x ∨ y ∈ l.
Proof.
  intros [j Hj]%list_elem_of_lookup.
  destruct (decide (i = j)) as [->|Hne].
  - destruct (decide (j < length l)%nat).
    + rewrite list_lookup_insert_eq in Hj by done. left. congruence.
    + rewrite list_insert_ge in Hj by lia. right. apply list_elem_of_lookup. eauto.
  - rewrite list_lookup_insert_ne in Hj by done. right. apply list_elem_of_lookup. eauto.
Qed.

Lemma valid_sel_insert (n k : nat) (sel : list nat) (i r : nat) :
  valid_sel n k sel → r ∉ sel → (r < n)%nat → valid_sel n k (<[i:=r]> sel).
Proof.
  intros (Hl & Hn & Hb) Hr Hrn. split_and!.
  - by rewrite length_insert.
  - by apply NoDup_list_insert.
  - intros j [->|Hj]%elem_of_list_insert_inv; auto.
Qed.

Lemma calculate_error_Fin values_gw values_cbm gw_tgt cbm_tgt (k : nat) (sel : list nat) :
  (0 < k)%nat → length sel = k →
  calculate_error values_gw values_cbm gw_tgt cbm_tgt sel
  = Fin (total_error values_gw values_cbm gw_tgt cbm_tgt sel).
Proof.
  intros Hk Hl. unfold calculate_error.
  destruct (Nat.eqb_spec (length sel) 0); [lia | done].
Qed.

Section RobustGreedyLocalFacts.
Variables (values_gw values_cbm : list Q) (gw_tgt cbm_tgt tol : Q).

Abbreviation n := (length values_gw).
Abbreviation calculate_error := (calculate_error values_gw values_cbm gw_tgt cbm_tgt).
Abbreviation total_error := (total_error values_gw values_cbm gw_tgt cbm_tgt).
Abbreviation within_tol := (within_tol values_gw values_cbm gw_tgt cbm_tgt tol).
Abbreviation scan_replacements :=
  (scan_replacements values_gw values_cbm gw_tgt cbm_tgt).
Abbreviation swap_loop := (swap_loop values_gw values_cbm gw_tgt cbm_tgt tol).
Abbreviation local_search := (local_search values_gw values_cbm gw_tgt cbm_tgt tol).
Abbreviation final_result := (final_result values_gw values_cbm gw_tgt cbm_tgt tol).

Lemma scan_replacements_inv (cands current : list nat) (i : nat)
    (start ble : xerr) (br : option nat) :
  (∀ c, c ∈ cands → (c < n)%nat) →
  scan_inv values_gw values_cbm gw_tgt cbm_tgt current i start (ble, br) →
  scan_inv values_gw values_cbm gw_tgt cbm_tgt current i start
    (scan_replacements cands current i ble br).
Proof.
  revert ble br. induction cands as [|c cands IH]; intros ble br Hc Hinv; simpl.
  - done.
  - assert (Hc' : ∀ c', c' ∈ cands → (c' < n)%nat)
      by (intros c' ?; apply Hc; by right).
    case_bool_decide as Hin; [by apply IH|].
    destruct (xlt _ ble) eqn:Hlt; [|by apply IH].
    assert (Hnew : scan_inv values_gw values_cbm gw_tgt cbm_tgt current i start
              (calculate_error (<[i:=c]> current), Some c)).
    { unfold scan_inv; simpl. split_and!; [done | apply Hc; by left | done |].
      unfold scan_inv in Hinv; simpl in Hinv. destruct br as [r|].
      - destruct Hinv as (_ & _ & _ & Hlt'). by eapply xlt_trans.
      - by subst ble. }
    destruct (xis0 _); [done | by apply IH].
Qed.

(** The pass over the positions, from a valid selection whose error is
    [best_error]. *)
Lemma swap_loop_spec (k : nat) (positions current : list nat)
    (best_error : xerr) (improved : bool) :
  valid_sel n k current →
  best_error = calculate_error current →
  match swap_loop positions current best_error improved with
  | Hit res =>
    ∃ sel, res = (true, sel, Some (sum_at values_gw sel), Some (sum_at values_cbm sel))
           ∧ valid_sel n k sel ∧ within_tol sel = true
           ∧ xlt (calculate_error sel) best_error = true
  | PassDone current' best_error' improved' =>
    valid_sel n k current' ∧ best_error' = calculate_error current'
    ∧ ((current' = current ∧ best_error' = best_error ∧ improved' = improved)
       ∨ (improved' = true ∧ xlt best_error' best_error = true
          ∧ within_tol current' = false))
  end.
Proof.
  revert current best_error improved.
  induction positions as [|i rest IH]; intros current be improved Hv Hbe; simpl.
  - split_and!; [done..|]. by left.
  - pose proof (scan_replacements_inv (seq 0 n) current i be be None) as Hscan.
    destruct (scan_replacements (seq 0 n) current i be None) as [ble br].
    unfold scan_inv in Hscan; simpl in Hscan.
    destruct br as [r|]; [|by apply IH].
    destruct (xlt ble be) eqn:Hlt; [|by apply IH].
    destruct Hscan as (Hr & Hrn & Hble & _);
      [intros c Hc%elem_of_seq; lia | done |].
    pose proof (valid_sel_insert _ _ _ i r Hv Hr Hrn) as Hv'.
    fold (within_tol (<[i:=r]> current)).
    destruct (within_tol (<[i:=r]> current)) eqn:Hw.
    + eexists. split_and!; [done..|]. by rewrite <- Hble.
    + specialize (IH (<[i:=r]> current) ble true Hv' Hble).
      destruct (swap_loop rest (<[i:=r]> current) ble true)
        as [res|current' be' improved'].
      * destruct IH as (sel & -> & Hvs & Hws & Hlts).
        exists sel. split_and!; [done..|]. by eapply xlt_trans.
      * destruct IH as (Hv'' & Hbe' & [(-> & -> & ->)|(-> & Hlt' & Hw')]).
        -- split_and!; [done..|]. right. done.
        -- split_and!; [done..|]. right. split_and!; [done| |done].
           by eapply xlt_trans.
Qed.

Abbreviation pass_chain := (pass_chain values_gw values_cbm gw_tgt cbm_tgt tol).

Lemma local_search_length (max_iter k : nat) (best : list nat) (be : xerr) :
  (length (local_search max_iter k best be).2 ≤ max_iter)%nat.
Proof.
  revert best be. induction max_iter as [|iters IH]; intros best be; simpl.
  - done.
  - destruct (swap_loop _ _ _ _) as [res|cur be' [|]]; simpl; [lia| |lia].
    specialize (IH cur be').
    destruct (local_search iters k cur be') as [res log]. simpl in *. lia.
Qed.

Lemma local_search_spec (max_iter k : nat) (best : list nat) (be : xerr) :
  (0 < k)%nat → valid_sel n k best → be = calculate_error best →
  within_tol best = false →
  ∃ sel,
    (local_search max_iter k best be).1
    = (within_tol sel, sel, Some (sum_at values_gw sel), Some (sum_at values_cbm sel))
    ∧ valid_sel n k sel
    ∧ last (best :: (local_search max_iter k best be).2) = Some sel
    ∧ pass_chain best (local_search max_iter k best be).2.
Proof.
  intros Hk. revert best be.
  induction max_iter as [|iters IH]; intros best be Hv Hbe Hw; simpl.
  - exists best. by split_and!.
  - pose proof (swap_loop_spec k (seq 0 k) best be false Hv Hbe) as Hpass.
    destruct (swap_loop (seq 0 k) best be false) as [res|cur be' improved].
    + destruct Hpass as (sel & -> & Hvs & Hws & Hlt). simpl.
      exists sel. rewrite Hws. split_and!; [done..| |done|done].
      rewrite Hbe in Hlt.
      rewrite (calculate_error_Fin _ _ _ _ k sel), (calculate_error_Fin _ _ _ _ k best) in Hlt
        by (done || apply Hv || apply Hvs).
      apply xlt_Fin in Hlt. by apply Qlt_le_weak.
    + destruct Hpass as (Hvc & Hbe' & Hcase). destruct improved.
      * destruct Hcase as [(_ & _ & [=])|(_ & Hlt & Hwc)].
        destruct (IH cur be' Hvc Hbe' Hwc) as (sel & Hres & Hvs & Hlast & Hchain).
        destruct (local_search iters k cur be') as [res log]. simpl in *.
        exists sel. split_and!; [done..| | |done].
        -- rewrite Hbe, Hbe' in Hlt.
           rewrite (calculate_error_Fin _ _ _ _ k cur), (calculate_error_Fin _ _ _ _ k best) in Hlt
             by (done || apply Hv || apply Hvc).
           apply xlt_Fin in Hlt. by apply Qlt_le_weak.
        -- intros _. rewrite Hbe, Hbe' in Hlt.
           rewrite (calculate_error_Fin _ _ _ _ k cur), (calculate_error_Fin _ _ _ _ k best) in Hlt
             by (done || apply Hv || apply Hvc).
           by apply xlt_Fin in Hlt.
      * destruct Hcase as [(-> & _ & _)|([=] & _)]. simpl.
        exists best. split_and!; try done.
        apply Qle_refl.
Qed.
End RobustGreedyLocalFacts.

Lemma pass_chain_lookup values_gw values_cbm gw_tgt cbm_tgt tol
    (prev : list nat) (log : list (list nat)) (j : nat) (a b : list nat) :
  pass_chain values_gw values_cbm gw_tgt cbm_tgt tol prev log →
  (prev :: log) !! j = Some a → (prev :: log) !! S j = Some b →
  total_error values_gw values_cbm gw_tgt cbm_tgt b
    <= total_error values_gw values_cbm gw_tgt cbm_tgt a
  ∧ within_tol values_gw values_cbm gw_tgt cbm_tgt tol a = false
  ∧ (is_Some ((prev :: log) !! S (S j)) →
     total_error values_gw values_cbm gw_tgt cbm_tgt b
     < total_error values_gw values_cbm gw_tgt cbm_tgt a).
Proof.
  revert prev j. induction log as [|s rest IH]; intros prev j Hc Ha Hb.
  - by destruct j.
  - destruct Hc as (Hw & Hle & Hlt & Hc). destruct j as [|j].
    + simpl in Ha, Hb. injection Ha as <-. injection Hb as <-.
      split_and!; [done..|]. intros [c Hc']. apply Hlt.
      simpl in Hc'. by destruct rest.
    + by apply (IH s j).
Qed.

Lemma length_combined_score values_gw values_cbm gw_tgt cbm_tgt :
  length values_gw = length values_cbm →
  length (combined_score values_gw values_cbm gw_tgt cbm_tgt) = length values_gw.
Proof.
  intros H. unfold combined_score.
  rewrite !length_zip_with, !length_map, !length_zip_with. lia.
Qed.

Lemma greedy_start_valid values_gw values_cbm gw_tgt cbm_tgt (k : nat) :
  length values_gw = length values_cbm → (k ≤ length values_gw)%nat →
  valid_sel (length values_gw) k
    (take k (argsort (combined_score values_gw values_cbm gw_tgt cbm_tgt))).
Proof.
  intros Hlen Hk.
  pose proof (argsort_Permutation (combined_score values_gw values_cbm gw_tgt cbm_tgt)) as Hp.
  rewrite length_combined_score in Hp by done.
  split_and!.
  - rewrite length_take, (Permutation_length Hp), length_seq. lia.
  - eapply sublist_NoDup; [|apply sublist_take].
    rewrite Hp. apply NoDup_seq.
  - intros i Hi. apply elem_of_take in Hi as (j & Hj & _).
    apply list_elem_of_lookup_2 in Hj. rewrite Hp in Hj.
    apply elem_of_seq in Hj. lia.
Qed.

(** The whole run, for arguments that pass the entry guard. *)
Lemma robust_greedy_local_run_spec values_gw values_cbm gw_tgt cbm_tgt tol
    (k : Z) (max_iter : nat) :
  length values_gw = length values_cbm →
  (Z.of_nat (length values_gw) <? k)%Z || (k <=? 0)%Z = false →
  ∃ s0 log sel,
    robust_greedy_local_run values_gw values_cbm gw_tgt cbm_tgt tol k max_iter
    = ((within_tol values_gw values_cbm gw_tgt cbm_tgt tol sel, sel,
        Some (sum_at values_gw sel), Some (sum_at values_cbm sel)), s0 :: log)
    ∧ valid_sel (length values_gw) (Z.to_nat k) sel
    ∧ last (s0 :: log) = Some sel
    ∧ pass_chain values_gw values_cbm gw_tgt cbm_tgt tol s0 log
    ∧ (length log ≤ max_iter)%nat.
Proof.
  intros Hlen Hguard. unfold robust_greedy_local_run. rewrite Hguard.
  apply orb_false_iff in Hguard as [Hn%Z.ltb_ge Hk%Z.leb_gt].
  set (s0 := take (Z.to_nat k) _).
  assert (Hv : valid_sel (length values_gw) (Z.to_nat k) s0)
    by (apply greedy_start_valid; [done | lia]).
  fold (within_tol values_gw values_cbm gw_tgt cbm_tgt tol s0).
  destruct (within_tol values_gw values_cbm gw_tgt cbm_tgt tol s0) eqn:Hw.
  - exists s0, [], s0. rewrite Hw. split_and!; [done..|simpl; lia].
  - pose proof (local_search_length values_gw values_cbm gw_tgt cbm_tgt tol
                  max_iter (Z.to_nat k) s0
                  (calculate_error values_gw values_cbm gw_tgt cbm_tgt s0)) as Hl.
    destruct (local_search_spec values_gw values_cbm gw_tgt cbm_tgt tol
                max_iter (Z.to_nat k) s0
                (calculate_error values_gw values_cbm gw_tgt cbm_tgt s0))
      as (sel & Hres & Hvs & Hlast & Hchain); [lia | done..|].
    destruct (local_search _ _ _ _ _ _ _ _ _) as [res log]. simpl in *.
    exists s0, log, sel. subst res. by split_and!.
Qed.

(** ** Monotone improvement of the approximate matcher *)

(** C2.  In [robust_greedy_local], with [pass_log] listing the greedy start
    followed by the selection held after each executed pass: the total error
    |weight sum - target| + |volume sum - target| after a pass is at most the
    error before it; a pass is only ever started from a selection that is
    not within the tolerance (the search stops as soon as both sums are
    within it); a pass is followed by another one only if it lowered the
    error strictly (the search stops after a pass without an improving
    swap); the value returned is the last logged selection, with found =
    whether it is within the tolerance; and the step taken at a single
    position either keeps the selection or replaces it by one of strictly
    smaller error, returning at once when that one is within the
    tolerance. *)
Theorem robust_greedy_local_monotone
    (values_gw values_cbm : list Q) (gw_tgt cbm_tgt tol : Q)
    (k : Z) (max_iter : nat) :
  length values_gw = length values_cbm →
  (∀ (j : nat) (a b : list nat),
      pass_log values_gw values_cbm gw_tgt cbm_tgt tol k max_iter !! j = Some a →
      pass_log values_gw values_cbm gw_tgt cbm_tgt tol k max_iter !! S j = Some b →
      total_error values_gw values_cbm gw_tgt cbm_tgt b
        <= total_error values_gw values_cbm gw_tgt cbm_tgt a
      ∧ within_tol values_gw values_cbm gw_tgt cbm_tgt tol a = false
      ∧ (is_Some (pass_log values_gw values_cbm gw_tgt cbm_tgt tol k max_iter
                    !! S (S j)) →
         total_error values_gw values_cbm gw_tgt cbm_tgt b
         < total_error values_gw values_cbm gw_tgt cbm_tgt a))
  ∧ (∀ sel : list nat,
      last (pass_log values_gw values_cbm gw_tgt cbm_tgt tol k max_iter) = Some sel →
      robust_greedy_local values_gw values_cbm gw_tgt cbm_tgt tol k max_iter
      = (within_tol values_gw values_cbm gw_tgt cbm_tgt tol sel, sel,
         Some (sum_at values_gw sel), Some (sum_at values_cbm sel)))
  ∧ (∀ (i : nat) (current : list nat),
      (0 < k)%Z → valid_sel (length values_gw) (Z.to_nat k) current →
      match swap_loop values_gw values_cbm gw_tgt cbm_tgt tol [i] current
              (calculate_error values_gw values_cbm gw_tgt cbm_tgt current) false
      with
      | Hit res =>
        res = (true, res.1.1.2, Some (sum_at values_gw res.1.1.2),
               Some (sum_at values_cbm res.1.1.2))
        ∧ within_tol values_gw values_cbm gw_tgt cbm_tgt tol res.1.1.2 = true
        ∧ total_error values_gw values_cbm gw_tgt cbm_tgt res.1.1.2
          < total_error values_gw values_cbm gw_tgt cbm_tgt current
      | PassDone current' _ improved =>
        if improved then
          within_tol values_gw values_cbm gw_tgt cbm_tgt tol current' = false
          ∧ total_error values_gw values_cbm gw_tgt cbm_tgt current'
            < total_error values_gw values_cbm gw_tgt cbm_tgt current
        else current' = current
      end).
Proof.
  intros Hlen. unfold pass_log, robust_greedy_local.
  assert (Hstep : ∀ (i : nat) (current : list nat),
      (0 < k)%Z → valid_sel (length values_gw) (Z.to_nat k) current →
      match swap_loop values_gw values_cbm gw_tgt cbm_tgt tol [i] current
              (calculate_error values_gw values_cbm gw_tgt cbm_tgt current) false
      with
      | Hit res =>
        res = (true, res.1.1.2, Some (sum_at values_gw res.1.1.2),
               Some (sum_at values_cbm res.1.1.2))
        ∧ within_tol values_gw values_cbm gw_tgt cbm_tgt tol res.1.1.2 = true
        ∧ total_error values_gw values_cbm gw_tgt cbm_tgt res.1.1.2
          < total_error values_gw values_cbm gw_tgt cbm_tgt current
      | PassDone current' _ improved =>
        if improved then
          within_tol values_gw values_cbm gw_tgt cbm_tgt tol current' = false
          ∧ total_error values_gw values_cbm gw_tgt cbm_tgt current'
            < total_error values_gw values_cbm gw_tgt cbm_tgt current
        else current' = current
      end).
  { intros i current Hk Hv'.
    pose proof (swap_loop_spec values_gw values_cbm gw_tgt cbm_tgt tol
                  (Z.to_nat k) [i] current _ false Hv' eq_refl) as Hs.
    destruct (swap_loop _ _ _ _ _ _ _ _ _) as [res|current' be' improved].
    - destruct Hs as (sel' & -> & Hvs & Hw & Hlt). simpl.
      split_and!; [done..|].
      rewrite (calculate_error_Fin _ _ _ _ (Z.to_nat k) sel'),
        (calculate_error_Fin _ _ _ _ (Z.to_nat k) current) in Hlt
        by (lia || apply Hv' || apply Hvs).
      by apply xlt_Fin in Hlt.
    - destruct Hs as (Hvc & Hbe' & [(-> & _ & ->)|(-> & Hlt & Hw)]); [done|].
      split; [done|]. rewrite Hbe' in Hlt.
      rewrite (calculate_error_Fin _ _ _ _ (Z.to_nat k) current'),
        (calculate_error_Fin _ _ _ _ (Z.to_nat k) current) in Hlt
        by (lia || apply Hv' || apply Hvc).
      by apply xlt_Fin in Hlt. }
  destruct ((Z.of_nat (length values_gw) <? k)%Z || (k <=? 0)%Z) eqn:Hguard.
  - unfold robust_greedy_local_run. rewrite Hguard. simpl.
    split_and!; [by intros [|j] | done | done].
  - destruct (robust_greedy_local_run_spec values_gw values_cbm gw_tgt cbm_tgt
                tol k max_iter Hlen Hguard)
      as (s0 & log & sel & -> & Hv & Hlast & Hchain & _).
    simpl. split_and!; [| |done].
    + intros j a b. by apply pass_chain_lookup.
    + intros sel' Hsel'. rewrite Hlast in Hsel'. by injection Hsel' as <-.
Qed.

Lemma robust_greedy_local_monotone_witness :
  length six_gw = length six_cbm
  ∧ total_error six_gw six_cbm 14 13.95 [5; 2; 3]%nat
    <= total_error six_gw six_cbm 14 13.95 [2; 1; 3]%nat
  ∧ within_tol six_gw six_cbm 14 13.95 TOL [2; 1; 3]%nat = false.
Proof.
  split; [reflexivity|].
  pose proof (robust_greedy_local_monotone six_gw six_cbm 14 13.95 TOL 3 MAX_ITER
                eq_refl) as (H & _ & _).
  destruct (H 0%nat [2; 1; 3]%nat [5; 2; 3]%nat) as (H1 & H2 & _);
    [vm_compute; reflexivity..|].
  by split.
Defined.

(** ** Termination within the pass budget *)

Lemma pass_log_length values_gw values_cbm gw_tgt cbm_tgt tol (k : Z) (max_iter : nat) :
  (length (pass_log values_gw values_cbm gw_tgt cbm_tgt tol k max_iter)
   ≤ S max_iter)%nat.
Proof.
  unfold pass_log, robust_greedy_local_run.
  destruct (_ || _); [simpl; lia|].
  destruct (_ && _); [simpl; lia|].
  pose proof (local_search_length values_gw values_cbm gw_tgt cbm_tgt tol
                max_iter (Z.to_nat k)
                (take (Z.to_nat k)
                   (argsort (combined_score values_gw values_cbm gw_tgt cbm_tgt)))
                (calculate_error values_gw values_cbm gw_tgt cbm_tgt
                   (take (Z.to_nat k)
                      (argsort (combined_score values_gw values_cbm gw_tgt cbm_tgt)))))
    as Hl.
  destruct (local_search _ _ _ _ _ _ _ _ _) as [res log]. simpl in *. lia.
Qed.

Lemma find_subset_match_robust (pkgs_df : list pkg_row) (k : Z) (gw_tgt cbm_tgt tol : Q) :
  (Z.of_nat (length pkgs_df) <? k)%Z || (k <=? 0)%Z = false →
  (length pkgs_df <=? MAX_EXACT_N)%nat = false →
  ∃ sel,
    find_subset_match pkgs_df k gw_tgt cbm_tgt tol
    = MatchResult
        (within_tol (map GW pkgs_df) (map CBM pkgs_df) gw_tgt cbm_tgt tol sel)
        (labels_at pkgs_df sel)
        (Some (sum_at (map GW pkgs_df) sel)) (Some (sum_at (map CBM pkgs_df) sel))
        "robust-greedy-local"
    ∧ valid_sel (length pkgs_df) (Z.to_nat k) sel.
Proof.
  intros Hguard Hbig. unfold find_subset_match. rewrite Hguard, Hbig.
  destruct (robust_greedy_local_run_spec (map GW pkgs_df) (map CBM pkgs_df)
              gw_tgt cbm_tgt tol k MAX_ITER)
    as (s0 & log & sel & Hrun & Hv & _); [by rewrite !length_map | by rewrite length_map |].
  unfold robust_greedy_local. rewrite Hrun. simpl.
  exists sel. rewrite length_map in Hv. done.
Qed.

(** C3.  Every loop of [robust_greedy_local] is a [for] loop over a finite
    range, so the function returns on every input; it executes at most
    [max_iter] local-search passes, 300 as called by [find_subset_match].
    In particular for a pool of 20 rows and [k = 3] [find_subset_match]
    takes the approximate path and reports a verdict (found = whether the
    three picked rows are within the tolerance) together with their sums,
    after at most 300 passes. *)
Theorem robust_greedy_local_terminates
    (values_gw values_cbm : list Q) (pkgs_df : list pkg_row)
    (gw_tgt cbm_tgt tol : Q) (k : Z) (max_iter : nat) :
  (passes_run values_gw values_cbm gw_tgt cbm_tgt tol k max_iter ≤ max_iter)%nat
  ∧ (passes_run values_gw values_cbm gw_tgt cbm_tgt tol k MAX_ITER ≤ 300)%nat
  ∧ (∃ verdict sel gw cbm,
        robust_greedy_local values_gw values_cbm gw_tgt cbm_tgt tol k max_iter
        = (verdict, sel, gw, cbm))
  ∧ (length pkgs_df = 20%nat →
     ∃ sel,
       find_subset_match pkgs_df 3 gw_tgt cbm_tgt tol
       = MatchResult
           (within_tol (map GW pkgs_df) (map CBM pkgs_df) gw_tgt cbm_tgt tol sel)
           (labels_at pkgs_df sel)
           (Some (sum_at (map GW pkgs_df) sel)) (Some (sum_at (map CBM pkgs_df) sel))
           "robust-greedy-local"
       ∧ valid_sel 20 3 sel
       ∧ (passes_run (map GW pkgs_df) (map CBM pkgs_df) gw_tgt cbm_tgt tol 3 MAX_ITER
          ≤ 300)%nat).
Proof.
  assert (Hb : ∀ vg vc m, (passes_run vg vc gw_tgt cbm_tgt tol k m ≤ m)%nat).
  { intros vg vc m. unfold passes_run.
    pose proof (pass_log_length vg vc gw_tgt cbm_tgt tol k m). lia. }
  split_and!.
  - apply Hb.
  - apply (Hb _ _ MAX_ITER).
  - destruct (robust_greedy_local _ _ _ _ _ _ _) as [[[verdict sel] gw] cbm]. eauto.
  - intros Hlen.
    destruct (find_subset_match_robust pkgs_df 3 gw_tgt cbm_tgt tol)
      as (sel & Hres & Hv); [by rewrite Hlen..|].
    exists sel. rewrite Hlen in Hv. split_and!; [done..|].
    unfold passes_run.
    pose proof (pass_log_length (map GW pkgs_df) (map CBM pkgs_df)
                  gw_tgt cbm_tgt tol 3 MAX_ITER).
    unfold MAX_ITER in *. lia.
Qed.

Lemma robust_greedy_local_terminates_witness :
  ∃ sel,
    find_subset_match pool20 3 30 60 TOL
    = MatchResult
        (within_tol (map GW pool20) (map CBM pool20) 30 60 TOL sel)
        (labels_at pool20 sel)
        (Some (sum_at (map GW pool20) sel)) (Some (sum_at (map CBM pool20) sel))
        "robust-greedy-local"
    ∧ valid_sel 20 3 sel
    ∧ (passes_run (map GW pool20) (map CBM pool20) 30 60 TOL 3 MAX_ITER ≤ 300)%nat.
Proof.
  apply (robust_greedy_local_terminates [] [] pool20 30 60 TOL 3 0).
  reflexivity.
Defined.

(** ** A reported match is a set of [k] rows with the reported sums *)

Lemma labels_at_NoDup (pkgs_df : list pkg_row) (sel : list nat) :
  NoDup (map ix pkgs_df) → NoDup sel →
  (∀ i, i ∈ sel → (i < length pkgs_df)%nat) →
  NoDup (labels_at pkgs_df sel).
Proof.
  intros Hix Hsel Hb. unfold labels_at.
  apply (NoDup_fmap_2_strong (λ i, nth i (map ix pkgs_df) 0%Z)); [|done].
  intros i j Hi Hj Heq.
  apply NoDup_ListNoDup in Hix.
  eapply (proj1 (List.NoDup_nth (map ix pkgs_df) 0%Z) Hix);
    rewrite ?length_map; auto.
Qed.

Lemma exact_subset_pos_valid (pkgs_df : list pkg_row) (k : nat)
    (gw_tgt cbm_tgt tol : Q) (comb : list nat) :
  exact_subset_pos pkgs_df k gw_tgt cbm_tgt tol = Some comb →
  valid_sel (length pkgs_df) k comb.
Proof.
  unfold exact_subset_pos. rewrite length_map.
  intros (pre & post & Heq & _ & _)%find_first.
  assert (Hin : comb ∈ combinations (seq 0 (length pkgs_df)) k).
  { rewrite Heq. apply elem_of_app. right. apply list_elem_of_here. }
  destruct (combinations_sound _ _ _ Hin) as [Hsub Hlen].
  split_and!; [done| |].
  - eapply sublist_NoDup; [apply NoDup_seq | done].
  - intros i Hi. pose proof (elem_of_sublist _ _ _ Hi Hsub) as Hi'.
    apply elem_of_seq in Hi'. lia.
Qed.

(** C10.  Whenever [robust_greedy_local] or [find_subset_match] reports
    found = True, the picked selection consists of exactly [k] pairwise
    distinct positions of the pool (hence of [k] rows, with pairwise
    distinct labels when the frame index has no repeated label), and the
    reported weight and volume sums are the sums over exactly those
    positions. *)
Theorem found_selection_is_k_subset
    (values_gw values_cbm : list Q) (pkgs_df : list pkg_row)
    (gw_tgt cbm_tgt tol : Q) (k : Z) (max_iter : nat) :
  (length values_gw = length values_cbm →
   ∀ (sel : list nat) (gw cbm : option Q),
     robust_greedy_local values_gw values_cbm gw_tgt cbm_tgt tol k max_iter
     = (true, sel, gw, cbm) →
     (0 < k)%Z ∧ valid_sel (length values_gw) (Z.to_nat k) sel
     ∧ gw = Some (sum_at values_gw sel) ∧ cbm = Some (sum_at values_cbm sel))
  ∧ (found (find_subset_match pkgs_df k gw_tgt cbm_tgt tol) = true →
     ∃ sel : list nat,
       (0 < k)%Z ∧ valid_sel (length pkgs_df) (Z.to_nat k) sel
       ∧ picked (find_subset_match pkgs_df k gw_tgt cbm_tgt tol)
         = labels_at pkgs_df sel
       ∧ length (picked (find_subset_match pkgs_df k gw_tgt cbm_tgt tol))
         = Z.to_nat k
       ∧ (NoDup (map ix pkgs_df) →
          NoDup (picked (find_subset_match pkgs_df k gw_tgt cbm_tgt tol)))
       ∧ sum_gw (find_subset_match pkgs_df k gw_tgt cbm_tgt tol)
         = Some (sum_at (map GW pkgs_df) sel)
       ∧ sum_cbm (find_subset_match pkgs_df k gw_tgt cbm_tgt tol)
         = Some (sum_at (map CBM pkgs_df) sel)).
Proof.
  split.
  - intros Hlen sel gw cbm. unfold robust_greedy_local.
    destruct ((Z.of_nat (length values_gw) <? k)%Z || (k <=? 0)%Z) eqn:Hguard.
    + unfold robust_greedy_local_run. by rewrite Hguard.
    + destruct (robust_greedy_local_run_spec values_gw values_cbm gw_tgt cbm_tgt
                  tol k max_iter Hlen Hguard)
        as (s0 & log & sel' & -> & Hv & _).
      simpl. intros [= _ <- <- <-].
      apply orb_false_iff in Hguard as [_ Hk%Z.leb_gt]. done.
  - destruct ((Z.of_nat (length pkgs_df) <? k)%Z || (k <=? 0)%Z) eqn:Hguard.
    { unfold find_subset_match. by rewrite Hguard. }
    assert (Hk : (0 < k)%Z)
      by (apply orb_false_iff in Hguard as [_ Hk%Z.leb_gt]; done).
    assert (Hfin : ∀ (b : bool) (sel : list nat) s,
      find_subset_match pkgs_df k gw_tgt cbm_tgt tol
      = MatchResult b (labels_at pkgs_df sel)
          (Some (sum_at (map GW pkgs_df) sel)) (Some (sum_at (map CBM pkgs_df) sel)) s →
      valid_sel (length pkgs_df) (Z.to_nat k) sel →
      ∃ sel : list nat,
       (0 < k)%Z ∧ valid_sel (length pkgs_df) (Z.to_nat k) sel
       ∧ picked (find_subset_match pkgs_df k gw_tgt cbm_tgt tol)
         = labels_at pkgs_df sel
       ∧ length (picked (find_subset_match pkgs_df k gw_tgt cbm_tgt tol))
         = Z.to_nat k
       ∧ (NoDup (map ix pkgs_df) →
          NoDup (picked (find_subset_match pkgs_df k gw_tgt cbm_tgt tol)))
       ∧ sum_gw (find_subset_match pkgs_df k gw_tgt cbm_tgt tol)
         = Some (sum_at (map GW pkgs_df) sel)
       ∧ sum_cbm (find_subset_match pkgs_df k gw_tgt cbm_tgt tol)
         = Some (sum_at (map CBM pkgs_df) sel)).
    { intros b sel s -> Hv. exists sel. simpl. split_and!; try done.
      - unfold labels_at. rewrite length_map. apply Hv.
      - intros Hix. apply labels_at_NoDup; [done | apply Hv | apply Hv]. }
    destruct (length pkgs_df <=? MAX_EXACT_N)%nat eqn:Hsmall.
    + destruct (exact_subset_pos pkgs_df (Z.to_nat k) gw_tgt cbm_tgt tol)
        as [comb|] eqn:Hpos.
      * intros _. eapply Hfin; [|by eapply exact_subset_pos_valid].
        unfold find_subset_match, exact_subset_match.
        rewrite Hguard, Hsmall, Hpos. reflexivity.
      * unfold find_subset_match, exact_subset_match.
        by rewrite Hguard, Hsmall, Hpos.
    + destruct (find_subset_match_robust pkgs_df k gw_tgt cbm_tgt tol Hguard Hsmall)
        as (sel & Hres & Hv).
      intros _. by eapply Hfin.
Qed.

Lemma found_selection_is_k_subset_witness :
  (length six_gw = length six_cbm
   ∧ valid_sel (length six_gw) (Z.to_nat 2) [5; 4]%nat
   ∧ Some (17 : Q) = Some (sum_at six_gw [5; 4]%nat))
  ∧ ∃ sel : list nat,
      (0 < 3)%Z ∧ valid_sel (length pool20) (Z.to_nat 3) sel
      ∧ picked (find_subset_match pool20 3 30 60 TOL) = labels_at pool20 sel
      ∧ length (picked (find_subset_match pool20 3 30 60 TOL)) = Z.to_nat 3
      ∧ (NoDup (map ix pool20) → NoDup (picked (find_subset_match pool20 3 30 60 TOL)))
      ∧ sum_gw (find_subset_match pool20 3 30 60 TOL)
        = Some (sum_at (map GW pool20) sel)
      ∧ sum_cbm (find_subset_match pool20 3 30 60 TOL)
        = Some (sum_at (map CBM pool20) sel).
Proof.
  split.
  - split; [reflexivity|].
    destruct (proj1 (found_selection_is_k_subset six_gw six_cbm [] 17 8 TOL 2 MAX_ITER)
                eq_refl [5; 4]%nat (Some 17) (Some 8)) as (_ & Hv & Hg & _);
      [vm_compute; reflexivity | by split].
  - apply (found_selection_is_k_subset [] [] pool20 30 60 TOL 3 0).
    vm_compute. reflexivity.
Defined.

(** ** Expansion of combined codes *)

(** C4.  [expand_combined_codes("X-0087,90")] is {"X-0087", "X-0090"}: the
    bare token replaces the numeric block, padded to four places.  On
    "X-0325-1,0325-2" the pattern for the base token lets its first group
    run up to the last hyphen, so the prefix is "X-0325-" with numeric
    block "1" and no sub-suffix, and the token "0325-2" becomes
    "X-0325-0325-2": the result holds "X-0325-1" but not "X-0325-2". *)
Theorem expand_combined_codes_examples :
  expand_combined_codes "X-0087,90" = Some {[ "X-0087"; "X-0090" ]}
  ∧ parse_base "X-0325-1" = ("X-0325-", Some "1", "")
  ∧ expand_combined_codes "X-0325-1,0325-2"
    = Some {[ "X-0325-1"; "X-0325-0325-2" ]}
  ∧ ("X-0325-1" ∈ ({[ "X-0325-1"; "X-0325-0325-2" ]} : gset string))
  ∧ ("X-0325-2" ∉ ({[ "X-0325-1"; "X-0325-0325-2" ]} : gset string))
  ∧ expand_combined_codes "HVDC-ADOPT-HE-0325-1, 0325-2"
    = Some {[ "HVDC-ADOPT-HE-0325-1"; "HVDC-ADOPT-HE-0325-0325-2" ]}.
Proof.
  repeat apply conj.
  - vm_compute. reflexivity.
  - vm_compute. reflexivity.
  - vm_compute. reflexivity.
  - apply (bool_decide_unpack _). vm_compute. reflexivity.
  - apply (bool_decide_unpack _). vm_compute. reflexivity.
  - vm_compute. reflexivity.
Qed.

Lemma str_all_remove_char (p : Ascii.ascii → bool) (c : Ascii.ascii) (s : string) :
  str_all p s = true → str_all p (remove_char c s) = true.
Proof.
  induction s as [|a s IH]; simpl; [done|].
  intros [Ha Hs]%andb_true_iff. destruct (Ascii.eqb a c); simpl; [auto|].
  by rewrite Ha, IH.
Qed.

Lemma str_all_split (p : Ascii.ascii → bool) (c : Ascii.ascii) (s : string) :
  str_all p s = true → Forall (λ t, str_all p t = true) (split c s).
Proof.
  induction s as [|a s IH]; simpl.
  - intros _. by repeat constructor.
  - intros [Ha Hs]%andb_true_iff. specialize (IH Hs).
    destruct (Ascii.eqb a c).
    + by constructor.
    + destruct (split c s) as [|h t].
      * repeat constructor. simpl. by rewrite Ha.
      * apply Forall_cons in IH as [Hh Ht]. constructor; [|done].
        simpl. by rewrite Ha, Hh.
Qed.

Lemma str_all_split1 (p : Ascii.ascii → bool) (c : Ascii.ascii) (s x y : string) :
  split1 c s = Some (x, y) → str_all p s = true →
  str_all p x = true ∧ str_all p y = true.
Proof.
  revert x. induction s as [|a s IH]; intros x; simpl; [done|].
  intros Hsp [Ha Hs]%andb_true_iff. destruct (Ascii.eqb a c).
  - by injection Hsp as <- <-.
  - destruct (split1 c s) as [[x' y']|]; simpl in Hsp; [|done].
    injection Hsp as <- <-. destruct (IH x' eq_refl Hs) as [Hx Hy].
    split; [|done]. simpl. by rewrite Ha, Hx.
Qed.

Lemma contains_split1 (c : Ascii.ascii) (s : string) :
  contains c s = true → is_Some (split1 c s).
Proof.
  induction s as [|a s IH]; simpl; [done|].
  destruct (Ascii.eqb a c); simpl; [by eexists|].
  intros [[x y] ->]%IH. by eexists.
Qed.

Lemma not_contains_split1 (c : Ascii.ascii) (s : string) :
  contains c s = false → split1 c s = None.
Proof.
  induction s as [|a s IH]; simpl; [done|].
  destruct (Ascii.eqb a c); simpl; [done|].
  by intros ->%IH.
Qed.

Lemma int_digits_is_Some (acc : N) (s : string) :
  str_all is_decimal s = true → is_Some (int_digits acc s).
Proof.
  revert acc. induction s as [|a s IH]; intros acc; simpl; [by eexists|].
  intros [-> Hs]%andb_true_iff. by apply IH.
Qed.

Lemma isdigit_plain_decimal (s : string) :
  str_all is_digit_char s = true → plain_digits s = true →
  str_all is_decimal s = true.
Proof.
  unfold plain_digits. induction s as [|a s IH]; simpl; [done|].
  intros [Ha Hs]%andb_true_iff [Hp Hps]%andb_true_iff.
  rewrite IH by done. rewrite Ha in Hp. simpl in Hp. by rewrite Hp.
Qed.

Lemma pad4_is_Some (t : string) :
  isdigit t = true → plain_digits t = true →
  (String.length t ≤ INT_MAX_STR_DIGITS)%nat → is_Some (pad4 t).
Proof.
  unfold isdigit, pad4, int. intros [Hne Hd]%andb_true_iff Hp Hlen.
  apply negb_true_iff in Hne. rewrite Hne.
  assert ((INT_MAX_STR_DIGITS <? String.length t)%nat = false) as ->
    by (apply Nat.ltb_ge; lia).
  destruct (int_digits_is_Some 0 t (isdigit_plain_decimal t Hd Hp)) as [v ->].
  by eexists.
Qed.

(** With no numeric block in the base token, a later token adds its
    degraded entry. *)
Lemma short_number_head (t h r : string) :
  short_number t = true → split1 "-"%char t = Some (h, r) → isdigit h = true →
  (String.length h ≤ INT_MAX_STR_DIGITS)%nat.
Proof.
  unfold short_number, token_head. intros Hs Hsp Hd. rewrite Hsp, Hd in Hs.
  by apply Nat.leb_le.
Qed.

Lemma short_number_whole (t : string) :
  short_number t = true → contains "-"%char t = false → isdigit t = true →
  (String.length t ≤ INT_MAX_STR_DIGITS)%nat.
Proof.
  unfold short_number, token_head. intros Hs Hc%not_contains_split1 Hd.
  rewrite Hc, Hd in Hs. by apply Nat.leb_le.
Qed.

Lemma expand_token_degraded (prefix sub : string) (acc : gset string) (t : string) :
  plain_digits t = true → short_number t = true →
  expand_token prefix None sub acc t = Some ({[degraded_entry prefix t]} ∪ acc).
Proof.
  intros Hp Hs. unfold expand_token, degraded_entry.
  destruct (contains "-"%char t) eqn:Hc.
  - destruct (contains_split1 _ _ Hc) as [[h r] Hsp]. rewrite Hsp. simpl.
    destruct (isdigit h) eqn:Hd; [|done].
    destruct (str_all_split1 _ _ _ _ _ Hsp Hp) as [Hph _].
    destruct (pad4_is_Some h Hd Hph (short_number_head t h r Hs Hsp Hd)) as [p ->].
    done.
  - rewrite (not_contains_split1 _ _ Hc).
    assert (bool_decide (is_Some (@None string)) = false) as ->
      by (apply bool_decide_eq_false; by intros [? ?]).
    by rewrite andb_false_r.
Qed.

Lemma expand_tokens_degraded (prefix sub : string) (acc : gset string)
    (tokens : list string) :
  Forall (λ t, plain_digits t = true ∧ short_number t = true) tokens →
  expand_tokens prefix None sub acc tokens
  = Some (acc ∪ list_to_set (degraded_entry prefix <$> tokens)).
Proof.
  intros H. revert acc. induction H as [|t rest [Ht Hs] _ IH]; intros acc; simpl.
  - f_equal. apply set_eq. intros x.
    rewrite elem_of_union, elem_of_empty. tauto.
  - rewrite (expand_token_degraded _ _ _ _ Ht Hs). simpl. rewrite IH.
    f_equal. apply set_eq. intros x. rewrite !elem_of_union. tauto.
Qed.

(** No later token raises when the text has no superscript digit and no
    run of digits too long for [int]. *)
Lemma expand_token_is_Some (prefix : string) (num : option string) (sub : string)
    (acc : gset string) (t : string) :
  plain_digits t = true → short_number t = true →
  is_Some (expand_token prefix num sub acc t).
Proof.
  intros Hp Hs. unfold expand_token.
  destruct (contains "-"%char t) eqn:Hc.
  - destruct (contains_split1 _ _ Hc) as [[h r] Hsp]. rewrite Hsp. simpl.
    destruct (isdigit h) eqn:Hd; [|by eexists].
    destruct (str_all_split1 _ _ _ _ _ Hsp Hp) as [Hph _].
    destruct (pad4_is_Some h Hd Hph (short_number_head t h r Hs Hsp Hd)) as [p ->].
    by eexists.
  - destruct (isdigit t) eqn:Hd; simpl; [|by eexists].
    case_bool_decide; [|by eexists].
    destruct (pad4_is_Some t Hd Hp (short_number_whole t Hs Hc Hd)) as [p ->].
    by eexists.
Qed.

Lemma expand_tokens_is_Some (prefix : string) (num : option string) (sub : string)
    (acc : gset string) (tokens : list string) :
  Forall (λ t, plain_digits t = true ∧ short_number t = true) tokens →
  is_Some (expand_tokens prefix num sub acc tokens).
Proof.
  intros H. revert acc. induction H as [|t rest [Ht Hs] _ IH]; intros acc; simpl.
  - by eexists.
  - destruct (expand_token_is_Some prefix num sub acc t Ht Hs) as [acc' ->].
    simpl. apply IH.
Qed.

Lemma later_tokens_plain (code : string) :
  plain_digits code = true → short_numbers code = true →
  Forall (λ t, plain_digits t = true ∧ short_number t = true) (later_tokens code).
Proof.
  intros Hp Hs.
  assert (H1 : Forall (λ t, plain_digits t = true) (later_tokens code)).
  { unfold later_tokens.
    pose proof (str_all_split _ ","%char _
                  (str_all_remove_char _ " "%char _ Hp)) as H.
    destruct (split _ _); [done|]. by apply Forall_cons in H as [_ H]. }
  unfold short_numbers in Hs. rewrite forallb_forall in Hs.
  apply Forall_forall. intros t Ht. split.
  - by apply (proj1 (Forall_forall _ _) H1).
  - by apply Hs, list_elem_of_In.
Qed.

(** C9, as amended.  On a text in which every character accepted by
    [str.isdigit] is a decimal digit and in which no later token has an
    all-digit head of more than 4300 digits, [expand_combined_codes] raises
    no exception.  Without a comma it returns the text alone.  With a comma
    and a base token in which no numeric block is found it returns the base
    token together with one entry per later token: the token itself, or, for
    a token with a hyphen and an all-digit head, the prefix of the base
    token followed by the head padded to four places, a hyphen and the rest
    of the token. *)
Theorem expand_combined_codes_degraded (code : string) :
  plain_digits code = true → short_numbers code = true →
  is_Some (expand_combined_codes code)
  ∧ (contains ","%char code = false → expand_combined_codes code = Some {[code]})
  ∧ (contains ","%char code = true →
     (parse_base (base_token code)).1.2 = None →
     expand_combined_codes code
     = Some ({[base_token code]}
             ∪ list_to_set (degraded_entry (parse_base (base_token code)).1.1
                              <$> later_tokens code))).
Proof.
  intros Hp Hs. pose proof (later_tokens_plain code Hp Hs) as Htok.
  unfold expand_combined_codes. fold (base_token code) (later_tokens code).
  destruct (contains ","%char code); simpl.
  - destruct (parse_base (base_token code)) as [[prefix num] sub]. simpl.
    split_and!; [by apply expand_tokens_is_Some | done |].
    intros _ ->. by apply expand_tokens_degraded.
  - split_and!; [by eexists | done | done].
Qed.

Lemma expand_combined_codes_degraded_witness :
  is_Some (expand_combined_codes "ABC,90,0325-2")
  ∧ expand_combined_codes "ABC,90,0325-2"
    = Some ({[base_token "ABC,90,0325-2"]}
            ∪ list_to_set (degraded_entry (parse_base (base_token "ABC,90,0325-2")).1.1
                             <$> later_tokens "ABC,90,0325-2")).
Proof.
  destruct (expand_combined_codes_degraded "ABC,90,0325-2" eq_refl eq_refl)
    as (H1 & _ & H3).
  split; [exact H1|]. apply H3; reflexivity.
Defined.

(** The claim as stated fails on "ABC,90": no numeric block is found in
    the base token "ABC", and the result holds "90" besides "ABC".  It also
    fails where [isdigit] accepts what [int] refuses: on a token that starts
    with the superscript U+00B2, and on a token of 4301 digits. *)
Lemma expand_combined_codes_base_only_counterexample :
  (parse_base (base_token "ABC,90")).1.2 = None
  ∧ expand_combined_codes "ABC,90" = Some {[ "ABC"; "90" ]}
  ∧ expand_combined_codes "ABC,90" ≠ Some {[ base_token "ABC,90" ]}.
Proof.
  repeat apply conj.
  - vm_compute. reflexivity.
  - vm_compute. reflexivity.
  - vm_compute. discriminate.
Qed.

Lemma expand_combined_codes_raises :
  (parse_base (base_token ("ABC," +:+ String (chr 178) "-x"))).1.2 = None
  ∧ expand_combined_codes ("ABC," +:+ String (chr 178) "-x") = None
  ∧ expand_combined_codes ("A-1," +:+ String (chr 178) "") = None.
Proof. repeat apply conj; vm_compute; reflexivity. Qed.

Lemma expand_combined_codes_long_number :
  plain_digits ("X-1," +:+ long_number) = true
  ∧ String.length long_number = 4301%nat
  ∧ isdigit long_number = true
  ∧ expand_combined_codes ("X-1," +:+ long_number) = None.
Proof. repeat apply conj; vm_compute; reflexivity. Qed.

(** ** Package-unit explosion *)

(** Dropping the fraction and flooring agree wherever either is positive. *)
Lemma int_of_float_floor (x : Q) :
  ((0 < Qfloor x)%Z → int_of_float x = Qfloor x)
  ∧ ((Qfloor x ≤ 0)%Z → (int_of_float x ≤ 0)%Z).
Proof.
  destruct x as [num den]. unfold int_of_float, Qfloor. simpl.
  destruct (Z.le_gt_cases 0 num) as [Hn|Hn].
  - rewrite Z.quot_div_nonneg by lia. done.
  - assert (num / Z.pos den < 0)%Z by (apply Z.div_lt_upper_bound; lia).
    split; [lia|]. intros _.
    replace num with (- (- num))%Z by lia.
    rewrite Z.quot_opp_l by lia.
    pose proof (Z.quot_pos (- num) (Z.pos den)). lia.
Qed.

Lemma Qsum_const {A} (x : Q) (l : list A) :
  Qsum (map (λ _, x) l) == inject_Z (Z.of_nat (length l)) * x.
Proof.
  induction l as [|a l IH]; simpl length; simpl map.
  - simpl. ring.
  - change (Qsum (x :: map (λ _, x) l)) with (x + Qsum (map (λ _, x) l)).
    rewrite IH, Nat2Z.inj_succ, <- Z.add_1_r, inject_Z_plus. ring.
Qed.

Lemma explode_row_positive (row : cand_row) (p : Z) :
  (0 < p)%Z → int_of_float (Pkg row) = p →
  explode_row row
  = map (fun pkg_idx =>
           UnitRow (row_ix row) (Z.of_nat pkg_idx + 1) 1
                   (row_GW row / inject_Z p) (row_CBM row / inject_Z p))
        (seq 0 (Z.to_nat p)).
Proof.
  intros Hp Hint. unfold explode_row. rewrite Hint.
  by destruct (Z.leb_spec p 0); [lia|].
Qed.

Lemma Qsum_even_split (t : Q) (p : Z) {A} (l : list A) :
  (0 < p)%Z → length l = Z.to_nat p →
  Qsum (map (λ _, t / inject_Z p) l) == t.
Proof.
  intros Hp Hl. rewrite Qsum_const, Hl, Z2Nat.id by lia.
  field. intros H. apply (Qlt_not_eq 0 (inject_Z p)); [|by symmetry].
  change 0 with (inject_Z 0). rewrite <- Zlt_Qlt. done.
Qed.

(** C5.  Every row contributes its own units, independently of the rows
    around it.  With [p] the package count floored to an integer: if
    [p <= 0] the row contributes no unit; if [p > 0] it contributes exactly
    [p] units, each of weight total/p and volume total/p, and the weights
    and the volumes of these units add up to the totals of the row (exactly,
    in rational arithmetic). *)
Theorem explode_by_pkg_units (pre post : list cand_row) (row : cand_row) :
  explode_by_pkg (pre ++ row :: post)
  = explode_by_pkg pre ++ explode_by_pkg [row] ++ explode_by_pkg post
  ∧ ((Qfloor (Pkg row) ≤ 0)%Z → explode_by_pkg [row] = [])
  ∧ ((0 < Qfloor (Pkg row))%Z →
     length (explode_by_pkg [row]) = Z.to_nat (Qfloor (Pkg row))
     ∧ Forall (λ u, Original_Index u = row_ix row
                    ∧ unit_Pkg u = 1%Z
                    ∧ unit_GW u = row_GW row / inject_Z (Qfloor (Pkg row))
                    ∧ unit_CBM u = row_CBM row / inject_Z (Qfloor (Pkg row)))
         (explode_by_pkg [row])
     ∧ Qsum (map unit_GW (explode_by_pkg [row])) == row_GW row
     ∧ Qsum (map unit_CBM (explode_by_pkg [row])) == row_CBM row).
Proof.
  assert (Hone : explode_by_pkg [row] = explode_row row)
    by (unfold explode_by_pkg; simpl; apply app_nil_r).
  destruct (int_of_float_floor (Pkg row)) as [Hpos Hneg].
  split_and!.
  - unfold explode_by_pkg. rewrite flat_map_app. simpl. by rewrite app_nil_r.
  - intros Hle. rewrite Hone. unfold explode_row.
    by destruct (Z.leb_spec (int_of_float (Pkg row)) 0); [|specialize (Hneg Hle); lia].
  - intros Hp. rewrite Hone.
    rewrite (explode_row_positive row (Qfloor (Pkg row)) Hp (Hpos Hp)).
    split_and!.
    + by rewrite length_map, length_seq.
    + apply Forall_forall. intros u (i & -> & _)%list_elem_of_fmap. done.
    + rewrite map_map. simpl. apply Qsum_even_split; [done | apply length_seq].
    + rewrite map_map. simpl. apply Qsum_even_split; [done | apply length_seq].
Qed.

Lemma explode_by_pkg_units_witness :
  length (explode_by_pkg [CandRow 7 3 9 1.5]) = Z.to_nat (Qfloor 3)
  ∧ Qsum (map unit_GW (explode_by_pkg [CandRow 7 3 9 1.5])) == 9
  ∧ Qsum (map unit_CBM (explode_by_pkg [CandRow 7 3 9 1.5])) == 1.5
  ∧ explode_by_pkg [CandRow 8 (-0.5) 4 2] = [].
Proof.
  destruct (explode_by_pkg_units [] [] (CandRow 7 3 9 1.5)) as (_ & _ & H).
  destruct H as (Hl & _ & Hg & Hc); [vm_compute; reflexivity|].
  destruct (explode_by_pkg_units [] [] (CandRow 8 (-0.5) 4 2)) as (_ & H0 & _).
  split_and!; [done..|]. apply H0. vm_compute. discriminate.
Defined.

(** ** Billing modes *)

Lemma billing_modes_disjoint :
  BILLING_MODE_RATE ## BILLING_MODE_PASSTHROUGH
  ∧ BILLING_MODE_RATE ## BILLING_MODE_NO_CHARGE
  ∧ BILLING_MODE_PASSTHROUGH ## BILLING_MODE_NO_CHARGE.
Proof.
  unfold BILLING_MODE_RATE, BILLING_MODE_PASSTHROUGH, BILLING_MODE_NO_CHARGE.
  repeat apply conj; intros w; rewrite !elem_of_union, !elem_of_singleton;
    intros H1 H2; intuition (subst; discriminate).
Qed.

(** C6.  [get_billing_mode] returns one of "rate", "passthrough",
    "no-charge" and "unknown"; the three sets of warehouses are pairwise
    disjoint, so each answer is given exactly for the names whose stripped
    form lies in the set of that mode; [WAREHOUSE_RATES] holds a non-zero
    rate for every warehouse of the rate set and the rate zero for every
    warehouse of the passthrough and no-charge sets. *)
Theorem get_billing_mode_exclusive (warehouse : string) :
  get_billing_mode warehouse ∈ ["rate"; "passthrough"; "no-charge"; "unknown"]
  ∧ BILLING_MODE_RATE ## BILLING_MODE_PASSTHROUGH
  ∧ BILLING_MODE_RATE ## BILLING_MODE_NO_CHARGE
  ∧ BILLING_MODE_PASSTHROUGH ## BILLING_MODE_NO_CHARGE
  ∧ (get_billing_mode warehouse = "rate"
     ↔ warehouse ≠ "" ∧ strip warehouse ∈ BILLING_MODE_RATE)
  ∧ (get_billing_mode warehouse = "passthrough"
     ↔ warehouse ≠ "" ∧ strip warehouse ∈ BILLING_MODE_PASSTHROUGH)
  ∧ (get_billing_mode warehouse = "no-charge"
     ↔ warehouse ≠ "" ∧ strip warehouse ∈ BILLING_MODE_NO_CHARGE)
  ∧ (∀ w, w ∈ BILLING_MODE_RATE →
          WAREHOUSE_RATES !! w = Some (get_warehouse_rate w)
          ∧ ¬ get_warehouse_rate w == 0)
  ∧ (∀ w, w ∈ BILLING_MODE_PASSTHROUGH ∪ BILLING_MODE_NO_CHARGE →
          WAREHOUSE_RATES !! w = Some (get_warehouse_rate w)
          ∧ get_warehouse_rate w == 0).
Proof.
  destruct billing_modes_disjoint as (Hrp & Hrn & Hpn).
  assert (Hmode :
    get_billing_mode warehouse ∈ ["rate"; "passthrough"; "no-charge"; "unknown"]
    ∧ (get_billing_mode warehouse = "rate"
       ↔ warehouse ≠ "" ∧ strip warehouse ∈ BILLING_MODE_RATE)
    ∧ (get_billing_mode warehouse = "passthrough"
       ↔ warehouse ≠ "" ∧ strip warehouse ∈ BILLING_MODE_PASSTHROUGH)
    ∧ (get_billing_mode warehouse = "no-charge"
       ↔ warehouse ≠ "" ∧ strip warehouse ∈ BILLING_MODE_NO_CHARGE)).
  { unfold get_billing_mode.
    destruct (String.eqb_spec warehouse "") as [->|Hne].
    { split; [|split; [|split]]; [repeat constructor | split; [done|by intros [? _]]..]. }
    specialize (Hrp (strip warehouse)). specialize (Hrn (strip warehouse)).
    specialize (Hpn (strip warehouse)).
    repeat case_bool_decide;
      (split; [|split; [|split]];
       [repeat constructor
       | split; [intros ?; try discriminate; by split
                | intros [_ ?]; first [done | exfalso; eauto]]..]). }
  destruct Hmode as (H1 & H2 & H3 & H4).
  split_and!; try done.
  - unfold BILLING_MODE_RATE. intros w.
    rewrite !elem_of_union, !elem_of_singleton.
    intros [[[->| ->]| ->]| ->]; (split; [vm_compute; reflexivity | discriminate]).
  - unfold BILLING_MODE_PASSTHROUGH, BILLING_MODE_NO_CHARGE. intros w.
    rewrite !elem_of_union, !elem_of_singleton.
    intros [[[->| ->]| ->]| ->]; (split; [vm_compute; reflexivity | reflexivity]).
Qed.

Lemma get_billing_mode_exclusive_witness :
  get_billing_mode " DSV Indoor " = "rate"
  ∧ WAREHOUSE_RATES !! "DSV Indoor" = Some (get_warehouse_rate "DSV Indoor")
  ∧ ¬ get_warehouse_rate "DSV Indoor" == 0.
Proof.
  destruct (get_billing_mode_exclusive " DSV Indoor ")
    as (_ & _ & _ & _ & Hrate & _ & _ & Hnz & _).
  split.
  - apply Hrate. split; [discriminate|].
    apply (bool_decide_unpack _). vm_compute. reflexivity.
  - apply Hnz. apply (bool_decide_unpack _). vm_compute. reflexivity.
Defined.

(** ** Monthly charges *)

Lemma Qle_bool_false (x y : Q) : Qle_bool x y = false ↔ ¬ x <= y.
Proof. rewrite <- Qle_bool_iff. by destruct (Qle_bool x y). Qed.

Lemma Qeq_bool_false (x y : Q) : Qeq_bool x y = false ↔ ¬ x == y.
Proof. rewrite <- Qeq_bool_iff. by destruct (Qeq_bool x y). Qed.

Lemma Qltb_false (x y : Q) : Qltb x y = false ↔ ¬ x < y.
Proof. rewrite <- Qltb_lt. by destruct (Qltb x y). Qed.

Lemma round_half_even_near (x : Q) :
  Qabs (inject_Z (round_half_even x) - x) <= 1 # 2.
Proof.
  unfold round_half_even.
  pose proof (Qfloor_le x) as Hlo. pose proof (Qlt_floor x) as Hhi.
  rewrite inject_Z_plus in Hhi. change (inject_Z 1) with 1 in Hhi.
  assert (Hcase : ∀ b : bool,
    Qabs (inject_Z (if b then Qfloor x else (Qfloor x + 1)%Z) - x) <= 1 # 2
    ↔ (if b then x - inject_Z (Qfloor x) <= 1 # 2
       else (1 # 2) <= x - inject_Z (Qfloor x))).
  { intros [|]; rewrite ?inject_Z_plus; change (inject_Z 1) with 1;
      rewrite Qabs_Qle_condition; revert Hlo Hhi;
      generalize (inject_Z (Qfloor x)); intros f Hlo Hhi; split; try lra;
      intros; lra. }
  destruct (Qltb (x - inject_Z (Qfloor x)) (1 # 2)) eqn:E1.
  { apply Qltb_lt in E1. apply (Hcase true). by apply Qlt_le_weak. }
  destruct (Qltb (1 # 2) (x - inject_Z (Qfloor x))) eqn:E2.
  { apply Qltb_lt in E2. apply (Hcase false). by apply Qlt_le_weak. }
  apply Qltb_false, Qnot_lt_le in E1. apply Qltb_false, Qnot_lt_le in E2.
  destruct (Z.even (Qfloor x)).
  - by apply (Hcase true).
  - by apply (Hcase false).
Qed.

Lemma exact_value_abs (x : float) (s : bool) (m : positive) (e : Z) :
  Prim2SF x = S754_finite s m e →
  Qabs (Double.exact_value x) == inject_Z (Z.pos m) * 2 ^ e.
Proof.
  intros H. unfold Double.exact_value. rewrite H, Qabs_Qmult.
  assert (Hs : Qabs (if s then -1 else 1) == 1) by (by destruct s).
  assert (Hv : 0 <= inject_Z (Z.pos m) * 2 ^ e).
  { apply Qmult_le_0_compat; [|by apply Qpower_0_le].
    change 0 with (inject_Z 0). rewrite <- Zle_Qle. lia. }
  rewrite Hs, (Qabs_pos _ Hv). ring.
Qed.

Lemma round2_finite_nonzero (x : float) :
  finite_nonzero x = true →
  ∃ (negative : bool) (n : Z),
    Double.round2 x = Double.hundredths negative n
    ∧ Qabs (inject_Z n - Qabs (Double.exact_value x) * 100) <= 1 # 2.
Proof.
  unfold finite_nonzero. destruct (Prim2SF x) as [| | |s m e] eqn:E; try done.
  intros _. exists s, (round_half_even (inject_Z (Z.pos m) * 2 ^ e * 100)).
  split; [unfold Double.round2; by rewrite E|].
  rewrite (exact_value_abs x s m e E). apply round_half_even_near.
Qed.

Lemma round2_other (x : float) : finite_nonzero x = false → Double.round2 x = x.
Proof.
  unfold finite_nonzero, Double.round2.
  by destruct (Prim2SF x) as [| | |s m e].
Qed.

(** C7, as amended.  All amounts are doubles and all arithmetic is that of
    doubles.  In rate mode the system amount is [round(area * rate, 2)]:
    the product of the two doubles, formed in floating point, rounded to a
    whole number of hundredths at most half a hundredth away from it (a
    product that is a zero, NaN or an infinity is kept as it is); the
    relative delta is 0 for an invoice amount equal to 0 and the quotient
    (invoice - system) / invoice otherwise; the verdict is PASS iff the
    absolute value of the relative delta is at most the threshold (2%) and
    FAIL otherwise; the exception grade is PASS under the same condition,
    WARN when the absolute relative delta exceeds the threshold but is at
    most 5%, and FAIL beyond.  In no-charge mode the verdict, and the
    grade, is PASS iff the invoice amount equals 0, and FAIL otherwise. *)
Theorem monthly_charges_verdict (delta_thr : float) (row : Double.charge_row) :
  (Double.Expected_Mode row = "rate" →
   Double._recalc row
   = Double.round2 (Double.System_Avg_SQM row * Double.Contract_Rate row)%float
   ∧ (finite_nonzero (Double.System_Avg_SQM row * Double.Contract_Rate row)%float
      = true →
      ∃ (negative : bool) (n : Z),
        Double._recalc row = Double.hundredths negative n
        ∧ Qabs (inject_Z n
                - Qabs (Double.exact_value
                          (Double.System_Avg_SQM row * Double.Contract_Rate row)%float)
                  * 100) <= 1 # 2)
   ∧ (finite_nonzero (Double.System_Avg_SQM row * Double.Contract_Rate row)%float
      = false →
      Double._recalc row
      = (Double.System_Avg_SQM row * Double.Contract_Rate row)%float)
   ∧ ((Double.invoice_amount row =? 0)%float = true →
      Double.delta_pct row = 0%float)
   ∧ ((Double.invoice_amount row =? 0)%float = false →
      Double.delta_pct row
      = ((Double.invoice_amount row - Double._recalc row)
         / Double.invoice_amount row)%float)
   ∧ (Double._status delta_thr row = "PASS"
      ↔ (abs (Double.delta_pct row) <=? delta_thr)%float = true)
   ∧ (Double._status delta_thr row = "FAIL"
      ↔ (abs (Double.delta_pct row) <=? delta_thr)%float = false)
   ∧ (Double._grade delta_thr row = "PASS"
      ↔ (abs (Double.delta_pct row) <=? delta_thr)%float = true)
   ∧ (Double._grade delta_thr row = "WARN"
      ↔ (abs (Double.delta_pct row) <=? delta_thr)%float = false
        ∧ (abs (Double.delta_pct row) <=? 0.05)%float = true)
   ∧ (Double._grade delta_thr row = "FAIL"
      ↔ (abs (Double.delta_pct row) <=? delta_thr)%float = false
        ∧ (abs (Double.delta_pct row) <=? 0.05)%float = false))
  ∧ (Double.Expected_Mode row = "no-charge" →
     (Double._status delta_thr row = "PASS"
      ↔ (Double.invoice_amount row =? 0)%float = true)
     ∧ (Double._status delta_thr row = "FAIL"
        ↔ (Double.invoice_amount row =? 0)%float = false)
     ∧ Double._grade delta_thr row = Double._status delta_thr row).
Proof.
  split.
  - intros Hmode.
    assert (Hre : Double._recalc row
      = Double.round2 (Double.System_Avg_SQM row * Double.Contract_Rate row)%float)
      by (unfold Double._recalc; by rewrite Hmode).
    split; [done|].
    split; [rewrite Hre; apply round2_finite_nonzero|].
    split; [rewrite Hre; apply round2_other|].
    split; [intros H; unfold Double.delta_pct; by rewrite H|].
    split; [intros H; unfold Double.delta_pct, Double.delta_aed; by rewrite H|].
    unfold Double._status, Double._grade. rewrite Hmode.
    change (String.eqb "rate" "rate") with true. cbv iota.
    destruct (abs (Double.delta_pct row) <=? delta_thr)%float;
      [|destruct (abs (Double.delta_pct row) <=? 0.05)%float];
      repeat split; intros; destruct_and?; done.
  - intros Hmode. unfold Double._grade, Double._status. rewrite Hmode.
    change (String.eqb "no-charge" "rate") with false.
    change (String.eqb "no-charge" "passthrough") with false.
    change (String.eqb "no-charge" "no-charge") with true. cbv iota.
    change 0.0%float with 0%float.
    destruct (Double.invoice_amount row =? 0)%float;
      repeat split; intros; done.
Qed.

Lemma monthly_charges_verdict_witness :
  Double._recalc scenario_row = 5663.5%float
  ∧ Double._status 0.02 scenario_row = "PASS"
  ∧ Double._status 0.02 (Double.ChargeRow "no-charge" 10 0 0 0) = "PASS".
Proof.
  destruct (monthly_charges_verdict 0.02 scenario_row) as [H _].
  destruct (H eq_refl) as (Hre & _ & _ & _ & _ & Hpass & _).
  destruct (monthly_charges_verdict 0.02 (Double.ChargeRow "no-charge" 10 0 0 0))
    as [_ H0].
  destruct (H0 eq_refl) as (Hnc & _).
  split_and!.
  - vm_compute. reflexivity.
  - apply Hpass. vm_compute. reflexivity.
  - apply Hnc. vm_compute. reflexivity.
Defined.

(** The claim as stated fails on [rounding_row]: the system amount is 98.0
    and not the product 97.9968, and the verdict is PASS although the
    relative delta taken against the product, as real numbers, exceeds 2%.
    It also fails on [credit_row], where |invoice - system| / invoice is
    negative, hence below 2%, and the verdict is FAIL. *)
Lemma monthly_charges_rate_counterexample :
  (Double.Expected_Mode rounding_row = "rate"
   ∧ (Double._recalc rounding_row
      =? Double.System_Avg_SQM rounding_row * Double.Contract_Rate rounding_row)%float
     = false
   ∧ ¬ Double.exact_value (Double._recalc rounding_row)
       == Double.exact_value (Double.System_Avg_SQM rounding_row)
          * Double.exact_value (Double.Contract_Rate rounding_row)
   ∧ Double._status 0.02 rounding_row = "PASS"
   ∧ ¬ Qabs (Double.exact_value (Double.invoice_amount rounding_row)
             - Double.exact_value (Double.System_Avg_SQM rounding_row)
               * Double.exact_value (Double.Contract_Rate rounding_row))
       / Double.exact_value (Double.invoice_amount rounding_row)
       <= Double.exact_value 0.02)
  ∧ (Double.Expected_Mode credit_row = "rate"
     ∧ Double._status 0.02 credit_row = "FAIL"
     ∧ Qabs (Double.exact_value (Double.invoice_amount credit_row)
             - Double.exact_value (Double._recalc credit_row))
       / Double.exact_value (Double.invoice_amount credit_row)
       <= Double.exact_value 0.02).
Proof.
  split; split_and!.
  - reflexivity.
  - vm_compute. reflexivity.
  - apply Qeq_bool_false. vm_compute. reflexivity.
  - vm_compute. reflexivity.
  - apply Qle_bool_false. vm_compute. reflexivity.
  - reflexivity.
  - vm_compute. reflexivity.
  - apply Qle_bool_iff. vm_compute. reflexivity.
Qed.

(** Why the product is the one formed in floating point: on [product_row]
    the two factors, as real numbers, multiply to a little more than 0.495,
    which rounds to 0.50, within 2% of the invoice 0.51; the product of the
    doubles is the double just below 0.495, the system amount is 0.49 and
    the verdict is FAIL. *)
Example monthly_charges_float_product :
  round2 (Double.exact_value (Double.System_Avg_SQM product_row)
          * Double.exact_value (Double.Contract_Rate product_row)) == 0.50
  ∧ Qabs (Double.exact_value (Double.invoice_amount product_row) - 0.50)
    / Double.exact_value (Double.invoice_amount product_row)
    <= Double.exact_value 0.02
  ∧ Double._recalc product_row = 0.49%float
  ∧ Double._status 0.02 product_row = "FAIL".
Proof.
  split_and!.
  - apply Qeq_bool_iff. vm_compute. reflexivity.
  - apply Qle_bool_iff. vm_compute. reflexivity.
  - vm_compute. reflexivity.
  - vm_compute. reflexivity.
Qed.

(** In passthrough mode [_recalc] hands the system amount of the row
    through unchanged, and the verdict is PASS iff the absolute difference
    of the invoice amount and the system amount is below 0.5. *)
Lemma passthrough_status (delta_thr : float) (row : Double.charge_row) :
  Double.Expected_Mode row = "passthrough" →
  Double._recalc row = Double.System_Amount row
  ∧ (Double._status delta_thr row = "PASS"
     ↔ (abs (Double.invoice_amount row - Double.System_Amount row) <? 0.5)%float
       = true)
  ∧ Double._grade delta_thr row = Double._status delta_thr row.
Proof.
  intros Hmode. unfold Double._grade, Double._status, Double._recalc.
  rewrite Hmode.
  change (String.eqb "passthrough" "rate") with false.
  change (String.eqb "passthrough" "passthrough") with true. cbv iota.
  split; [done|]. split; [|done].
  by destruct (abs (Double.invoice_amount row - Double.System_Amount row) <? 0.5)%float.
Qed.

(** C8.  The claim holds of the matching it describes, and the recover
    build departs from it: its [normalize_warehouse_name] answers with the
    first entry of the dictionary that matches exactly or partially, so an
    invoice line for "Hauler Indoor" is filed under "DSV Indoor" ("indoor"
    is part of the name), where the main script keeps "Hauler Indoor".  For
    a system row of the passthrough warehouse "Hauler Indoor" whose system
    amount, 1000, is the amount of the one invoice line of that warehouse
    and month, the merge therefore finds no invoice amount: the invoice
    amount of the row is 0, the recomputed system amount is 1000, and the
    verdict and the grade are FAIL. *)
Theorem passthrough_row_misfiled (group_sum : list float → float) (ym : string) :
  Safe.normalize_warehouse_name (Some "Hauler Indoor") = "DSV Indoor"
  ∧ normalize_warehouse_name (Some "Hauler Indoor") = "Hauler Indoor"
  ∧ Double.merged_invoice_amount group_sum
      [Double.InvoiceLine ym (Some "Hauler Indoor") 1000] ym "DSV Indoor"
    = group_sum [1000%float]
  ∧ Double.merged_row group_sum
      [Double.InvoiceLine ym (Some "Hauler Indoor") 1000]
      (Double.SystemRow ym "Hauler Indoor" 0 1000)
    = Double.ChargeRow "passthrough" 0 0 1000 nan
  ∧ Double._recalc (Double.ChargeRow "passthrough" 0 0 1000 nan) = 1000%float
  ∧ Double.invoice_amount (Double.ChargeRow "passthrough" 0 0 1000 nan) = 0%float
  ∧ Double._status 0.02 (Double.ChargeRow "passthrough" 0 0 1000 nan) = "FAIL"
  ∧ Double._grade 0.02 (Double.ChargeRow "passthrough" 0 0 1000 nan) = "FAIL".
Proof.
  split_and!; try (vm_compute; reflexivity).
  - unfold Double.merged_invoice_amount, Double.invoice_group. simpl List.filter.
    rewrite String.eqb_refl. reflexivity.
  - unfold Double.merged_row, Double.merged_invoice_amount, Double.invoice_group.
    simpl List.filter. rewrite String.eqb_refl. reflexivity.
Qed.

(** * Further properties of the matchers *)

Lemma find_Some_true {A} (f : A → bool) (l : list A) (x : A) :
  find f l = Some x → f x = true ∧ x ∈ l.
Proof.
  intros H. destruct (find_some f l H) as [Hin Hf].
  split; [done|]. by apply list_elem_of_In.
Qed.

Lemma result_consistent_not_found (k : Z) (gw_tgt cbm_tgt tol : Q) (m : string) :
  result_consistent k gw_tgt cbm_tgt tol (not_found m).
Proof. by split. Qed.

Lemma result_consistent_sel (k : Z) (gw_tgt cbm_tgt tol : Q)
    (vals_gw vals_cbm : list Q) (n : nat) (sel : list nat) (pk : list Z) (m : string) :
  (0 < k)%Z → valid_sel n (Z.to_nat k) sel → length pk = length sel →
  result_consistent k gw_tgt cbm_tgt tol
    (MatchResult (within_tol vals_gw vals_cbm gw_tgt cbm_tgt tol sel) pk
       (Some (sum_at vals_gw sel)) (Some (sum_at vals_cbm sel)) m).
Proof.
  intros Hk (Hl & _) Hpk. split; [done|]. simpl. intros _.
  split; [done|]. by rewrite Hpk.
Qed.

Lemma find_subset_match_consistent (pkgs_df : list pkg_row) (k : Z)
    (gw_tgt cbm_tgt tol : Q) :
  result_consistent k gw_tgt cbm_tgt tol
    (find_subset_match pkgs_df k gw_tgt cbm_tgt tol).
Proof.
  destruct ((Z.of_nat (length pkgs_df) <? k)%Z || (k <=? 0)%Z) eqn:Hguard.
  { unfold find_subset_match. rewrite Hguard.
    apply (result_consistent_not_found k gw_tgt cbm_tgt tol "invalid"). }
  assert (Hk : (0 < k)%Z)
    by (apply orb_false_iff in Hguard as [_ Hk%Z.leb_gt]; done).
  destruct (length pkgs_df <=? MAX_EXACT_N)%nat eqn:Hsmall.
  - unfold find_subset_match, exact_subset_match. rewrite Hguard, Hsmall.
    destruct (exact_subset_pos pkgs_df (Z.to_nat k) gw_tgt cbm_tgt tol)
      as [comb|] eqn:Hpos.
    + pose proof (exact_subset_pos_valid _ _ _ _ _ _ Hpos) as Hv.
      unfold exact_subset_pos in Hpos.
      apply find_Some_true in Hpos as [Hf _].
      change (feasible (map GW pkgs_df) (map CBM pkgs_df) gw_tgt cbm_tgt tol comb)
        with (within_tol (map GW pkgs_df) (map CBM pkgs_df) gw_tgt cbm_tgt tol comb)
        in Hf.
      rewrite <- Hf.
      apply (result_consistent_sel k gw_tgt cbm_tgt tol _ _ (length pkgs_df));
        [done..|by rewrite length_map].
    + apply (result_consistent_not_found k gw_tgt cbm_tgt tol "exact").
  - destruct (find_subset_match_robust pkgs_df k gw_tgt cbm_tgt tol Hguard Hsmall)
      as (sel & -> & Hv).
    apply (result_consistent_sel k gw_tgt cbm_tgt tol _ _ (length pkgs_df));
      [done..|]. unfold labels_at. by rewrite length_map.
Qed.

(** ** The frame of units *)

Lemma explode_row_length (row : cand_row) :
  length (explode_row row) = unit_count row.
Proof.
  unfold explode_row, unit_count.
  destruct (Z.leb_spec (int_of_float (Pkg row)) 0) as [Hle|Hlt].
  - simpl. lia.
  - by rewrite length_map, length_seq.
Qed.

Lemma explode_row_units (row : cand_row) (u : unit_row) :
  u ∈ explode_row row →
  (0 < int_of_float (Pkg row))%Z
  ∧ Original_Index u = row_ix row
  ∧ unit_Pkg u = 1%Z
  ∧ (1 ≤ Pkg_Unit u ≤ int_of_float (Pkg row))%Z
  ∧ unit_GW u = row_GW row / inject_Z (int_of_float (Pkg row))
  ∧ unit_CBM u = row_CBM row / inject_Z (int_of_float (Pkg row)).
Proof.
  unfold explode_row.
  destruct (Z.leb_spec (int_of_float (Pkg row)) 0) as [Hle|Hlt].
  - by intros ?%elem_of_nil.
  - intros (i & -> & Hi)%list_elem_of_fmap. apply elem_of_seq in Hi.
    simpl. split_and!; try done; lia.
Qed.

Lemma explode_row_sums (row : cand_row) :
  (0 < int_of_float (Pkg row))%Z →
  Qsum (map unit_GW (explode_row row)) == row_GW row
  ∧ Qsum (map unit_CBM (explode_row row)) == row_CBM row.
Proof.
  intros Hp. rewrite (explode_row_positive row _ Hp eq_refl), !map_map. simpl.
  split; apply Qsum_even_split; (done || apply length_seq).
Qed.

Lemma Qsum_app (l1 l2 : list Q) : Qsum (l1 ++ l2) == Qsum l1 + Qsum l2.
Proof.
  induction l1 as [|x l1 IH]; simpl.
  - ring.
  - change (Qsum (x :: l1 ++ l2)) with (x + Qsum (l1 ++ l2)).
    change (Qsum (x :: l1)) with (x + Qsum l1). rewrite IH. ring.
Qed.

Lemma length_explode_by_pkg (df_subset : list cand_row) :
  length (explode_by_pkg df_subset) = sum_list (map unit_count df_subset).
Proof.
  unfold explode_by_pkg. induction df_subset as [|row df IH]; simpl; [done|].
  by rewrite length_app, explode_row_length, IH.
Qed.

(** X2.  The frame of units has one unit per package of the rows with a
    positive package count and none for the other rows; every unit counts
    one package, points back to the index label of a row with a positive
    count, is numbered between 1 and that count, and carries that row's
    weight and volume divided by the count. *)
Theorem explode_by_pkg_shape (df_subset : list cand_row) :
  length (explode_by_pkg df_subset) = sum_list (map unit_count df_subset)
  ∧ ∀ u, u ∈ explode_by_pkg df_subset →
      ∃ row, row ∈ df_subset
        ∧ (0 < int_of_float (Pkg row))%Z
        ∧ Original_Index u = row_ix row
        ∧ unit_Pkg u = 1%Z
        ∧ (1 ≤ Pkg_Unit u ≤ int_of_float (Pkg row))%Z
        ∧ unit_GW u = row_GW row / inject_Z (int_of_float (Pkg row))
        ∧ unit_CBM u = row_CBM row / inject_Z (int_of_float (Pkg row)).
Proof.
  split; [apply length_explode_by_pkg|].
  unfold explode_by_pkg.
  - intros u Hu. apply list_elem_of_In, in_flat_map in Hu as (row & Hrow & Hu).
    apply list_elem_of_In in Hrow, Hu.
    exists row. split; [done|]. by apply explode_row_units.
Qed.

(** X3.  Exploding a frame keeps the total weight and the total volume of
    the rows with a positive package count; the rows whose count is zero or
    negative drop out of both totals. *)
Theorem explode_by_pkg_conserves (df_subset : list cand_row) :
  Qsum (map unit_GW (explode_by_pkg df_subset))
  == Qsum (map row_GW
             (List.filter (fun r => (0 <? int_of_float (Pkg r))%Z) df_subset))
  ∧ Qsum (map unit_CBM (explode_by_pkg df_subset))
    == Qsum (map row_CBM
               (List.filter (fun r => (0 <? int_of_float (Pkg r))%Z) df_subset)).
Proof.
  unfold explode_by_pkg.
  induction df_subset as [|row df [IHg IHc]]; simpl; [by split|].
  rewrite !map_app, !Qsum_app, IHg, IHc.
  destruct (Z.ltb_spec 0 (int_of_float (Pkg row))) as [Hp|Hn].
  - destruct (explode_row_sums row Hp) as [Hg Hc]. simpl.
    change (Qsum (row_GW row :: ?l)) with (row_GW row + Qsum l).
    rewrite Hg, Hc. split; reflexivity.
  - assert (explode_row row = []) as ->.
    { unfold explode_row. by destruct (Z.leb_spec (int_of_float (Pkg row)) 0); [|lia]. }
    simpl. split; ring.
Qed.

(** ** Matching on units, and the choice between the two strategies *)

Lemma combinations_valid (n k : nat) (comb : list nat) :
  comb ∈ combinations (seq 0 n) k → valid_sel n k comb.
Proof.
  intros Hin. destruct (combinations_sound _ _ _ Hin) as [Hsub Hlen].
  split_and!; [done| |].
  - eapply sublist_NoDup; [apply NoDup_seq | done].
  - intros i Hi. pose proof (elem_of_sublist _ _ _ Hi Hsub) as Hi'.
    apply elem_of_seq in Hi'. lia.
Qed.

(** The three shapes of a result of [find_subset_match_exploded]. *)
Lemma find_subset_match_exploded_cases (cand_df : list cand_row) (k : Z)
    (gw_tgt cbm_tgt tol : Q) :
  (∃ m, find_subset_match_exploded cand_df k gw_tgt cbm_tgt tol = not_found m)
  ∨ ∃ sel m,
      (0 < k)%Z
      ∧ valid_sel (length (explode_by_pkg cand_df)) (Z.to_nat k) sel
      ∧ find_subset_match_exploded cand_df k gw_tgt cbm_tgt tol
        = MatchResult
            (within_tol (map unit_GW (explode_by_pkg cand_df))
               (map unit_CBM (explode_by_pkg cand_df)) gw_tgt cbm_tgt tol sel)
            (map Z.of_nat sel)
            (Some (sum_at (map unit_GW (explode_by_pkg cand_df)) sel))
            (Some (sum_at (map unit_CBM (explode_by_pkg cand_df)) sel)) m.
Proof.
  unfold find_subset_match_exploded.
  destruct (bool_decide (cand_df = []) || (k <=? 0)%Z) eqn:Hguard; [left; by eexists|].
  assert (Hk : (0 < k)%Z)
    by (apply orb_false_iff in Hguard as [_ Hk%Z.leb_gt]; done).
  destruct (length (explode_by_pkg cand_df) =? 0)%nat; [left; by eexists|].
  destruct (length (explode_by_pkg cand_df) <=? MAX_EXACT_N)%nat.
  - destruct (find _ _) as [comb|] eqn:Hfind; [|left; by eexists].
    apply find_Some_true in Hfind as [Hf Hin].
    rewrite length_map in Hin. apply combinations_valid in Hin.
    right. exists comb, "exact-exploded". split_and!; [done..|].
    change (feasible ?a ?b ?c ?d ?e ?f) with (within_tol a b c d e f) in Hf.
    by rewrite Hf.
  - destruct ((Z.of_nat (length (map unit_GW (explode_by_pkg cand_df))) <? k)%Z
              || (k <=? 0)%Z) eqn:Hg2.
    + left. exists "robust-greedy-local-exploded".
      unfold robust_greedy_local, robust_greedy_local_run. by rewrite Hg2.
    + destruct (robust_greedy_local_run_spec (map unit_GW (explode_by_pkg cand_df))
                  (map unit_CBM (explode_by_pkg cand_df)) gw_tgt cbm_tgt tol k
                  MAX_ITER) as (s0 & log & sel & Hrun & Hv & _);
        [by rewrite !length_map | done |].
      unfold robust_greedy_local. rewrite Hrun. simpl.
      rewrite length_map in Hv.
      right. exists sel, "robust-greedy-local-exploded". by split_and!.
Qed.

Lemma find_subset_match_exploded_consistent (cand_df : list cand_row) (k : Z)
    (gw_tgt cbm_tgt tol : Q) :
  result_consistent k gw_tgt cbm_tgt tol
    (find_subset_match_exploded cand_df k gw_tgt cbm_tgt tol).
Proof.
  destruct (find_subset_match_exploded_cases cand_df k gw_tgt cbm_tgt tol)
    as [[m ->]|(sel & m & Hk & Hv & ->)].
  - apply result_consistent_not_found.
  - eapply result_consistent_sel; [done..|]. by rewrite length_map.
Qed.

(** The result of [enhanced_subset_matching] is the refusal "no-candidate"
    or one of the results of the two strategies. *)
Lemma min_by_in (key : match_result → xerr) (best : match_result)
    (rest : list match_result) :
  min_by key best rest ∈ best :: rest.
Proof.
  revert best. induction rest as [|r rest IH]; intros best; simpl.
  - apply list_elem_of_here.
  - specialize (IH (if xlt (key r) (key best) then r else best)).
    apply elem_of_cons in IH as [->|IH].
    + destruct (xlt _ _); [apply list_elem_of_further|]; apply list_elem_of_here.
    + by do 2 apply list_elem_of_further.
Qed.

Lemma enhanced_subset_matching_cases (cand_df : list cand_row) (k : Z)
    (gw_tgt cbm_tgt tol : Q) (use_exploded : bool) :
  enhanced_subset_matching cand_df k gw_tgt cbm_tgt tol use_exploded
  = not_found "no-candidate"
  ∨ enhanced_subset_matching cand_df k gw_tgt cbm_tgt tol use_exploded
    = find_subset_match (gw_cbm_columns cand_df) k gw_tgt cbm_tgt tol
  ∨ (use_exploded = true
     ∧ enhanced_subset_matching cand_df k gw_tgt cbm_tgt tol use_exploded
       = find_subset_match_exploded cand_df k gw_tgt cbm_tgt tol).
Proof.
  unfold enhanced_subset_matching.
  destruct (bool_decide (cand_df = []) || (k <=? 0)%Z); [by left|].
  set (r1 := find_subset_match _ _ _ _ _).
  set (r2 := find_subset_match_exploded _ _ _ _ _).
  assert (Hres : ∀ results : list match_result,
    (∀ r, r ∈ results → r = r1 ∨ (use_exploded = true ∧ r = r2)) →
    match results with
    | [] => r1
    | first :: others =>
      match List.filter (fun r => str_in "exact" (method r)) results with
      | exact_first :: _ => exact_first
      | [] => min_by (calculate_total_error gw_tgt cbm_tgt) first others
      end
    end = r1
    ∨ (use_exploded = true
       ∧ match results with
         | [] => r1
         | first :: others =>
           match List.filter (fun r => str_in "exact" (method r)) results with
           | exact_first :: _ => exact_first
           | [] => min_by (calculate_total_error gw_tgt cbm_tgt) first others
           end
         end = r2)).
  { intros results Hall. destruct results as [|first others]; [by left|].
    destruct (List.filter _ (first :: others)) as [|e es] eqn:Hfil.
    - destruct (Hall _ (min_by_in (calculate_total_error gw_tgt cbm_tgt) first others))
        as [->|[? ->]]; [by left | by right].
    - assert (He : e ∈ first :: others).
      { apply list_elem_of_In.
        apply (proj1 (filter_In (fun r => str_in "exact" (method r)) e (first :: others))).
        rewrite Hfil. by left. }
      destruct (Hall _ He) as [->|[? ->]]; [by left | by right]. }
  right. apply Hres. intros r Hr.
  destruct use_exploded.
  - destruct (found r1), (found r2); simpl in Hr;
      repeat (apply elem_of_cons in Hr as [->|Hr]; [first [by left | by right]|]);
      by apply elem_of_nil in Hr.
  - destruct (found r1); simpl in Hr;
      repeat (apply elem_of_cons in Hr as [->|Hr]; [by left|]);
      by apply elem_of_nil in Hr.
Qed.

Lemma within_opt_Some (sum : option Q) (target tol : Q) :
  within_opt sum target tol = true →
  ∃ s, sum = Some s ∧ Qabs (s - target) <= tol.
Proof.
  destruct sum as [s|]; simpl; [|done].
  intros H%Qle_bool_iff. eauto.
Qed.

(** X1.  [find_subset_match] reports found exactly when both reported sums
    are present and within the tolerance of the targets: a found result
    carries two sums within the tolerance and [k] picked labels, and a
    request with [k <= 0] or with fewer than [k] rows is refused as
    "invalid" with nothing picked and no sums. *)
Theorem find_subset_match_found_iff_within (pkgs_df : list pkg_row) (k : Z)
    (gw_tgt cbm_tgt tol : Q) :
  found (find_subset_match pkgs_df k gw_tgt cbm_tgt tol)
  = within_opt (sum_gw (find_subset_match pkgs_df k gw_tgt cbm_tgt tol)) gw_tgt tol
    && within_opt (sum_cbm (find_subset_match pkgs_df k gw_tgt cbm_tgt tol)) cbm_tgt tol
  ∧ (found (find_subset_match pkgs_df k gw_tgt cbm_tgt tol) = true →
     ∃ gw cbm,
       sum_gw (find_subset_match pkgs_df k gw_tgt cbm_tgt tol) = Some gw
       ∧ sum_cbm (find_subset_match pkgs_df k gw_tgt cbm_tgt tol) = Some cbm
       ∧ Qabs (gw - gw_tgt) <= tol ∧ Qabs (cbm - cbm_tgt) <= tol
       ∧ length (picked (find_subset_match pkgs_df k gw_tgt cbm_tgt tol))
         = Z.to_nat k)
  ∧ ((Z.of_nat (length pkgs_df) < k)%Z ∨ (k ≤ 0)%Z →
     find_subset_match pkgs_df k gw_tgt cbm_tgt tol = not_found "invalid").
Proof.
  destruct (find_subset_match_consistent pkgs_df k gw_tgt cbm_tgt tol) as [Hf Hl].
  split_and!; [done| |].
  - intros Hfound. rewrite Hf in Hfound.
    apply andb_true_iff in Hfound as [Hg Hc].
    destruct (within_opt_Some _ _ _ Hg) as (gw & Hgw & Hgle).
    destruct (within_opt_Some _ _ _ Hc) as (cbm & Hcbm & Hcle).
    exists gw, cbm. split_and!; try done. apply Hl.
    rewrite Hf, Hgw, Hcbm. simpl. apply andb_true_iff.
    split; by apply Qle_bool_iff.
  - intros Hbad. unfold find_subset_match.
    assert ((Z.of_nat (length pkgs_df) <? k)%Z || (k <=? 0)%Z = true) as ->; [|done].
    apply orb_true_iff. destruct Hbad; [left; by apply Z.ltb_lt | right; by apply Z.leb_le].
Qed.

Lemma find_subset_match_found_iff_within_witness :
  find_subset_match pool4 5 4 4 TOL = not_found "invalid"
  ∧ ∃ gw cbm,
      sum_gw (find_subset_match pool4 2 4 4 TOL) = Some gw
      ∧ sum_cbm (find_subset_match pool4 2 4 4 TOL) = Some cbm
      ∧ Qabs (gw - 4) <= TOL ∧ Qabs (cbm - 4) <= TOL
      ∧ length (picked (find_subset_match pool4 2 4 4 TOL)) = Z.to_nat 2.
Proof.
  split.
  - apply (find_subset_match_found_iff_within pool4 5 4 4 TOL). left. vm_compute. reflexivity.
  - apply (find_subset_match_found_iff_within pool4 2 4 4 TOL). vm_compute. reflexivity.
Defined.

(** X4.  [find_subset_match_exploded] refuses an empty frame or [k <= 0]
    as "no-candidate-exploded" and a frame without a single unit as
    "no-units-exploded"; it reports found exactly when both reported sums
    are present and within the tolerance; and a found result picks [k]
    pairwise distinct positions of the frame of units, so that the rows hold
    at least [k] packages in all. *)
Theorem find_subset_match_exploded_sound (cand_df : list cand_row) (k : Z)
    (gw_tgt cbm_tgt tol : Q) :
  (cand_df = [] ∨ (k ≤ 0)%Z →
   find_subset_match_exploded cand_df k gw_tgt cbm_tgt tol
   = not_found "no-candidate-exploded")
  ∧ (cand_df ≠ [] → (0 < k)%Z → sum_list (map unit_count cand_df) = 0%nat →
     find_subset_match_exploded cand_df k gw_tgt cbm_tgt tol
     = not_found "no-units-exploded")
  ∧ found (find_subset_match_exploded cand_df k gw_tgt cbm_tgt tol)
    = within_opt (sum_gw (find_subset_match_exploded cand_df k gw_tgt cbm_tgt tol))
        gw_tgt tol
      && within_opt (sum_cbm (find_subset_match_exploded cand_df k gw_tgt cbm_tgt tol))
           cbm_tgt tol
  ∧ (found (find_subset_match_exploded cand_df k gw_tgt cbm_tgt tol) = true →
     ∃ sel : list nat,
       picked (find_subset_match_exploded cand_df k gw_tgt cbm_tgt tol)
       = map Z.of_nat sel
       ∧ valid_sel (sum_list (map unit_count cand_df)) (Z.to_nat k) sel
       ∧ (0 < k ≤ Z.of_nat (sum_list (map unit_count cand_df)))%Z
       ∧ sum_gw (find_subset_match_exploded cand_df k gw_tgt cbm_tgt tol)
         = Some (sum_at (map unit_GW (explode_by_pkg cand_df)) sel)
       ∧ sum_cbm (find_subset_match_exploded cand_df k gw_tgt cbm_tgt tol)
         = Some (sum_at (map unit_CBM (explode_by_pkg cand_df)) sel)).
Proof.
  pose proof (length_explode_by_pkg cand_df) as Hlen.
  split_and!.
  - intros Hbad. unfold find_subset_match_exploded.
    assert (bool_decide (cand_df = []) || (k <=? 0)%Z = true) as ->; [|done].
    apply orb_true_iff.
    destruct Hbad; [left; by apply bool_decide_eq_true | right; by apply Z.leb_le].
  - intros Hne Hk Hzero. unfold find_subset_match_exploded.
    assert (bool_decide (cand_df = []) || (k <=? 0)%Z = false) as ->.
    { apply orb_false_iff. split; [by apply bool_decide_eq_false | by apply Z.leb_gt]. }
    by rewrite Hlen, Hzero.
  - apply (find_subset_match_exploded_consistent cand_df k gw_tgt cbm_tgt tol).
  - destruct (find_subset_match_exploded_cases cand_df k gw_tgt cbm_tgt tol)
      as [[m ->]|(sel & m & Hk & Hv & ->)]; [done|].
    simpl. intros _. rewrite Hlen in Hv. exists sel. split_and!; try done.
    destruct Hv as (Hl & Hn & Hb).
    assert (Hsub : sel ⊆ seq 0 (sum_list (map unit_count cand_df))).
    { intros x Hx. apply elem_of_seq. specialize (Hb x Hx). lia. }
    pose proof (submseteq_length _ _ (NoDup_submseteq _ _ Hn (λ x Hx, Hsub x Hx))) as Hle.
    rewrite length_seq in Hle. lia.
Qed.

Lemma find_subset_match_exploded_sound_witness :
  find_subset_match_exploded [] 2 7 3 TOL = not_found "no-candidate-exploded"
  ∧ find_subset_match_exploded [CandRow 11 0 5 5] 2 7 3 TOL
    = not_found "no-units-exploded"
  ∧ ∃ sel : list nat,
      picked (find_subset_match_exploded cand3 2 7 3 TOL) = map Z.of_nat sel
      ∧ valid_sel (sum_list (map unit_count cand3)) (Z.to_nat 2) sel
      ∧ (0 < 2 ≤ Z.of_nat (sum_list (map unit_count cand3)))%Z
      ∧ sum_gw (find_subset_match_exploded cand3 2 7 3 TOL)
        = Some (sum_at (map unit_GW (explode_by_pkg cand3)) sel)
      ∧ sum_cbm (find_subset_match_exploded cand3 2 7 3 TOL)
        = Some (sum_at (map unit_CBM (explode_by_pkg cand3)) sel).
Proof.
  split_and!.
  - apply (find_subset_match_exploded_sound [] 2 7 3 TOL). by left.
  - apply (find_subset_match_exploded_sound [CandRow 11 0 5 5] 2 7 3 TOL);
      [discriminate | lia | reflexivity].
  - apply (find_subset_match_exploded_sound cand3 2 7 3 TOL). vm_compute. reflexivity.
Defined.

Lemma enhanced_subset_matching_consistent (cand_df : list cand_row) (k : Z)
    (gw_tgt cbm_tgt tol : Q) (use_exploded : bool) :
  result_consistent k gw_tgt cbm_tgt tol
    (enhanced_subset_matching cand_df k gw_tgt cbm_tgt tol use_exploded).
Proof.
  destruct (enhanced_subset_matching_cases cand_df k gw_tgt cbm_tgt tol use_exploded)
    as [->|[->|[_ ->]]].
  - apply result_consistent_not_found.
  - apply find_subset_match_consistent.
  - apply find_subset_match_exploded_consistent.
Qed.

(** X5.  [enhanced_subset_matching] refuses an empty frame or [k <= 0] as
    "no-candidate"; otherwise it reports found exactly when one of the
    strategies it ran does (matching whole rows, and matching units when
    [use_exploded] is set); what it returns is the result of one of them, a
    found exact match on whole rows being preferred to everything else; and
    its found flag agrees with its reported sums. *)
Theorem enhanced_subset_matching_found (cand_df : list cand_row) (k : Z)
    (gw_tgt cbm_tgt tol : Q) (use_exploded : bool) :
  (cand_df = [] ∨ (k ≤ 0)%Z →
   enhanced_subset_matching cand_df k gw_tgt cbm_tgt tol use_exploded
   = not_found "no-candidate")
  ∧ (cand_df ≠ [] → (0 < k)%Z →
     found (enhanced_subset_matching cand_df k gw_tgt cbm_tgt tol use_exploded)
     = found (find_subset_match (gw_cbm_columns cand_df) k gw_tgt cbm_tgt tol)
       || (use_exploded
           && found (find_subset_match_exploded cand_df k gw_tgt cbm_tgt tol))
     ∧ (enhanced_subset_matching cand_df k gw_tgt cbm_tgt tol use_exploded
        = find_subset_match (gw_cbm_columns cand_df) k gw_tgt cbm_tgt tol
        ∨ (use_exploded = true
           ∧ enhanced_subset_matching cand_df k gw_tgt cbm_tgt tol use_exploded
             = find_subset_match_exploded cand_df k gw_tgt cbm_tgt tol))
     ∧ (found (find_subset_match (gw_cbm_columns cand_df) k gw_tgt cbm_tgt tol)
        = true →
        method (find_subset_match (gw_cbm_columns cand_df) k gw_tgt cbm_tgt tol)
        = "exact" →
        enhanced_subset_matching cand_df k gw_tgt cbm_tgt tol use_exploded
        = find_subset_match (gw_cbm_columns cand_df) k gw_tgt cbm_tgt tol))
  ∧ found (enhanced_subset_matching cand_df k gw_tgt cbm_tgt tol use_exploded)
    = within_opt
        (sum_gw (enhanced_subset_matching cand_df k gw_tgt cbm_tgt tol use_exploded))
        gw_tgt tol
      && within_opt
           (sum_cbm (enhanced_subset_matching cand_df k gw_tgt cbm_tgt tol use_exploded))
           cbm_tgt tol.
Proof.
  split_and!.
  - intros Hbad. unfold enhanced_subset_matching.
    assert (bool_decide (cand_df = []) || (k <=? 0)%Z = true) as ->; [|done].
    apply orb_true_iff.
    destruct Hbad; [left; by apply bool_decide_eq_true | right; by apply Z.leb_le].
  - intros Hne Hk. unfold enhanced_subset_matching.
    assert (bool_decide (cand_df = []) || (k <=? 0)%Z = false) as ->.
    { apply orb_false_iff. split; [by apply bool_decide_eq_false | by apply Z.leb_gt]. }
    set (r1 := find_subset_match _ _ _ _ _).
    set (r2 := find_subset_match_exploded _ _ _ _ _).
    destruct use_exploded, (found r1) eqn:H1, (found r2) eqn:H2; simpl;
      try (destruct (str_in "exact" (method r1)) eqn:E1);
      try (destruct (str_in "exact" (method r2)) eqn:E2); simpl;
      try (destruct (xlt _ _)); rewrite ?H1, ?H2.
    all: split; [done|]; split; [first [by left | by right]|].
    all: intros Hf Hm; first [done | by rewrite Hm in E1].
  - apply (enhanced_subset_matching_consistent cand_df k gw_tgt cbm_tgt tol use_exploded).
Qed.

Lemma enhanced_subset_matching_found_witness :
  enhanced_subset_matching [] 2 7 3 TOL true = not_found "no-candidate"
  ∧ found (enhanced_subset_matching cand3 2 7 3 TOL true)
    = found (find_subset_match (gw_cbm_columns cand3) 2 7 3 TOL)
      || (true && found (find_subset_match_exploded cand3 2 7 3 TOL))
  ∧ enhanced_subset_matching cand3 2 14 6 TOL true
    = find_subset_match (gw_cbm_columns cand3) 2 14 6 TOL.
Proof.
  split_and!.
  - apply (enhanced_subset_matching_found [] 2 7 3 TOL true). by left.
  - destruct (enhanced_subset_matching_found cand3 2 7 3 TOL true) as (_ & H & _).
    destruct H as (H & _); [discriminate | lia | exact H].
  - destruct (enhanced_subset_matching_found cand3 2 14 6 TOL true) as (_ & H & _).
    destruct H as (_ & _ & H); [discriminate | lia |].
    apply H; vm_compute; reflexivity.
Defined.

(** ** The verdict for one invoice line *)

Lemma int_of_float_ge_1 (q : Q) :
  1 <= q → int_of_float q = Qfloor q ∧ (0 < Qfloor q)%Z.
Proof.
  intros Hq. pose proof (Qfloor_resp_le _ _ Hq) as Hf.
  change (Qfloor 1) with 1%Z in Hf.
  split; [apply int_of_float_floor|]; lia.
Qed.

Lemma int_of_float_lt_1 (q : Q) : q < 1 → (int_of_float q ≤ 0)%Z.
Proof.
  intros Hq. apply int_of_float_floor.
  destruct (Z.le_gt_cases (Qfloor q) 0) as [|Hpos]; [done|]. exfalso.
  assert (H1 : 1 <= inject_Z (Qfloor q)).
  { change 1 with (inject_Z 1). rewrite <- Zle_Qle. lia. }
  pose proof (Qfloor_le q) as Hle.
  apply (Qlt_irrefl q). eapply Qlt_le_trans; [exact Hq|].
  by eapply Qle_trans.
Qed.

Lemma passed_iff_found (k : Z) (gw_tgt cbm_tgt tol : Q) (res : match_result) :
  result_consistent k gw_tgt cbm_tgt tol res →
  (Z.of_nat (length (picked res)) =? k)%Z
  && within_opt (sum_gw res) gw_tgt tol && within_opt (sum_cbm res) cbm_tgt tol
  = found res.
Proof.
  intros [Hf Hl]. rewrite <- andb_assoc, <- Hf.
  destruct (found res); [|apply andb_false_r].
  destruct (Hl eq_refl) as [Hk ->]. rewrite Z2Nat.id by lia.
  by rewrite Z.eqb_refl.
Qed.

(** X6.  [_match_one_code] answers FAIL with reason INVALID_PKG_COUNT when
    the package count of the line is missing or below 1, whatever the
    candidates; with a count of at least 1 (floored to [k]) it answers FAIL
    with NO_CANDIDATE for an empty frame and FAIL with NO_UNITS for a frame
    without a single unit; otherwise its verdict is PASS exactly when
    [enhanced_subset_matching] reports found, in which case the reason is
    empty, [k] entries were picked and both reported sums are within the
    tolerance, and the reason of a FAIL is "PKG/GW/CBM MISMATCH". *)
Theorem match_one_code_verdict (inv_row : inv_row) (cand_df : list cand_row)
    (tol : Q) (q : Q) :
  (No_of_Pkgs inv_row = None ∨ (No_of_Pkgs inv_row = Some q ∧ q < 1) →
   _match_one_code inv_row cand_df tol
   = CodeMatch "FAIL" None None "" 0 "INVALID_PKG_COUNT")
  ∧ (No_of_Pkgs inv_row = Some q → 1 <= q →
     (cand_df = [] →
      _match_one_code inv_row cand_df tol
      = CodeMatch "FAIL" None None "" 0 "NO_CANDIDATE")
     ∧ (cand_df ≠ [] → sum_list (map unit_count cand_df) = 0%nat →
        _match_one_code inv_row cand_df tol
        = CodeMatch "FAIL" None None "" 0 "NO_UNITS")
     ∧ (cand_df ≠ [] → sum_list (map unit_count cand_df) ≠ 0%nat →
        (Match_Status (_match_one_code inv_row cand_df tol) = "PASS"
         ↔ found (enhanced_subset_matching cand_df (Qfloor q)
                    (default 0.0 (Weight_kg inv_row))
                    (default 0.0 (inv_CBM inv_row)) tol true) = true)
        ∧ (Match_Status (_match_one_code inv_row cand_df tol) = "PASS" →
           Reason (_match_one_code inv_row cand_df tol) = ""
           ∧ Picked_Count (_match_one_code inv_row cand_df tol)
             = Z.to_nat (Qfloor q)
           ∧ within_opt (GW_SumPicked (_match_one_code inv_row cand_df tol))
               (default 0.0 (Weight_kg inv_row)) tol = true
           ∧ within_opt (CBM_SumPicked (_match_one_code inv_row cand_df tol))
               (default 0.0 (inv_CBM inv_row)) tol = true)
        ∧ (Match_Status (_match_one_code inv_row cand_df tol) ≠ "PASS" →
           Match_Status (_match_one_code inv_row cand_df tol) = "FAIL"
           ∧ Reason (_match_one_code inv_row cand_df tol) = "PKG/GW/CBM MISMATCH"))).
Proof.
  split.
  - intros Hbad. unfold _match_one_code.
    destruct Hbad as [->|[-> Hq]]; [done|].
    destruct (Qltb 0 q); [|done].
    by destruct (Z.leb_spec (int_of_float q) 0); [|pose proof (int_of_float_lt_1 q Hq); lia].
  - intros Hsome Hq. destruct (int_of_float_ge_1 q Hq) as [Hint Hpos].
    assert (Hlt : Qltb 0 q = true).
    { apply Qltb_lt. eapply Qlt_le_trans; [|exact Hq]. reflexivity. }
    pose proof (length_explode_by_pkg cand_df) as Hlen.
    unfold _match_one_code. rewrite Hsome, Hlt, Hint.
    destruct (Z.leb_spec (Qfloor q) 0) as [|_]; [lia|].
    split_and!.
    + intros ->. done.
    + intros Hne Hzero. rewrite bool_decide_eq_false_2 by done.
      by rewrite Hlen, Hzero.
    + intros Hne Hunits. rewrite bool_decide_eq_false_2 by done.
      rewrite Hlen. destruct (Nat.eqb_spec (sum_list (map unit_count cand_df)) 0); [done|].
      set (res := enhanced_subset_matching _ _ _ _ _ _).
      pose proof (enhanced_subset_matching_consistent cand_df (Qfloor q)
                    (default 0.0 (Weight_kg inv_row)) (default 0.0 (inv_CBM inv_row))
                    tol true) as Hcons.
      fold res in Hcons.
      rewrite (passed_iff_found _ _ _ _ _ Hcons).
      destruct Hcons as [Hf Hl].
      destruct (found res) eqn:Hfound; simpl.
      * split_and!; [done| |done].
        intros _. destruct (Hl eq_refl) as [_ Hpk].
        symmetry in Hf. apply andb_true_iff in Hf as [? ?].
        by split_and!.
      * split_and!; [split; discriminate | discriminate | done].
Qed.

Lemma match_one_code_verdict_witness :
  _match_one_code (InvRow (Some 0.5) (Some 7) (Some 3)) cand3 TOL
  = CodeMatch "FAIL" None None "" 0 "INVALID_PKG_COUNT"
  ∧ _match_one_code (InvRow (Some 2) (Some 7) (Some 3)) [] TOL
    = CodeMatch "FAIL" None None "" 0 "NO_CANDIDATE"
  ∧ _match_one_code (InvRow (Some 2) (Some 7) (Some 3)) [CandRow 11 0 5 5] TOL
    = CodeMatch "FAIL" None None "" 0 "NO_UNITS"
  ∧ Match_Status (_match_one_code (InvRow (Some 2.5) (Some 7) (Some 3)) cand3 TOL)
    = "PASS".
Proof.
  split_and!.
  - apply (match_one_code_verdict (InvRow (Some 0.5) (Some 7) (Some 3)) cand3 TOL 0.5).
    right. split; reflexivity.
  - destruct (match_one_code_verdict (InvRow (Some 2) (Some 7) (Some 3)) [] TOL 2)
      as [_ H].
    destruct (H eq_refl) as (H1 & _); [discriminate|]. by apply H1.
  - destruct (match_one_code_verdict (InvRow (Some 2) (Some 7) (Some 3))
                [CandRow 11 0 5 5] TOL 2) as [_ H].
    destruct (H eq_refl) as (_ & H2 & _); [discriminate|].
    apply H2; [discriminate | reflexivity].
  - destruct (match_one_code_verdict (InvRow (Some 2.5) (Some 7) (Some 3)) cand3 TOL 2.5)
      as [_ H].
    destruct (H eq_refl) as (_ & _ & H3); [discriminate|].
    destruct H3 as ((_ & Hpass) & _); [discriminate | vm_compute; lia |].
    apply Hpass. vm_compute. reflexivity.
Defined.

(** ** Warehouse names *)

Lemma rstrip_idemp (s : string) : rstrip (rstrip s) = rstrip s.
Proof.
  induction s as [|a s IH]; [done|]. simpl.
  destruct (rstrip s) as [|b r] eqn:E.
  - destruct (is_space a) eqn:Ea; [done|]. simpl. by rewrite Ea.
  - change (rstrip (String a (String b r))) with
      (match rstrip (String b r) with
       | EmptyString => if is_space a then EmptyString else String a EmptyString
       | r0 => String a r0 end).
    by rewrite IH.
Qed.

Lemma lstrip_head_kept (s : string) : head_kept (lstrip s) = true.
Proof.
  induction s as [|a s IH]; [done|]. simpl.
  destruct (is_space a) eqn:Ea; [done|]. simpl. by rewrite Ea.
Qed.

Lemma head_kept_lstrip (s : string) : head_kept s = true → lstrip s = s.
Proof. destruct s as [|a s]; [done|]. simpl. destruct (is_space a); [discriminate|done]. Qed.

Lemma head_kept_rstrip (s : string) : head_kept s = true → head_kept (rstrip s) = true.
Proof.
  destruct s as [|a s]; [done|]. simpl. intros Ha.
  destruct (rstrip s); [|done]. destruct (is_space a) eqn:Ea; [discriminate|]. simpl. by rewrite Ea.
Qed.

Lemma strip_idemp (s : string) : strip (strip s) = strip s.
Proof.
  unfold strip.
  rewrite (head_kept_lstrip (rstrip (lstrip s))).
  - apply rstrip_idemp.
  - apply head_kept_rstrip, lstrip_head_kept.
Qed.

Lemma strip_blank (s : string) : str_all is_space s = true → strip s = "".
Proof.
  unfold strip. induction s as [|a s IH]; [done|]. simpl.
  intros [Ha Hs]%andb_true_iff. rewrite Ha. by apply IH.
Qed.

Lemma first_standard_name_Some (test : list string → bool)
    (mapping : list (string * list string)) (std : string) :
  first_standard_name test mapping = Some std →
  ∃ variants, (std, variants) ∈ mapping ∧ test variants = true.
Proof.
  unfold first_standard_name. destruct (find _ mapping) as [[k vs]|] eqn:E; [|done].
  intros [= <-]. apply find_some in E as [Hin Ht].
  exists vs. split; [by apply list_elem_of_In|done].
Qed.

Lemma first_standard_name_None (test : list string → bool)
    (mapping : list (string * list string)) :
  first_standard_name test mapping = None →
  ∀ std variants, (std, variants) ∈ mapping → test variants = false.
Proof.
  unfold first_standard_name. destruct (find _ mapping) eqn:E; [done|].
  intros _ std vs Hin. apply list_elem_of_In in Hin.
  exact (find_none _ _ E _ Hin).
Qed.

Lemma first_standard_name_agree (test1 test2 : list string → bool)
    (mapping : list (string * list string)) :
  (∀ std variants, (std, variants) ∈ mapping → test1 variants = test2 variants) →
  first_standard_name test1 mapping = first_standard_name test2 mapping.
Proof.
  unfold first_standard_name. induction mapping as [|[k vs] m IH]; [done|].
  intros H. simpl. rewrite (H k vs) by apply list_elem_of_here.
  destruct (test2 vs); [done|]. apply IH. intros std v Hin.
  apply (H std). by apply list_elem_of_further.
Qed.

Lemma is_variant_elem (name : string) (variants : list string) :
  is_variant name variants = true ↔ name ∈ variants.
Proof.
  unfold is_variant. rewrite existsb_exists. split.
  - intros (v & Hin & ->%String.eqb_eq). by apply list_elem_of_In.
  - intros Hin. exists name. split; [by apply list_elem_of_In|apply String.eqb_refl].
Qed.

Lemma listed_variant_elem (v : string) :
  v ∈ listed_variants ↔ ∃ std variants, (std, variants) ∈ WAREHOUSE_NAME_MAPPING ∧ v ∈ variants.
Proof.
  unfold listed_variants. rewrite list_elem_of_join. split.
  - intros (vs & Hv & Hvs). apply list_elem_of_fmap in Hvs as ([k vs'] & -> & Hin).
    by exists k, vs'.
  - intros (k & vs & Hin & Hv). exists vs. split; [done|].
    apply list_elem_of_fmap. by exists (k, vs).
Qed.

Ltac list_cases H :=
  repeat (apply elem_of_cons in H as [H|H]; [try subst|]);
  [..|by apply elem_of_nil in H].

Lemma normalize_exact (s v std : string) (variants : list string) :
  (std, variants) ∈ WAREHOUSE_NAME_MAPPING → v ∈ variants → strip s = v →
  s ≠ "" ∧ first_standard_name (is_variant v) WAREHOUSE_NAME_MAPPING = Some std
  ∧ first_standard_name
      (fun variants => is_variant v variants || partial_match (lower v) variants)
      WAREHOUSE_NAME_MAPPING
    = Some (if bool_decide (v ∈ ["Hauler Indoor"; "HaulerIndoor"])
            then "DSV Indoor" else std).
Proof.
  intros Hm Hv Hs.
  assert (Hne : s ≠ "").
  { intros ->. vm_compute in Hs. subst v. list_cases Hm; inversion Hm; subst; list_cases Hv; discriminate. }
  split; [done|]. clear s Hs Hne.
  list_cases Hm; inversion Hm; subst; list_cases Hv; by vm_compute.
Qed.

Lemma standard_name_fixed (std : string) :
  std ∈ standard_names →
  std ≠ "" ∧ strip std = std ∧ normalize_warehouse_name (Some std) = std.
Proof. intros H. unfold standard_names in H. simpl in H. list_cases H; by vm_compute. Qed.

Lemma standard_name_listed (std : string) (variants : list string) :
  (std, variants) ∈ WAREHOUSE_NAME_MAPPING → std ∈ standard_names.
Proof. intros H. apply list_elem_of_fmap. by exists (std, variants). Qed.

Lemma normalized_cases (name : option string) (r : string) :
  normalize_warehouse_name name = r →
  r ≠ "" ∧ strip r = r ∧ normalize_warehouse_name (Some r) = r
  ∧ (r ∈ standard_names
     ∨ ((r ∉ listed_variants)
        ∧ (r = "Unknown"
           ∨ (∃ s, name = Some s ∧ s ≠ "" ∧ r = strip s
                   ∧ first_standard_name (partial_match (lower r))
                       WAREHOUSE_NAME_MAPPING = None)))).
Proof.
  assert (Hunk : r = "Unknown" → r ≠ "" ∧ strip r = r
                 ∧ normalize_warehouse_name (Some r) = r
                 ∧ (r ∈ standard_names
                    ∨ ((r ∉ listed_variants)
                       ∧ (r = "Unknown"
                          ∨ (∃ s, name = Some s ∧ s ≠ "" ∧ r = strip s
                                  ∧ first_standard_name (partial_match (lower r))
                                      WAREHOUSE_NAME_MAPPING = None))))).
  { intros ->. split_and!; [done|by vm_compute|by vm_compute|].
    right. split; [|by left]. intros H. vm_compute in H. list_cases H; discriminate. }
  destruct name as [s|]; [|by intros <-; apply Hunk].
  unfold normalize_warehouse_name at 1.
  destruct (String.eqb_spec s "") as [->|Hs]; [by intros <-; apply Hunk|]. clear Hunk.
  destruct (first_standard_name (is_variant (strip s)) _) as [std|] eqn:E1.
  { intros <-. apply first_standard_name_Some in E1 as (vs & Hin & _).
    apply standard_name_listed in Hin.
    destruct (standard_name_fixed _ Hin) as (? & ? & ?). by split_and!; [..|left]. }
  destruct (first_standard_name (partial_match (lower (strip s))) _) as [std|] eqn:E2.
  { intros <-. apply first_standard_name_Some in E2 as (vs & Hin & _).
    apply standard_name_listed in Hin.
    destruct (standard_name_fixed _ Hin) as (? & ? & ?). by split_and!; [..|left]. }
  intros <-.
  assert (Hne : strip s ≠ "").
  { intros Hz. rewrite Hz in E2. by vm_compute in E2. }
  split_and!; [done|apply strip_idemp| |].
  - unfold normalize_warehouse_name.
    destruct (String.eqb_spec (strip s) ""); [done|].
    by rewrite strip_idemp, E1, E2.
  - right. split; [|right; by exists s].
    intros (std & vs & Hin & Hv)%listed_variant_elem.
    apply is_variant_elem in Hv.
    by rewrite (first_standard_name_None _ _ E1 std vs Hin) in Hv.
Qed.

(** X7.  Every variant listed in [WAREHOUSE_NAME_MAPPING], with or without
    surrounding white space, is normalised to the standard name under
    which it is listed, and the billing mode of that name is known. *)
Theorem normalize_warehouse_name_variants (std : string)
    (variants : list string) (v s : string) :
  (std, variants) ∈ WAREHOUSE_NAME_MAPPING → v ∈ variants → strip s = v →
  normalize_warehouse_name (Some s) = std
  ∧ get_billing_mode (normalize_warehouse_name (Some s)) ≠ "unknown".
Proof.
  intros Hm Hv Hs.
  destruct (normalize_exact s v std variants Hm Hv Hs) as (Hne & E & _).
  assert (Hn : normalize_warehouse_name (Some s) = std).
  { unfold normalize_warehouse_name.
    destruct (String.eqb_spec s ""); [done|]. by rewrite Hs, E. }
  split; [done|]. rewrite Hn. clear -Hm.
  list_cases Hm; inversion Hm; subst; by vm_compute.
Qed.

Lemma normalize_warehouse_name_variants_witness :
  normalize_warehouse_name (Some "  DSVIndoor ") = "DSV Indoor"
  ∧ get_billing_mode (normalize_warehouse_name (Some "  DSVIndoor ")) ≠ "unknown".
Proof.
  apply (normalize_warehouse_name_variants "DSV Indoor"
           ["DSV Indoor"; "DSVIndoor"; "Indoor"] "DSVIndoor" "  DSVIndoor ").
  - apply list_elem_of_further, list_elem_of_here.
  - apply list_elem_of_further, list_elem_of_here.
  - reflexivity.
Defined.

(** X8.  [normalize_warehouse_name] is idempotent; its result is never
    empty and carries no surrounding white space; and it is a standard
    name, the text "Unknown", or the stripped input, the latter only when
    the input is none of the listed variants. *)
Theorem normalize_warehouse_name_idempotent (name : option string) :
  normalize_warehouse_name (Some (normalize_warehouse_name name))
  = normalize_warehouse_name name
  ∧ normalize_warehouse_name name ≠ ""
  ∧ strip (normalize_warehouse_name name) = normalize_warehouse_name name
  ∧ (normalize_warehouse_name name ∈ standard_names
     ∨ normalize_warehouse_name name = "Unknown"
     ∨ (∃ s, name = Some s ∧ normalize_warehouse_name name = strip s
             ∧ strip s ∉ listed_variants)).
Proof.
  destruct (normalized_cases name _ eq_refl) as (Hne & Hs & Hi & Hc).
  split_and!; try done.
  destruct Hc as [?|[Hl [?|(s & ? & ? & Hr & ?)]]]; [by left|by right; left|].
  right; right. exists s. split_and!; try done. by rewrite <- Hr.
Qed.

(** X9.  A name of white space only matches the first entry of the
    dictionary partially, the empty text being part of every text: both
    variants of the function turn it into "DSV Al Markaz", which is then
    billed by rate at 47; only the empty text itself is "Unknown" in the
    main script. *)
Theorem normalize_warehouse_name_blank (s : string) :
  str_all is_space s = true →
  Safe.normalize_warehouse_name (Some s) = "DSV Al Markaz"
  ∧ (s ≠ "" →
     normalize_warehouse_name (Some s) = "DSV Al Markaz"
     ∧ get_billing_mode (normalize_warehouse_name (Some s)) = "rate"
     ∧ get_warehouse_rate (normalize_warehouse_name (Some s)) == 47)
  ∧ (s = "" → normalize_warehouse_name (Some s) = "Unknown").
Proof.
  intros Hb. pose proof (strip_blank s Hb) as Hs.
  split_and!.
  - unfold Safe.normalize_warehouse_name. by rewrite Hs.
  - intros Hne.
    assert (Hn : normalize_warehouse_name (Some s) = "DSV Al Markaz").
    { unfold normalize_warehouse_name.
      destruct (String.eqb_spec s ""); [done|]. by rewrite Hs. }
    rewrite Hn. by vm_compute.
  - by intros ->.
Qed.

Lemma normalize_warehouse_name_blank_witness :
  Safe.normalize_warehouse_name (Some "  ") = "DSV Al Markaz"
  ∧ normalize_warehouse_name (Some "  ") = "DSV Al Markaz"
  ∧ normalize_warehouse_name (Some "") = "Unknown".
Proof.
  split_and!.
  - destruct (normalize_warehouse_name_blank "  ") as (H & _ & _); [reflexivity|].
    exact H.
  - destruct (normalize_warehouse_name_blank "  ") as (_ & H & _); [reflexivity|].
    destruct H as (H & _); [discriminate|exact H].
  - destruct (normalize_warehouse_name_blank "") as (_ & _ & H); [reflexivity|].
    by apply H.
Defined.

Lemma not_listed_variant (t : string) :
  t ∉ listed_variants →
  first_standard_name (is_variant t) WAREHOUSE_NAME_MAPPING = None
  ∧ first_standard_name
      (fun variants => is_variant t variants || partial_match (lower t) variants)
      WAREHOUSE_NAME_MAPPING
    = first_standard_name (partial_match (lower t)) WAREHOUSE_NAME_MAPPING.
Proof.
  intros Hn.
  assert (Hv : ∀ std variants, (std, variants) ∈ WAREHOUSE_NAME_MAPPING →
               is_variant t variants = false).
  { intros std vs Hin. apply not_true_is_false. intros Hv%is_variant_elem.
    apply Hn, listed_variant_elem. by exists std, vs. }
  split.
  - destruct (first_standard_name (is_variant t) _) as [std|] eqn:E; [|done].
    apply first_standard_name_Some in E as (vs & Hin & Ht).
    by rewrite (Hv std vs Hin) in Ht.
  - apply first_standard_name_agree. intros std vs Hin. by rewrite (Hv std vs Hin).
Qed.

(** X10.  The two variants of [normalize_warehouse_name] agree on
    every name but the empty text and the names that strip to
    "Hauler Indoor" or "HaulerIndoor": the single pass of the recover
    build answers "DSV Indoor" for these two, as "indoor" is part of them
    and the entry "DSV Indoor" comes first, and "DSV Al Markaz" for the
    empty text. *)
Theorem normalize_warehouse_name_versions (name : option string) :
  (Safe.normalize_warehouse_name name ≠ normalize_warehouse_name name
   ↔ ∃ s, name = Some s
          ∧ (s = "" ∨ strip s = "Hauler Indoor" ∨ strip s = "HaulerIndoor"))
  ∧ (∀ s, name = Some s →
          strip s = "Hauler Indoor" ∨ strip s = "HaulerIndoor" →
          normalize_warehouse_name name = "Hauler Indoor"
          ∧ Safe.normalize_warehouse_name name = "DSV Indoor")
  ∧ (name = Some "" →
     normalize_warehouse_name name = "Unknown"
     ∧ Safe.normalize_warehouse_name name = "DSV Al Markaz").
Proof.
  assert (Hh : ∀ s, strip s = "Hauler Indoor" ∨ strip s = "HaulerIndoor" →
               normalize_warehouse_name (Some s) = "Hauler Indoor"
               ∧ Safe.normalize_warehouse_name (Some s) = "DSV Indoor").
  { intros s Hs. unfold normalize_warehouse_name, Safe.normalize_warehouse_name.
    destruct (String.eqb_spec s "") as [->|_].
    - by destruct Hs as [Hs|Hs]; vm_compute in Hs.
    - by destruct Hs as [-> | ->]. }
  split_and!.
  - destruct name as [s|]; [|split; [done|by intros (s & ? & _)]].
    destruct (decide (strip s ∈ listed_variants)) as [Hl|Hl].
    + pose proof Hl as (std & vs & Hm & Hv)%listed_variant_elem.
      destruct (normalize_exact s _ std vs Hm Hv eq_refl) as (Hne & E1 & E2).
      unfold normalize_warehouse_name, Safe.normalize_warehouse_name.
      destruct (String.eqb_spec s ""); [done|]. rewrite E1, E2.
      case_bool_decide as Hb.
      * split; [|intros _].
        -- intros _. exists s. split; [done|]. right.
           by list_cases Hb; [left|right].
        -- destruct (Hh s) as [Hn _]; [by list_cases Hb; [left|right]|].
           unfold normalize_warehouse_name in Hn.
           destruct (String.eqb_spec s ""); [done|]. rewrite E1 in Hn.
           by rewrite Hn.
      * split; [done|]. intros (s' & [= <-] & [?|Hs]); [done|].
        exfalso. apply Hb. destruct Hs as [-> | ->].
        -- apply list_elem_of_here.
        -- apply list_elem_of_further, list_elem_of_here.
    + destruct (not_listed_variant _ Hl) as [E1 E2].
      unfold normalize_warehouse_name, Safe.normalize_warehouse_name.
      rewrite E1, E2.
      destruct (String.eqb_spec s "") as [->|Hne].
      * split; [intros _; exists ""; by split; [|left]|]. by intros _.
      * split; [done|]. intros (s' & [= <-] & [?|Hs]); [done|].
        exfalso. apply Hl. unfold listed_variants. simpl.
        destruct Hs as [-> | ->];
          repeat first [apply list_elem_of_here | apply list_elem_of_further].
  - intros s ->. apply Hh.
  - by intros ->.
Qed.

Lemma billing_of_standard_name (w : string) :
  w ∈ standard_names →
  get_billing_mode w ≠ "unknown"
  ∧ Safe.get_billing_mode w = get_billing_mode w
  ∧ (get_billing_mode w = "rate" ↔ ¬ get_warehouse_rate w == 0).
Proof.
  intros H. unfold standard_names in H. simpl in H.
  list_cases H; (split_and!; [by vm_compute|by vm_compute|]);
    (split; [intros Hm; try (by vm_compute in Hm); by vm_compute
            |intros Hr; try (by vm_compute); exfalso; apply Hr; by vm_compute]).
Qed.

Lemma billing_of_other_name (w : string) :
  w ∉ standard_names →
  Safe.get_billing_mode w = "unknown" ∧ WAREHOUSE_RATES !! w = None.
Proof.
  intros H. unfold standard_names in H. simpl in H.
  repeat (apply not_elem_of_cons in H as [? H]).
  split.
  - unfold Safe.get_billing_mode, BILLING_MODE_RATE, BILLING_MODE_PASSTHROUGH,
      BILLING_MODE_NO_CHARGE.
    rewrite !bool_decide_eq_false_2; [done|set_unfold; intuition congruence..].
  - unfold WAREHOUSE_RATES. by rewrite !lookup_insert_ne.
Qed.

(** X11.  On a normalised name the billing functions agree with each
    other: the mode is "unknown" exactly when the name is no standard name,
    the mode is "rate" exactly when the contract rate is not zero, and the
    two variants of [get_billing_mode] give the same mode. *)
Theorem billing_of_normalized_name (name : option string) :
  (get_billing_mode (normalize_warehouse_name name) = "unknown"
   ↔ normalize_warehouse_name name ∉ standard_names)
  ∧ (get_billing_mode (normalize_warehouse_name name) = "rate"
     ↔ ¬ get_warehouse_rate (normalize_warehouse_name name) == 0)
  ∧ Safe.get_billing_mode (normalize_warehouse_name name)
    = get_billing_mode (normalize_warehouse_name name).
Proof.
  destruct (normalized_cases name _ eq_refl) as (Hne & Hs & _ & _).
  generalize dependent (normalize_warehouse_name name). intros r Hne Hs.
  destruct (decide (r ∈ standard_names)) as [Hin|Hout].
  - destruct (billing_of_standard_name r Hin) as (? & ? & ?). by split_and!.
  - destruct (billing_of_other_name r Hout) as [Hm Hr].
    assert (Hg : get_billing_mode r = "unknown").
    { rewrite <- Hm. unfold get_billing_mode, Safe.get_billing_mode.
      destruct (String.eqb_spec r ""); [done|]. by rewrite Hs. }
    unfold get_warehouse_rate. rewrite Hg, Hm, Hr. split_and!; [done| |done].
    split; [done|]. intros H. exfalso. by apply H.
Qed.

Lemma normalize_warehouse_name_versions_witness :
  normalize_warehouse_name (Some " HaulerIndoor") = "Hauler Indoor"
  ∧ Safe.normalize_warehouse_name (Some " HaulerIndoor") = "DSV Indoor"
  ∧ normalize_warehouse_name (Some "") = "Unknown"
  ∧ Safe.normalize_warehouse_name (Some "") = "DSV Al Markaz".
Proof.
  destruct (normalize_warehouse_name_versions (Some " HaulerIndoor"))
    as (_ & H & _).
  destruct (H " HaulerIndoor" eq_refl) as [H1 H2]; [by right|].
  destruct (normalize_warehouse_name_versions (Some "")) as (_ & _ & H').
  destruct (H' eq_refl) as [H3 H4].
  by split_and!.
Defined.

(** ** Reason codes and exceptions *)

Lemma status_values (delta_thr : Q) (row : charge_row) :
  _status delta_thr row = "PASS" ∨ _status delta_thr row = "FAIL".
Proof.
  unfold _status.
  repeat match goal with |- context [if ?b then _ else _] => destruct b end;
    first [by left | by right].
Qed.

Lemma safe_billing_mode_values (wh : string) :
  Safe.get_billing_mode wh ∈ ["rate"; "passthrough"; "no-charge"; "unknown"].
Proof.
  unfold Safe.get_billing_mode.
  repeat case_bool_decide;
    repeat first [apply list_elem_of_here | apply list_elem_of_further].
Qed.

(** X12.  In the frame of [create_monthly_charges_match], where the
    expected mode and the contract rate come from the warehouse, the reason
    code is empty exactly when the status is PASS and, in rate mode, the
    invoice rate is missing or within 1e-6 of the contract rate; a rate row
    whose invoice rate differs by more gets RATE_DIFF whatever its status;
    every other FAIL carries the mismatch code of its mode; and a warehouse
    of unknown mode always fails with MODE_MISSING. *)
Theorem reason_code_of_status (delta_thr : Q) (Warehouse : string)
    (System_Avg_SQM System_Amount : Q) (Invoice_Amount Invoice_Rate : option Q) :
  let row := merged_row Warehouse System_Avg_SQM System_Amount Invoice_Amount in
  let rate_diff :=
    Expected_Mode row = "rate"
    ∧ ∃ rate, Invoice_Rate = Some rate ∧ 1e-6 < Qabs (rate - Contract_Rate row) in
  let Status := _status delta_thr row in
  let Reason_Code := _reason row Invoice_Rate Status in
  (Reason_Code = "" ↔ Status = "PASS" ∧ ¬ rate_diff)
  ∧ (rate_diff → Reason_Code = "RATE_DIFF")
  ∧ (Status = "FAIL" → ¬ rate_diff →
     Expected_Mode row = "unknown" ∧ Reason_Code = "MODE_MISSING"
     ∨ Expected_Mode row = "rate" ∧ Reason_Code = "PRORATION_MISMATCH"
     ∨ Expected_Mode row = "passthrough" ∧ Reason_Code = "PASSTHROUGH_MISMATCH"
     ∨ Expected_Mode row = "no-charge" ∧ Reason_Code = "NOCHARGE_VIOLATION")
  ∧ (Expected_Mode row = "unknown" →
     Status = "FAIL" ∧ Reason_Code = "MODE_MISSING").
Proof.
  intros row rate_diff Status Reason_Code.
  assert (Hdiff : rate_diff
                  ↔ Expected_Mode row = "rate"
                    ∧ match Invoice_Rate with
                      | Some rate => Qltb 1e-6 (Qabs (rate - Contract_Rate row))
                      | None => false
                      end = true).
  { unfold rate_diff. split.
    - intros (Hm & rate & -> & Hlt). split; [done|]. by apply Qltb_lt.
    - intros (Hm & Hr). split; [done|]. destruct Invoice_Rate as [rate|]; [|done].
      exists rate. split; [done|]. by apply Qltb_lt. }
  pose proof (status_values delta_thr row) as Hst. fold Status in Hst.
  assert (Hunk : Expected_Mode row = "unknown" → Status = "FAIL").
  { unfold Status, _status. by intros ->. }
  pose proof (safe_billing_mode_values Warehouse) as Hmode.
  change (Safe.get_billing_mode Warehouse) with (Expected_Mode row) in Hmode.
  unfold Reason_Code, _reason. rewrite Hdiff. clear Hdiff rate_diff Reason_Code.
  generalize dependent Status. intros Status Hst Hunk.
  generalize dependent (match Invoice_Rate with
                        | Some rate => Qltb 1e-6 (Qabs (rate - Contract_Rate row))
                        | None => false
                        end).
  generalize dependent (Expected_Mode row). clear -Hst.
  intros mode Hmode Hunk differs.
  list_cases Hmode; destruct differs; destruct Hst as [-> | ->]; simpl;
    (split_and!; [split; [try done|intros [? Hn]; try done]|..]).
  all: try (intros; intuition discriminate).
Qed.

Lemma reason_code_of_status_witness :
  _reason (merged_row "DSV Indoor" 100 0 (Some 4700)) (Some 47)
    (_status 0.02 (merged_row "DSV Indoor" 100 0 (Some 4700))) = ""
  ∧ _reason (merged_row "DSV Indoor" 100 0 (Some 4700)) (Some 0)
      (_status 0.02 (merged_row "DSV Indoor" 100 0 (Some 4700))) = "RATE_DIFF"
  ∧ _reason (merged_row "Shed 9" 100 0 (Some 4700)) None
      (_status 0.02 (merged_row "Shed 9" 100 0 (Some 4700))) = "MODE_MISSING".
Proof.
  split_and!.
  - destruct (reason_code_of_status 0.02 "DSV Indoor" 100 0 (Some 4700) (Some 47))
      as ([_ H] & _).
    apply H. split; [vm_compute; reflexivity|].
    intros (_ & rate & [= <-] & Hlt). vm_compute in Hlt. discriminate.
  - destruct (reason_code_of_status 0.02 "DSV Indoor" 100 0 (Some 4700) (Some 0))
      as (_ & H & _).
    apply H. split; [vm_compute; reflexivity|].
    exists 0. split; [reflexivity|vm_compute; reflexivity].
  - destruct (reason_code_of_status 0.02 "Shed 9" 100 0 (Some 4700) None)
      as (_ & _ & _ & H).
    apply H. vm_compute. reflexivity.
Defined.

Lemma grade_not_pass (delta_thr : Q) (row : charge_row) :
  negb (String.eqb (_grade delta_thr row) "PASS") = true
  ↔ _status delta_thr row = "FAIL".
Proof.
  unfold _grade.
  destruct (String.eqb (Expected_Mode row) "rate") eqn:Em.
  - unfold _status. rewrite Em.
    destruct (Qle_bool (Qabs (delta_pct row)) delta_thr); [done|].
    by destruct (Qle_bool (Qabs (delta_pct row)) 0.05).
  - by destruct (status_values delta_thr row) as [-> | ->].
Qed.

Lemma filter_sublist {A : Type} (f : A → bool) (l : list A) :
  List.filter f l `sublist_of` l.
Proof.
  induction l as [|x l IH]; simpl; [constructor|].
  destruct (f x); by constructor.
Qed.

(** X13.  The exceptions are exactly the rows of the monthly match whose
    status, under the same threshold, is FAIL, in the order of the match;
    a row listed with grade WARN is a rate row whose relative delta exceeds
    the threshold without exceeding 5%, and no listed row is graded PASS. *)
Theorem exception_rows_are_failures (delta_thr : Q)
    (match_df : list charge_row) :
  (∀ row, row ∈ exception_rows delta_thr match_df
          ↔ row ∈ match_df ∧ _status delta_thr row = "FAIL")
  ∧ exception_rows delta_thr match_df `sublist_of` match_df
  ∧ (∀ row, row ∈ exception_rows delta_thr match_df →
            _grade delta_thr row = "FAIL"
            ∨ (_grade delta_thr row = "WARN"
               ∧ Expected_Mode row = "rate"
               ∧ ¬ Qabs (delta_pct row) <= delta_thr
               ∧ Qabs (delta_pct row) <= 0.05)).
Proof.
  assert (Hmem : ∀ row, row ∈ exception_rows delta_thr match_df
                        ↔ row ∈ match_df ∧ _status delta_thr row = "FAIL").
  { intros row. unfold exception_rows.
    rewrite list_elem_of_In, filter_In, <- list_elem_of_In.
    by rewrite grade_not_pass. }
  split_and!; [done|apply filter_sublist|].
  intros row [_ Hfail]%Hmem. unfold _grade. unfold _status in Hfail.
  destruct (String.eqb_spec (Expected_Mode row) "rate") as [Hm|Hm].
  - destruct (Qle_bool (Qabs (delta_pct row)) delta_thr) eqn:E1; [done|].
    destruct (Qle_bool (Qabs (delta_pct row)) 0.05) eqn:E2; [right|by left].
    split_and!; [done|done| |by apply Qle_bool_iff].
    by apply Qle_bool_false.
  - left. unfold _status.
    by destruct (String.eqb_spec (Expected_Mode row) "rate").
Qed.

Lemma exception_rows_are_failures_witness :
  ChargeRow "rate" 100 47 0 (Some 4850)
  ∈ exception_rows 0.02 [ChargeRow "rate" 100 47 0 (Some 4700);
                         ChargeRow "rate" 100 47 0 (Some 4850)]
  ∧ _grade 0.02 (ChargeRow "rate" 100 47 0 (Some 4850)) = "WARN".
Proof.
  destruct (exception_rows_are_failures 0.02
              [ChargeRow "rate" 100 47 0 (Some 4700);
               ChargeRow "rate" 100 47 0 (Some 4850)]) as (Hmem & _ & Hgrade).
  assert (Hin : ChargeRow "rate" 100 47 0 (Some 4850)
                ∈ exception_rows 0.02 [ChargeRow "rate" 100 47 0 (Some 4700);
                                       ChargeRow "rate" 100 47 0 (Some 4850)]).
  { apply Hmem. split; [|vm_compute; reflexivity].
    apply list_elem_of_further, list_elem_of_here. }
  split; [exact Hin|].
  destruct (Hgrade _ Hin) as [Hf|[Hw _]]; [vm_compute in Hf; discriminate|exact Hw].
Defined.

(** ** Where the approximate matcher stops *)

Section RobustGreedyLocalOptimum.
Variables (values_gw values_cbm : list Q) (gw_tgt cbm_tgt tol : Q).

Abbreviation n := (length values_gw).
Abbreviation calculate_error := (calculate_error values_gw values_cbm gw_tgt cbm_tgt).
Abbreviation total_error := (total_error values_gw values_cbm gw_tgt cbm_tgt).
Abbreviation within_tol := (within_tol values_gw values_cbm gw_tgt cbm_tgt tol).
Abbreviation scan_replacements :=
  (scan_replacements values_gw values_cbm gw_tgt cbm_tgt).
Abbreviation swap_loop := (swap_loop values_gw values_cbm gw_tgt cbm_tgt tol).
Abbreviation local_search := (local_search values_gw values_cbm gw_tgt cbm_tgt tol).
Abbreviation final_result := (final_result values_gw values_cbm gw_tgt cbm_tgt tol).

(** Once a replacement is recorded the scan never forgets it. *)
Lemma scan_replacements_keeps (cands current : list nat) (i : nat)
    (ble : xerr) (r : nat) :
  (scan_replacements cands current i ble (Some r)).2 ≠ None.
Proof.
  revert ble r. induction cands as [|c cands IH]; intros ble r; simpl; [done|].
  case_bool_decide; [apply IH|].
  destruct (xlt _ ble); [|apply IH].
  destruct (xis0 _); [done|apply IH].
Qed.

(** A scan that records nothing has seen no trial below the error it
    started from. *)
Lemma scan_replacements_none (cands current : list nat) (i : nat) (start : xerr) :
  (scan_replacements cands current i start None).2 = None →
  ∀ r, r ∈ cands → r ∉ current →
       xlt (calculate_error (<[i:=r]> current)) start = false.
Proof.
  induction cands as [|c cands IH]; simpl; intros Hnone r Hr Hout.
  - by apply elem_of_nil in Hr.
  - case_bool_decide as Hin.
    + apply elem_of_cons in Hr as [->|Hr]; [done|by apply IH].
    + destruct (xlt (calculate_error (<[i:=c]> current)) start) eqn:Hlt.
      * exfalso. destruct (xis0 _); [done|].
        by eapply scan_replacements_keeps.
      * apply elem_of_cons in Hr as [->|Hr]; [done|by apply IH].
Qed.

(** The flag [improved] is never reset within a pass. *)
Lemma swap_loop_improved (positions current current' : list nat)
    (best_error best_error' : xerr) (improved' : bool) :
  swap_loop positions current best_error true
  = PassDone current' best_error' improved' → improved' = true.
Proof.
  revert current best_error.
  induction positions as [|i positions IH]; intros current best_error; simpl.
  - by intros [= _ _ <-].
  - destruct (scan_replacements _ current i best_error None) as [ble [r|]];
      [|apply IH].
    destruct (xlt ble best_error); [|apply IH].
    destruct (_ && _); [done|apply IH].
Qed.

(** A pass that improves nothing has tried every replacement. *)
Lemma swap_loop_unimproved (positions current current' : list nat)
    (best_error best_error' : xerr) :
  swap_loop positions current best_error false
  = PassDone current' best_error' false →
  current' = current
  ∧ ∀ i r, i ∈ positions → (r < n)%nat → r ∉ current →
           xlt (calculate_error (<[i:=r]> current)) best_error = false.
Proof.
  induction positions as [|i positions IH]; simpl.
  - intros [= <- _]. split; [done|]. intros i r Hi. by apply elem_of_nil in Hi.
  - pose proof (scan_replacements_inv values_gw values_cbm gw_tgt cbm_tgt
                  (seq 0 n) current i best_error best_error None) as Hinv.
    pose proof (scan_replacements_none (seq 0 n) current i best_error) as Hnone.
    destruct (scan_replacements _ current i best_error None) as [ble [r|]].
    + unfold scan_inv in Hinv. simpl in Hinv.
      destruct Hinv as (_ & _ & _ & Hlt);
        [intros c Hc%elem_of_seq; lia|done|].
      rewrite Hlt. destruct (_ && _); [done|].
      by intros ?%swap_loop_improved.
    + intros [-> Hrest]%IH. split; [done|].
      intros i' r [->|Hi]%elem_of_cons Hr Hout; [|by apply Hrest].
      apply Hnone; [done| |done]. apply elem_of_seq. lia.
Qed.

(** A search that neither reaches the target nor uses up its passes ends
    on a selection that no single replacement improves. *)
Lemma local_search_optimum (max_iter k : nat) (best : list nat) (be : xerr) :
  valid_sel n k best → be = calculate_error best →
  (local_search max_iter k best be).1.1.1.1 = false →
  (length (local_search max_iter k best be).2 < max_iter)%nat →
  ∀ i r, (i < k)%nat → (r < n)%nat →
         r ∉ (local_search max_iter k best be).1.1.1.2 →
         xlt (calculate_error (<[i:=r]> (local_search max_iter k best be).1.1.1.2))
             (calculate_error (local_search max_iter k best be).1.1.1.2) = false.
Proof.
  revert best be. induction max_iter as [|iters IH]; intros best be Hv Hbe; simpl.
  - intros _ Hlen. lia.
  - pose proof (swap_loop_spec values_gw values_cbm gw_tgt cbm_tgt tol
                  k (seq 0 k) best be false Hv Hbe) as Hspec.
    pose proof (fun current' be' =>
                  swap_loop_unimproved (seq 0 k) best current' be be') as Hun.
    destruct (swap_loop (seq 0 k) best be false) as [res|current be' improved].
    + destruct Hspec as (sel & -> & _). by simpl.
    + destruct Hspec as (Hv' & Hbe' & _).
      destruct improved.
      * specialize (IH current be' Hv' Hbe').
        destruct (local_search iters k current be') as [res log]. simpl in *.
        intros Hf Hlen. apply IH; [done|lia].
      * simpl. intros _ _ i r Hi Hr Hout.
        destruct (Hun current be' eq_refl) as [_ Hopt].
        rewrite <- Hbe. apply Hopt; [apply elem_of_seq; lia|done|done].
Qed.

(** The total error at the end of a chain of passes is at most the error at
    its start. *)
Lemma pass_chain_last (prev : list nat) (log : list (list nat)) (sel : list nat) :
  pass_chain values_gw values_cbm gw_tgt cbm_tgt tol prev log →
  last (prev :: log) = Some sel → total_error sel <= total_error prev.
Proof.
  revert prev. induction log as [|s log IH]; intros prev Hc Hl.
  - simpl in Hl. injection Hl as <-. apply Qle_refl.
  - destruct Hc as (_ & Hle & _ & Hc).
    rewrite last_cons_cons in Hl.
    eapply Qle_trans; [by apply IH|done].
Qed.
End RobustGreedyLocalOptimum.

(** X14.  For a request with [0 < k <= n], the selection returned by
    [robust_greedy_local] never has a larger total error than the greedy
    start; and when the search reports no match after fewer than [max_iter]
    passes, the returned selection is a local optimum: replacing any one of
    its [k] positions by any unpicked position of the pool does not lower
    the total error. *)
Theorem robust_greedy_local_local_optimum
    (values_gw values_cbm : list Q) (gw_tgt cbm_tgt tol : Q) (k : Z)
    (max_iter : nat) (found : bool) (sel : list nat) (gw cbm : option Q) :
  length values_gw = length values_cbm →
  (0 < k ≤ Z.of_nat (length values_gw))%Z →
  robust_greedy_local values_gw values_cbm gw_tgt cbm_tgt tol k max_iter
  = (found, sel, gw, cbm) →
  total_error values_gw values_cbm gw_tgt cbm_tgt sel
  <= total_error values_gw values_cbm gw_tgt cbm_tgt
       (greedy_start values_gw values_cbm gw_tgt cbm_tgt k)
  ∧ (found = false →
     (passes_run values_gw values_cbm gw_tgt cbm_tgt tol k max_iter < max_iter)%nat →
     swap_optimal values_gw values_cbm gw_tgt cbm_tgt (Z.to_nat k) sel).
Proof.
  intros Hlen Hk.
  assert (Hk' : (0 < Z.to_nat k)%nat) by lia.
  pose proof (greedy_start_valid values_gw values_cbm gw_tgt cbm_tgt (Z.to_nat k)
                Hlen ltac:(lia)) as Hv0.
  fold (greedy_start values_gw values_cbm gw_tgt cbm_tgt k) in Hv0.
  unfold robust_greedy_local, passes_run, pass_log, robust_greedy_local_run.
  fold (greedy_start values_gw values_cbm gw_tgt cbm_tgt k).
  assert ((Z.of_nat (length values_gw) <? k)%Z || (k <=? 0)%Z = false) as ->.
  { apply orb_false_iff. split; [apply Z.ltb_ge|apply Z.leb_gt]; lia. }
  simpl.
  destruct (close2 _ gw_tgt tol && close2 _ cbm_tgt tol) eqn:Hstart.
  { simpl. intros [= <- <- <- <-]. split; [apply Qle_refl|done]. }
  destruct (local_search_spec values_gw values_cbm gw_tgt cbm_tgt tol
              max_iter (Z.to_nat k) _ _ Hk' Hv0 eq_refl Hstart)
    as (sel' & Hres & Hv & Hlast & Hchain).
  pose proof (local_search_optimum values_gw values_cbm gw_tgt cbm_tgt tol
                max_iter (Z.to_nat k) _ _ Hv0 eq_refl) as Hopt.
  destruct (local_search _ _ _ _ _ _ _ _ _) as [res log]. simpl in *.
  rewrite Hres in *. simpl in *. intros [= Hf <- <- <-]. split.
  - by eapply pass_chain_last.
  - intros -> Hpasses i r Hi Hr Hout.
    specialize (Hopt Hf ltac:(lia) i r Hi Hr Hout).
    destruct Hv as (Hl & _).
    rewrite (calculate_error_Fin _ _ _ _ (Z.to_nat k) sel') in Hopt by done.
    rewrite (calculate_error_Fin _ _ _ _ (Z.to_nat k)) in Hopt
      by (by rewrite ?length_insert).
    apply Qnot_lt_le. intros Hlt. apply xlt_Fin in Hlt. congruence.
Qed.

Lemma robust_greedy_local_local_optimum_witness :
  total_error six_gw six_cbm 100 100 [5; 4]%nat
  <= total_error six_gw six_cbm 100 100 (greedy_start six_gw six_cbm 100 100 2)
  ∧ swap_optimal six_gw six_cbm 100 100 2 [5; 4]%nat.
Proof.
  destruct (robust_greedy_local_local_optimum six_gw six_cbm 100 100 TOL 2 5
              false [5; 4]%nat (Some 17) (Some 8)) as [Hle H];
    [reflexivity | simpl; lia | vm_compute; reflexivity |].
  split; [exact Hle|].
  apply H; [reflexivity | vm_compute; lia].
Defined.

(** ** Asking for the whole pool *)

Lemma map_at_all (arr : list float) :
  map (Double.at_ arr) (seq 0 (length arr)) = arr.
Proof.
  induction arr as [|x arr IH]; [done|]. simpl. f_equal.
  rewrite <- fmap_S_seq, <- list_fmap_compose. exact IH.
Qed.

Lemma index_labels_all (pkgs_df : list Double.pkg_row) :
  index_labels pkgs_df (seq 0 (length pkgs_df)) = map Double.ix pkgs_df.
Proof.
  unfold index_labels. induction pkgs_df as [|x l IH]; [done|]. simpl. f_equal.
  rewrite <- fmap_S_seq, <- list_fmap_compose. exact IH.
Qed.

Lemma combinations_short {A} (pool : list A) (r : nat) :
  (length pool < r)%nat → combinations pool r = [].
Proof.
  revert r. induction pool as [|x rest IH]; intros [|r] Hr; simpl in *; try lia.
  - done.
  - by rewrite !IH by lia.
Qed.

Lemma combinations_all {A} (pool : list A) :
  combinations pool (length pool) = [pool].
Proof.
  induction pool as [|x rest IH]; [done|]. simpl.
  by rewrite IH, combinations_short by lia.
Qed.

(** X15.  When the number of packages asked for is the number of rows of a
    non-empty pool of at most 18 rows, [find_subset_match] tests the one
    combination of all the rows: it reports found exactly when [np.sum] of
    the whole weight column and of the whole volume column each pass
    [close2] against the targets; what it then picks is every row of the
    pool, in order, and the sums it reports are these two; the method is
    "exact". *)
Theorem find_subset_match_whole_pool
    (np_sum : list float → float)
    (robust_greedy_local :
       list float → list float → Z → float → float → float →
       bool * list nat * option float * option float)
    (pkgs_df : list Double.pkg_row) (gw_tgt cbm_tgt tol : float) :
  (0 < length pkgs_df ≤ MAX_EXACT_N)%nat →
  (Double.found
     (Double.find_subset_match np_sum robust_greedy_local pkgs_df
        (Z.of_nat (length pkgs_df)) gw_tgt cbm_tgt tol) = true
   ↔ Double.close2 (np_sum (map Double.GW pkgs_df)) gw_tgt tol = true
     ∧ Double.close2 (np_sum (map Double.CBM pkgs_df)) cbm_tgt tol = true)
  ∧ (Double.found
       (Double.find_subset_match np_sum robust_greedy_local pkgs_df
          (Z.of_nat (length pkgs_df)) gw_tgt cbm_tgt tol) = true →
     Double.find_subset_match np_sum robust_greedy_local pkgs_df
       (Z.of_nat (length pkgs_df)) gw_tgt cbm_tgt tol
     = Double.MatchResult true (map Double.ix pkgs_df)
         (Some (np_sum (map Double.GW pkgs_df)))
         (Some (np_sum (map Double.CBM pkgs_df))) "exact")
  ∧ Double.method
      (Double.find_subset_match np_sum robust_greedy_local pkgs_df
         (Z.of_nat (length pkgs_df)) gw_tgt cbm_tgt tol) = "exact".
Proof.
  intros [Hpos Hsmall].
  assert (Hguard : (Z.of_nat (length pkgs_df) <? Z.of_nat (length pkgs_df))%Z
                   || (Z.of_nat (length pkgs_df) <=? 0)%Z = false).
  { apply orb_false_iff. split; [apply Z.ltb_ge|apply Z.leb_gt]; lia. }
  apply Nat.leb_le in Hsmall.
  unfold Double.find_subset_match. rewrite Hguard, Hsmall, Nat2Z.id.
  unfold Double.exact_subset_match, Double.exact_subset_pos.
  rewrite length_map.
  pose proof (combinations_all (seq 0 (length pkgs_df))) as Hall.
  rewrite length_seq in Hall. rewrite Hall.
  pose proof (index_labels_all pkgs_df) as Hlabels. unfold index_labels in Hlabels.
  assert (Hgw : Double.sum_at np_sum (map Double.GW pkgs_df) (seq 0 (length pkgs_df))
                = np_sum (map Double.GW pkgs_df)).
  { unfold Double.sum_at. rewrite <- (length_map Double.GW pkgs_df).
    by rewrite map_at_all. }
  assert (Hcbm : Double.sum_at np_sum (map Double.CBM pkgs_df) (seq 0 (length pkgs_df))
                 = np_sum (map Double.CBM pkgs_df)).
  { unfold Double.sum_at. rewrite <- (length_map Double.CBM pkgs_df).
    by rewrite map_at_all. }
  simpl find. unfold Double.feasible. rewrite Hgw, Hcbm.
  destruct (Double.close2 (np_sum (map Double.GW pkgs_df)) gw_tgt tol);
    destruct (Double.close2 (np_sum (map Double.CBM pkgs_df)) cbm_tgt tol);
    simpl; rewrite ?Hlabels, ?Hgw, ?Hcbm;
    (split; [split; [by intros | by intros [? ?]] | by split]).
Qed.

Lemma find_subset_match_whole_pool_witness :
  Double.find_subset_match Double.sequential_sum Double.not_entered
    float_pool4 4 6.6 4.7 Double.TOL
  = Double.MatchResult true [10; 11; 12; 13]%Z
      (Some (Double.sequential_sum (map Double.GW float_pool4)))
      (Some (Double.sequential_sum (map Double.CBM float_pool4))) "exact".
Proof.
  destruct (find_subset_match_whole_pool Double.sequential_sum Double.not_entered
              float_pool4 6.6 4.7 Double.TOL) as ([_ Hf] & Hp & _);
    [vm_compute; lia|].
  apply Hp, Hf. split; vm_compute; reflexivity.
Defined.

(** ** Expansion from a base token with a numeric block *)

Lemma rmatch_Star_Class (p : Ascii.ascii → bool) (s : string) (g : captures)
    (k : string → captures → option captures) :
  rmatch (Star (Class p)) s g k = class_star p k (String.length s) s g.
Proof. reflexivity. Qed.

Lemma class_star_0 (p : Ascii.ascii → bool)
    (k : string → captures → option captures) (s : string) (g : captures) :
  class_star p k 0 s g = k s g.
Proof. reflexivity. Qed.

Lemma class_star_S (p : Ascii.ascii → bool)
    (k : string → captures → option captures) (fuel : nat) (s : string)
    (g : captures) :
  class_star p k (S fuel) s g
  = match
      match s with
      | EmptyString => None
      | String a s' => if p a then class_star p k fuel s' g else None
      end
    with
    | Some m => Some m
    | None => k s g
    end.
Proof.
  destruct s as [|a s']; [done|].
  change (class_star p k (S fuel) (String a s') g)
    with (match (if p a then
                   if (String.length s' <? String.length (String a s'))%nat
                   then class_star p k fuel s' g else None
                 else None) with
          | Some m => Some m
          | None => k (String a s') g
          end).
  assert ((String.length s' <? String.length (String a s'))%nat = true) as ->
    by (apply Nat.ltb_lt; simpl; lia).
  done.
Qed.

Lemma class_star_fail (p : Ascii.ascii → bool)
    (k : string → captures → option captures) (g : captures)
    (fuel : nat) (s : string) :
  (∀ x w, s = x +:+ w → k w g = None) → class_star p k fuel s g = None.
Proof.
  revert s. induction fuel as [|fuel IH]; intros s Hk.
  - rewrite class_star_0. by apply (Hk "").
  - rewrite class_star_S. destruct s as [|a s'].
    + by apply (Hk "").
    + destruct (p a); [|by apply (Hk "")].
      rewrite IH; [by apply (Hk "")|].
      intros x w ->. by apply (Hk (String a x)).
Qed.

Lemma class_star_split (p : Ascii.ascii → bool)
    (k : string → captures → option captures) (g m : captures)
    (u v : string) (fuel : nat) :
  (String.length u ≤ fuel)%nat → str_all p u = true →
  k v g = Some m →
  (∀ x w, v = x +:+ w → x ≠ "" → k w g = None) →
  class_star p k fuel (u +:+ v) g = Some m.
Proof.
  revert fuel. induction u as [|a u IH]; intros fuel Hfuel Hu Hv Hk.
  - change ("" +:+ v) with v. destruct fuel as [|fuel]; [done|].
    rewrite class_star_S. destruct v as [|b v']; [exact Hv|].
    destruct (p b); [|exact Hv].
    rewrite class_star_fail; [exact Hv|].
    intros x w ->. by apply (Hk (String b x)).
  - destruct fuel as [|fuel]; [simpl in Hfuel; lia|].
    simpl in Hu. apply andb_true_iff in Hu as [Ha Hu].
    change (String a u +:+ v) with (String a (u +:+ v)).
    rewrite class_star_S, Ha.
    rewrite IH; [done|simpl in Hfuel; lia|done|done|done].
Qed.

Lemma append_cons (a : Ascii.ascii) (u v : string) :
  String a u +:+ v = String a (u +:+ v).
Proof. reflexivity. Qed.

Lemma length_append (u v : string) :
  String.length (u +:+ v) = (String.length u + String.length v)%nat.
Proof.
  induction u as [|a u IH]; [done|]. rewrite append_cons. simpl. by rewrite IH.
Qed.

Lemma substring_append (u v : string) :
  String.substring 0 (String.length u) (u +:+ v) = u.
Proof.
  induction u as [|a u IH].
  - by destruct v.
  - rewrite append_cons. simpl. by rewrite IH.
Qed.

Lemma consumed_append (u v : string) : consumed (u +:+ v) v = u.
Proof.
  unfold consumed. rewrite length_append.
  replace (String.length u + String.length v - String.length v)%nat
    with (String.length u) by lia.
  apply substring_append.
Qed.

Lemma append_assoc (u v w : string) : (u +:+ v) +:+ w = u +:+ (v +:+ w).
Proof.
  induction u as [|a u IH]; [done|]. rewrite !append_cons. by rewrite IH.
Qed.

Lemma append_empty_r (u : string) : u +:+ "" = u.
Proof.
  induction u as [|a u IH]; [done|]. rewrite append_cons. by rewrite IH.
Qed.

Lemma suffix_str_all (p : Ascii.ascii → bool) (x w : string) :
  str_all p (x +:+ w) = true → str_all p w = true.
Proof.
  induction x as [|a x IH]; [done|]. rewrite append_cons. simpl.
  intros [_ H]%andb_true_iff. by apply IH.
Qed.

Lemma rmatch_Cat (r1 r2 : regex) (s : string) (g : captures)
    (k : string → captures → option captures) :
  rmatch (Cat r1 r2) s g k = rmatch r1 s g (fun s' g' => rmatch r2 s' g' k).
Proof. reflexivity. Qed.

Lemma rmatch_Group (i : nat) (r : regex) (s : string) (g : captures)
    (k : string → captures → option captures) :
  rmatch (Group i r) s g k
  = rmatch r s g (fun s' g' => k s' ((i, consumed s s') :: g')).
Proof. reflexivity. Qed.

Lemma rmatch_Lit_here (c : Ascii.ascii) (s : string) (g : captures)
    (k : string → captures → option captures) :
  rmatch (Lit c) (String c s) g k = k s g.
Proof. simpl. by rewrite Ascii.eqb_refl. Qed.

Lemma rmatch_Lit_other (c : Ascii.ascii) (p : Ascii.ascii → bool) (s : string)
    (g : captures) (k : string → captures → option captures) :
  str_all p s = true → p c = false → rmatch (Lit c) s g k = None.
Proof.
  intros Hs Hc. destruct s as [|a s]; [done|]. simpl in *.
  apply andb_true_iff in Hs as [Ha _].
  destruct (Ascii.eqb_spec a c) as [->|]; [congruence|done].
Qed.

Lemma rmatch_Class_here (p : Ascii.ascii → bool) (a : Ascii.ascii) (s : string)
    (g : captures) (k : string → captures → option captures) :
  p a = true → rmatch (Class p) (String a s) g k = k s g.
Proof. intros H. simpl. by rewrite H. Qed.

(** The pattern for the base token, on a text that ends in a hyphen and a
    block of digits: the first group runs up to that hyphen. *)
Lemma re_match_RE_BASE (pre d : string) :
  str_all not_newline pre = true → d ≠ "" → str_all is_decimal d = true →
  re_match RE_BASE (pre +:+ "-" +:+ d)
  = Some [(2%nat, d); (1%nat, pre +:+ "-")].
Proof.
  intros Hpre Hne Hd.
  unfold re_match, RE_BASE, Plus.
  rewrite rmatch_Cat, rmatch_Group, rmatch_Cat, rmatch_Star_Class.
  apply (class_star_split _ _ _ _ pre ("-" +:+ d)); [rewrite length_append; lia|done| |].
  - change ("-" +:+ d) with (String "-" d). rewrite rmatch_Lit_here.
    rewrite rmatch_Cat, rmatch_Group, rmatch_Cat.
    destruct d as [|c d']; [done|].
    simpl in Hd. apply andb_true_iff in Hd as [Hc Hd'].
    rewrite rmatch_Class_here by done. rewrite rmatch_Star_Class.
    rewrite <- (append_empty_r d') at 1 2.
    apply class_star_split; [rewrite append_empty_r; lia|done| |].
    + transitivity (Some [(2%nat, consumed (String c d') "");
                          (1%nat, consumed (pre +:+ String "-" (String c d'))
                                    (String c d'))]); [reflexivity|].
      assert (consumed (String c d') "" = String c d') as ->.
      { rewrite <- (append_empty_r (String c d')) at 1. apply consumed_append. }
      assert (pre +:+ String "-" (String c d') = (pre +:+ "-") +:+ String c d') as ->
        by (by rewrite append_assoc).
      by rewrite consumed_append.
    + intros x w Hxw Hx. destruct x; [done|]. by destruct w.
  - intros x w Hxw Hx. destruct x as [|a x]; [done|].
    change ("-" +:+ d) with (String "-" d) in Hxw.
    rewrite append_cons in Hxw. injection Hxw as _ Hd'.
    apply (rmatch_Lit_other _ is_decimal); [|done].
    apply (suffix_str_all _ x). by rewrite <- Hd'.
Qed.

Lemma parse_base_numeric (pre d : string) :
  str_all not_newline pre = true → d ≠ "" → str_all is_decimal d = true →
  parse_base (pre +:+ "-" +:+ d) = (pre +:+ "-", Some d, "").
Proof.
  intros Hpre Hne Hd. unfold parse_base.
  by rewrite (re_match_RE_BASE pre d Hpre Hne Hd).
Qed.

Lemma expand_token_numeric (prefix num sub : string) (acc : gset string)
    (t : string) :
  plain_digits t = true → short_number t = true →
  expand_token prefix (Some num) sub acc t
  = Some ({[numeric_entry prefix sub t]} ∪ acc).
Proof.
  intros Hp Hs. unfold numeric_entry.
  destruct (contains "-"%char t) eqn:Hc.
  - rewrite <- (expand_token_degraded prefix sub acc t Hp Hs).
    unfold expand_token. by rewrite Hc.
  - unfold expand_token. rewrite Hc.
    destruct (isdigit t) eqn:Hd; [|done].
    rewrite bool_decide_eq_true_2 by (by eexists).
    destruct (pad4_is_Some t Hd Hp (short_number_whole t Hs Hc Hd)) as [p ->].
    done.
Qed.

Lemma expand_tokens_numeric (prefix num sub : string) (acc : gset string)
    (tokens : list string) :
  Forall (λ t, plain_digits t = true ∧ short_number t = true) tokens →
  expand_tokens prefix (Some num) sub acc tokens
  = Some (acc ∪ list_to_set (numeric_entry prefix sub <$> tokens)).
Proof.
  intros H. revert acc. induction H as [|t rest [Ht Hs] _ IH]; intros acc; simpl.
  - f_equal. apply set_eq. intros x.
    rewrite elem_of_union, elem_of_empty. tauto.
  - rewrite (expand_token_numeric _ _ _ _ _ Ht Hs). simpl. rewrite IH.
    f_equal. apply set_eq. intros x. rewrite !elem_of_union. tauto.
Qed.

(** X16.  When the base token of a combined code ends in a hyphen
    followed by a block of decimal digits, the pattern for the base token
    takes everything up to that last hyphen as prefix and the block as
    numeric block, with no sub-suffix.  When moreover no later token has an
    all-digit head of more than 4300 digits, which [int] would refuse,
    [expand_combined_codes] returns the base token and one entry per later
    token, and an all-digit token without hyphen contributes the prefix
    followed by its value padded to four places. *)
Theorem expand_combined_codes_numeric_base (code pre d : string) :
  plain_digits code = true →
  contains ","%char code = true →
  base_token code = pre +:+ "-" +:+ d →
  str_all not_newline pre = true → d ≠ "" → str_all is_decimal d = true →
  parse_base (base_token code) = (pre +:+ "-", Some d, "")
  ∧ (short_numbers code = true →
     expand_combined_codes code
     = Some ({[base_token code]}
             ∪ list_to_set (numeric_entry (pre +:+ "-") "" <$> later_tokens code))
     ∧ (∀ t v, t ∈ later_tokens code → contains "-"%char t = false →
               isdigit t = true → int t = Some v →
               ∀ expanded, expand_combined_codes code = Some expanded →
                           pre +:+ "-" +:+ format_04d v ∈ expanded)).
Proof.
  intros Hp Hcomma Hbase Hpre Hne Hd.
  pose proof (parse_base_numeric pre d Hpre Hne Hd) as Hparse.
  rewrite <- Hbase in Hparse.
  split; [done|]. intros Hshort.
  assert (Hexp : expand_combined_codes code
    = Some ({[base_token code]}
            ∪ list_to_set (numeric_entry (pre +:+ "-") "" <$> later_tokens code))).
  { unfold expand_combined_codes. rewrite Hcomma. simpl.
    fold (base_token code) (later_tokens code). rewrite Hparse.
    apply expand_tokens_numeric. by apply later_tokens_plain. }
  split; [done|].
  intros t v Ht Hc Hdig Hint expanded. rewrite Hexp. intros [= <-].
  apply elem_of_union. right. apply elem_of_list_to_set, list_elem_of_fmap.
  exists t. split; [|done].
  unfold numeric_entry, pad4. rewrite Hc, Hdig, Hint. simpl.
  by rewrite append_assoc, append_empty_r.
Qed.

Lemma expand_combined_codes_numeric_base_witness :
  parse_base "HVDC-ADOPT-HE-0087" = ("HVDC-ADOPT-HE-", Some "0087", "")
  ∧ expand_combined_codes "HVDC-ADOPT-HE-0087, 90,195"
    = Some {[ "HVDC-ADOPT-HE-0087"; "HVDC-ADOPT-HE-0090"; "HVDC-ADOPT-HE-0195" ]}.
Proof.
  destruct (expand_combined_codes_numeric_base "HVDC-ADOPT-HE-0087, 90,195"
              "HVDC-ADOPT-HE" "0087") as (H1 & H2);
    [reflexivity..|discriminate|reflexivity|].
  split; [exact H1|].
  destruct H2 as [H2 _]; [reflexivity|]. rewrite H2. vm_compute. reflexivity.
Defined.

(** ** What every expansion holds *)

Lemma expand_token_grows (prefix : string) (num : option string) (sub : string)
    (acc acc' : gset string) (t : string) :
  expand_token prefix num sub acc t = Some acc' →
  acc ⊆ acc' ∧ (size acc' ≤ S (size acc))%nat.
Proof.
  assert (Hadd : ∀ x : string,
            acc ⊆ {[x]} ∪ acc ∧ (size ({[x]} ∪ acc) ≤ S (size acc))%nat).
  { intros x. split; [apply union_subseteq_r|].
    rewrite size_union_alt, size_singleton.
    apply le_n_S, subseteq_size, subseteq_difference_l. done. }
  unfold expand_token.
  destruct (contains "-"%char t).
  - destruct (split1 "-"%char t) as [[num_part sub_part]|]; simpl; [|done].
    destruct (isdigit num_part).
    + destruct (pad4 num_part); simpl; [|done]. intros [= <-]. apply Hadd.
    + intros [= <-]. apply Hadd.
  - destruct (isdigit t && bool_decide (is_Some num)).
    + destruct (pad4 t); simpl; [|done]. intros [= <-]. apply Hadd.
    + intros [= <-]. apply Hadd.
Qed.

Lemma expand_tokens_grows (prefix : string) (num : option string) (sub : string)
    (tokens : list string) (acc acc' : gset string) :
  expand_tokens prefix num sub acc tokens = Some acc' →
  acc ⊆ acc' ∧ (size acc' ≤ size acc + length tokens)%nat.
Proof.
  revert acc. induction tokens as [|t rest IH]; intros acc; simpl.
  - intros [= <-]. split; [done|lia].
  - destruct (expand_token prefix num sub acc t) as [acc1|] eqn:E; simpl; [|done].
    destruct (expand_token_grows _ _ _ _ _ _ E) as [Hs1 Hn1].
    intros [Hs2 Hn2]%IH. split; [by etrans|lia].
Qed.

(** X17.  Whatever [expand_combined_codes] returns for a text with a comma
    holds the base token (the text before the first comma, blanks
    removed) and has at most as many entries as the text has tokens; for a
    text without a comma it is the text alone. *)
Theorem expand_combined_codes_holds_base (code : string) (expanded : gset string) :
  expand_combined_codes code = Some expanded →
  (contains ","%char code = false → expanded = {[code]})
  ∧ (contains ","%char code = true →
     base_token code ∈ expanded
     ∧ (size expanded ≤ S (length (later_tokens code)))%nat
     ∧ (1 ≤ size expanded)%nat).
Proof.
  unfold expand_combined_codes. fold (base_token code) (later_tokens code).
  destruct (contains ","%char code); simpl.
  - destruct (parse_base (base_token code)) as [[prefix num] sub].
    intros [Hsub Hsize]%expand_tokens_grows. split; [done|]. intros _.
    rewrite size_singleton in Hsize.
    assert (Hin : base_token code ∈ expanded).
    { apply Hsub. by apply elem_of_singleton. }
    split_and!; [done|lia|].
    destruct (decide (size expanded = 0)%nat) as [Hz|]; [|lia].
    apply size_empty_iff in Hz. rewrite leibniz_equiv_iff in Hz.
    rewrite Hz in Hin. by apply elem_of_empty in Hin.
  - intros [= <-]. by split.
Qed.

Lemma expand_combined_codes_holds_base_witness :
  base_token "X-1, 2,2 ,0002" ∈ ({[ "X-1"; "X-0002" ]} : gset string)
  ∧ (size ({[ "X-1"; "X-0002" ]} : gset string) ≤ 4)%nat.
Proof.
  destruct (expand_combined_codes_holds_base "X-1, 2,2 ,0002" {[ "X-1"; "X-0002" ]})
    as [_ H]; [vm_compute; reflexivity|].
  destruct H as (H1 & H2 & _); [reflexivity|].
  split; [exact H1|exact H2].
Defined.

(** ** The work of the exact matcher *)

Lemma length_combinations {A} (pool : list A) (r : nat) :
  length (combinations pool r) = choose (length pool) r.
Proof.
  revert r. induction pool as [|x rest IH]; intros [|r]; simpl; try done.
  by rewrite length_app, length_map, !IH.
Qed.

Lemma choose_small (n r : nat) : (n < r)%nat → choose n r = 0%nat.
Proof.
  revert r. induction n as [|n IH]; intros [|r] H; simpl; try lia.
  rewrite !IH by lia. done.
Qed.

Lemma choose_bound_18 (n r : nat) :
  (n ≤ 18)%nat → (Z.of_nat (choose n r) ≤ 48620)%Z.
Proof.
  intros Hn. destruct (decide (r ≤ 18)%nat) as [Hr|Hr].
  - assert (H : forallb (fun n =>
                    forallb (fun r => (Z.of_nat (choose n r) <=? 48620)%Z) (seq 0 19))
                  (seq 0 19) = true) by (vm_compute; reflexivity).
    rewrite forallb_forall in H.
    specialize (H n ltac:(apply in_seq; lia)).
    rewrite forallb_forall in H.
    specialize (H r ltac:(apply in_seq; lia)).
    by apply Z.leb_le.
  - rewrite choose_small by lia. lia.
Qed.

(** X18.  The exact matcher enumerates C(n, k) combinations of positions
    for a pool of [n] rows, by Pascal's rule; on the pools it is called for,
    of at most 18 rows, these are never more than 48620, and for [k > n]
    there is none, so that nothing is found. *)
Theorem exact_subset_match_work (pkgs_df : list pkg_row) (k : nat)
    (gw_tgt cbm_tgt tol : Q) :
  length (combinations (seq 0 (length pkgs_df)) k) = choose (length pkgs_df) k
  ∧ ((length pkgs_df ≤ MAX_EXACT_N)%nat →
     (Z.of_nat (length (combinations (seq 0 (length pkgs_df)) k)) ≤ 48620)%Z)
  ∧ ((length pkgs_df < k)%nat →
     exact_subset_match pkgs_df k gw_tgt cbm_tgt tol = (false, [], None, None)).
Proof.
  assert (Hlen : length (combinations (seq 0 (length pkgs_df)) k)
                 = choose (length pkgs_df) k)
    by (by rewrite length_combinations, length_seq).
  split_and!; [done| |].
  - intros Hn. rewrite Hlen. by apply choose_bound_18.
  - intros Hk. unfold exact_subset_match, exact_subset_pos.
    rewrite length_map, combinations_short by (rewrite length_seq; lia). done.
Qed.

Lemma exact_subset_match_work_witness :
  (Z.of_nat (length (combinations (seq 0 (length pool4)) 2)) ≤ 48620)%Z
  ∧ exact_subset_match pool4 5 8 8 TOL = (false, [], None, None).
Proof.
  destruct (exact_subset_match_work pool4 2 8 8 TOL) as (_ & H & _).
  destruct (exact_subset_match_work pool4 5 8 8 TOL) as (_ & _ & H').
  split; [apply H; vm_compute; lia | apply H'; vm_compute; lia].
Defined.

(** ** Normalised codes and their parts *)


Lemma ascii_forall (P : Ascii.ascii → bool) :
  forallb (fun c => P (chr c)) (seq 0 256) = true → ∀ a, P a = true.
Proof.
  intros H a. rewrite forallb_forall in H.
  rewrite <- (ascii_nat_embedding a). apply H, in_seq.
  pose proof (nat_ascii_bounded a). lia.
Qed.

Lemma upper_char_fixed (a : Ascii.ascii) (u : string) :
  upper_char a = Some u → str_all is_upper_fixed u = true.
Proof.
  intros Hu.
  assert (H : match upper_char a with
              | Some u => str_all is_upper_fixed u
              | None => true
              end = true).
  { clear Hu. revert a. apply ascii_forall. vm_compute. reflexivity. }
  by rewrite Hu in H.
Qed.

Lemma part_char_not_space (a : Ascii.ascii) :
  is_part_char a || Ascii.eqb a "-" = true → is_space a = false.
Proof.
  assert (H : ∀ a, implb (is_part_char a || Ascii.eqb a "-") (negb (is_space a)) = true).
  { apply ascii_forall. vm_compute. reflexivity. }
  specialize (H a). intros Hp. rewrite Hp in H. simpl in H.
  by apply negb_true_iff.
Qed.

Lemma str_all_append (p : Ascii.ascii → bool) (u v : string) :
  str_all p (u +:+ v) = str_all p u && str_all p v.
Proof.
  induction u as [|a u IH]; [done|]. rewrite append_cons. simpl.
  by rewrite IH, andb_assoc.
Qed.

Lemma str_all_impl (p q : Ascii.ascii → bool) (s : string) :
  (∀ a, p a = true → q a = true) → str_all p s = true → str_all q s = true.
Proof.
  intros Hpq. induction s as [|a s IH]; simpl; [done|].
  intros [Ha Hs]%andb_true_iff. by rewrite (Hpq a Ha), IH.
Qed.

Lemma upper_fixed (s u : string) :
  upper s = Some u → str_all is_upper_fixed u = true.
Proof.
  revert u. induction s as [|a s IH]; intros u; simpl.
  - by intros [= <-].
  - destruct (upper_char a) as [ua|] eqn:Ea; simpl; [|done].
    destruct (upper s) as [us|]; simpl; [|done].
    intros [= <-]. rewrite str_all_append.
    by rewrite (upper_char_fixed a ua Ea), (IH us eq_refl).
Qed.

Lemma upper_of_fixed (s : string) :
  str_all is_upper_fixed s = true → upper s = Some s.
Proof.
  induction s as [|a s IH]; simpl; [done|].
  intros [Ha Hs]%andb_true_iff. rewrite (IH Hs). unfold is_upper_fixed in Ha.
  destruct (upper_char a) as [u|]; [|done].
  apply String.eqb_eq in Ha as ->. done.
Qed.

Lemma str_all_keep_chars (p : Ascii.ascii → bool) (s : string) :
  str_all p (keep_chars p s) = true.
Proof.
  induction s as [|a s IH]; simpl; [done|].
  destruct (p a) eqn:Ha; simpl; [by rewrite Ha|done].
Qed.

Lemma str_all_keep_chars_other (p q : Ascii.ascii → bool) (s : string) :
  str_all q s = true → str_all q (keep_chars p s) = true.
Proof.
  induction s as [|a s IH]; simpl; [done|].
  intros [Ha Hs]%andb_true_iff.
  destruct (p a); simpl; [by rewrite Ha, IH|by apply IH].
Qed.

Lemma keep_chars_fixed (p : Ascii.ascii → bool) (s : string) :
  str_all p s = true → keep_chars p s = s.
Proof.
  induction s as [|a s IH]; simpl; [done|].
  intros [-> Hs]%andb_true_iff. by rewrite IH.
Qed.

Lemma starts_with_squeeze (c : Ascii.ascii) (s : string) :
  starts_with c (squeeze c s) = starts_with c s.
Proof.
  induction s as [|a s IH]; [done|]. simpl.
  destruct (Ascii.eqb_spec a c) as [->|Hne].
  - destruct s as [|b s']; [simpl; by rewrite Ascii.eqb_refl|].
    destruct (Ascii.eqb_spec b c) as [->|Hb].
    + rewrite IH. simpl. by rewrite Ascii.eqb_refl.
    + simpl. by rewrite Ascii.eqb_refl.
  - simpl. by apply Ascii.eqb_neq.
Qed.

Lemma no_double_squeeze (c : Ascii.ascii) (s : string) :
  no_double c (squeeze c s) = true.
Proof.
  induction s as [|a s IH]; [done|]. simpl.
  destruct (Ascii.eqb_spec a c) as [->|Hne].
  - destruct s as [|b s']; [simpl; by rewrite andb_false_r|].
    destruct (Ascii.eqb_spec b c) as [->|Hb]; [done|].
    change (no_double c (String c (squeeze c (String b s'))))
      with (negb (Ascii.eqb c c && starts_with c (squeeze c (String b s')))
            && no_double c (squeeze c (String b s'))).
    rewrite starts_with_squeeze, IH. simpl.
    apply Ascii.eqb_neq in Hb. by rewrite Hb, andb_false_r.
  - change (no_double c (String a (squeeze c s)))
      with (negb (Ascii.eqb a c && starts_with c (squeeze c s))
            && no_double c (squeeze c s)).
    rewrite IH. apply Ascii.eqb_neq in Hne. by rewrite Hne.
Qed.

Lemma str_all_squeeze (p : Ascii.ascii → bool) (c : Ascii.ascii) (s : string) :
  str_all p s = true → str_all p (squeeze c s) = true.
Proof.
  induction s as [|a s IH]; [done|].
  intros [Ha Hs]%andb_true_iff. specialize (IH Hs). simpl.
  destruct (Ascii.eqb a c).
  - destruct s as [|b s']; [simpl; by rewrite Ha|].
    destruct (Ascii.eqb b c); [done|].
    change (str_all p (String a (squeeze c (String b s'))))
      with (p a && str_all p (squeeze c (String b s'))).
    by rewrite Ha, IH.
  - change (str_all p (String a (squeeze c s))) with (p a && str_all p (squeeze c s)).
    by rewrite Ha, IH.
Qed.

Lemma squeeze_fixed (c : Ascii.ascii) (s : string) :
  no_double c s = true → squeeze c s = s.
Proof.
  induction s as [|a s IH]; [done|]. simpl.
  intros [Hd Hs]%andb_true_iff. rewrite (IH Hs).
  destruct (Ascii.eqb a c); [|done].
  destruct s as [|b s']; [done|]. simpl in Hd.
  by destruct (Ascii.eqb b c).
Qed.

Lemma rstrip_fixed (s : string) :
  str_all (fun a => negb (is_space a)) s = true → rstrip s = s.
Proof.
  induction s as [|a s IH]; [done|]. simpl.
  intros [Ha Hs]%andb_true_iff. rewrite (IH Hs).
  apply negb_true_iff in Ha. rewrite Ha. by destruct s.
Qed.

Lemma strip_fixed (s : string) :
  str_all (fun a => negb (is_space a)) s = true → strip s = s.
Proof.
  intros Hs. unfold strip. rewrite head_kept_lstrip.
  - by apply rstrip_fixed.
  - destruct s as [|a s]; [done|]. simpl in *.
    by apply andb_true_iff in Hs as [-> _].
Qed.

Lemma normal_code_not_space (s : string) :
  str_all (fun a => is_part_char a || Ascii.eqb a "-") s = true →
  str_all (fun a => negb (is_space a)) s = true.
Proof.
  apply str_all_impl. intros a Ha. by rewrite (part_char_not_space a Ha).
Qed.

Lemma normalize_hvdc_code_normal (code r : string) :
  normalize_hvdc_code code = Some r → normal_code r = true.
Proof.
  unfold normalize_hvdc_code.
  destruct (String.eqb code ""); [by intros [= <-]|].
  destruct (upper (strip code)) as [u|] eqn:Eu; simpl; [|done].
  intros [= <-]. unfold normal_code. rewrite no_double_squeeze, andb_true_r.
  apply str_all_squeeze.
  pose proof (upper_fixed _ _ Eu) as Hu.
  pose proof (str_all_keep_chars (fun a => is_word_char a || Ascii.eqb a "-") u) as H1.
  pose proof (str_all_keep_chars_other
                (fun a => is_word_char a || Ascii.eqb a "-") _ u Hu) as H2.
  revert H1 H2.
  generalize (keep_chars (fun a => is_word_char a || Ascii.eqb a "-") u).
  intros s. induction s as [|a s IH]; simpl; [done|].
  intros [Ha Hs]%andb_true_iff [Hb Hs']%andb_true_iff.
  rewrite (IH Hs Hs'), andb_true_r. unfold is_part_char. rewrite Hb.
  rewrite andb_true_r. done.
Qed.

Lemma normalize_hvdc_code_fixed (s : string) :
  normal_code s = true → normalize_hvdc_code s = Some s.
Proof.
  unfold normal_code. intros [Hc Hd]%andb_true_iff.
  unfold normalize_hvdc_code.
  destruct (String.eqb_spec s "") as [->|_]; [done|].
  rewrite (strip_fixed s (normal_code_not_space s Hc)).
  rewrite upper_of_fixed; simpl.
  - rewrite keep_chars_fixed, squeeze_fixed; [done|done|].
    revert Hc. apply str_all_impl. intros a. unfold is_part_char.
    by destruct (is_word_char a), (Ascii.eqb a "-").
  - revert Hc. apply str_all_impl. intros a. unfold is_part_char.
    intros [[_ H]%andb_true_iff|H]%orb_true_iff; [done|].
    apply Ascii.eqb_eq in H as ->. by vm_compute.
Qed.

Lemma upper_is_Some (s : string) :
  str_all (fun a => negb ((ord a =? 181)%nat || (ord a =? 255)%nat)) s = true →
  is_Some (upper s).
Proof.
  induction s as [|a s IH]; simpl; [by eexists|].
  intros [Ha Hs]%andb_true_iff. destruct (IH Hs) as [r ->].
  unfold upper_char. apply negb_true_iff in Ha. rewrite Ha.
  repeat match goal with |- context [if ?b then _ else _] => destruct b end;
    by eexists.
Qed.

Lemma str_all_lstrip (p : Ascii.ascii → bool) (s : string) :
  str_all p s = true → str_all p (lstrip s) = true.
Proof.
  induction s as [|a s IH]; simpl; [done|].
  intros [Ha Hs]%andb_true_iff. destruct (is_space a); [by apply IH|].
  simpl. by rewrite Ha, Hs.
Qed.

Lemma str_all_rstrip (p : Ascii.ascii → bool) (s : string) :
  str_all p s = true → str_all p (rstrip s) = true.
Proof.
  induction s as [|a s IH]; simpl; [done|].
  intros [Ha Hs]%andb_true_iff. specialize (IH Hs).
  destruct (rstrip s) as [|b r].
  - destruct (is_space a); [done|]. simpl. by rewrite Ha.
  - simpl in *. by rewrite Ha.
Qed.

(** X19.  [normalize_hvdc_code] returns on every text without U+00B5 and
    U+00FF; what it returns consists of word characters that [str.upper]
    leaves alone and of hyphens, no two of them in a row; and it is
    idempotent: normalising its result gives the result back. *)
Theorem normalize_hvdc_code_normal_form (code : string) :
  (str_all (fun a => negb ((ord a =? 181)%nat || (ord a =? 255)%nat)) code = true →
   is_Some (normalize_hvdc_code code))
  ∧ (∀ r, normalize_hvdc_code code = Some r →
          str_all (fun a => is_part_char a || Ascii.eqb a "-") r = true
          ∧ no_double "-" r = true
          ∧ normalize_hvdc_code r = Some r).
Proof.
  split.
  - intros Hc. unfold normalize_hvdc_code.
    destruct (String.eqb code ""); [by eexists|].
    destruct (upper_is_Some (strip code)) as [u ->]; [|by eexists].
    by apply str_all_rstrip, str_all_lstrip.
  - intros r Hr. pose proof (normalize_hvdc_code_normal code r Hr) as Hn.
    pose proof (normalize_hvdc_code_fixed r Hn) as Hf.
    unfold normal_code in Hn. apply andb_true_iff in Hn as [? ?]. done.
Qed.

Lemma split_no_sep (c : Ascii.ascii) (s : string) :
  Forall (λ p, contains c p = false) (split c s).
Proof.
  induction s as [|a s IH]; simpl; [by repeat constructor|].
  destruct (Ascii.eqb a c) eqn:Ea; [by constructor|].
  destruct (split c s) as [|h t]; [repeat constructor; simpl; by rewrite Ea|].
  apply Forall_cons in IH as [Hh Ht]. constructor; [|done].
  simpl. by rewrite Ea.
Qed.

Lemma part_no_hyphen (p : string) :
  str_all is_part_char p = true → contains "-" p = false.
Proof.
  induction p as [|a p IH]; simpl; [done|].
  intros [Ha Hp]%andb_true_iff. rewrite (IH Hp), orb_false_r.
  destruct (Ascii.eqb_spec a "-") as [->|]; [by vm_compute in Ha|done].
Qed.

Lemma part_of_piece (p : string) :
  str_all (fun a => is_part_char a || Ascii.eqb a "-") p = true →
  contains "-" p = false → str_all is_part_char p = true.
Proof.
  induction p as [|a p IH]; simpl; [done|].
  intros [Ha Hp]%andb_true_iff [Hb Hc]%orb_false_iff.
  rewrite (IH Hp Hc), andb_true_r. by rewrite Hb, orb_false_r in Ha.
Qed.

Lemma part_strip_fixed (p : string) :
  str_all is_part_char p = true → strip p = p.
Proof.
  intros Hp. apply strip_fixed. revert Hp. apply str_all_impl.
  intros a Ha. apply negb_true_iff, part_char_not_space. by rewrite Ha.
Qed.

Lemma split_single (c : Ascii.ascii) (s : string) :
  contains c s = false → split c s = [s].
Proof.
  induction s as [|a s IH]; simpl; [done|].
  intros [Ha Hs]%orb_false_iff. by rewrite Ha, (IH Hs).
Qed.

Lemma split_append (c : Ascii.ascii) (u v : string) :
  contains c u = false → split c (u +:+ String c v) = u :: split c v.
Proof.
  induction u as [|a u IH]; intros Hu.
  - change ("" +:+ String c v) with (String c v). simpl. by rewrite Ascii.eqb_refl.
  - simpl in Hu. apply orb_false_iff in Hu as [Ha Hu].
    rewrite append_cons. simpl. by rewrite Ha, (IH Hu).
Qed.

Lemma split_concat (ws : list string) :
  ws ≠ [] → Forall is_part ws → split "-" (String.concat "-" ws) = ws.
Proof.
  induction ws as [|w ws IH]; [done|]. intros _ Hws.
  apply Forall_cons in Hws as [[_ Hw] Hws].
  destruct ws as [|w' ws'].
  - simpl. by apply split_single, part_no_hyphen.
  - change (String.concat "-" (w :: w' :: ws'))
      with (w +:+ String "-" (String.concat "-" (w' :: ws'))).
    rewrite split_append by (by apply part_no_hyphen).
    by rewrite IH.
Qed.

Lemma normal_code_concat (ws : list string) :
  Forall is_part ws → normal_code (String.concat "-" ws) = true.
Proof.
  unfold normal_code. intros Hws.
  assert (Hpart : ∀ w, str_all is_part_char w = true →
            str_all (fun a => is_part_char a || Ascii.eqb a "-") w = true).
  { intros w. apply str_all_impl. by intros a ->. }
  assert (Hnd : ∀ w rest, str_all is_part_char w = true →
            no_double "-" rest = true → no_double "-" (w +:+ rest) = true).
  { intros w rest Hw Hrest. induction w as [|a w IHw]; [done|].
    rewrite append_cons. simpl in Hw. apply andb_true_iff in Hw as [Ha Hw].
    change (no_double "-" (String a (w +:+ rest)))
      with (negb (Ascii.eqb a "-" && starts_with "-" (w +:+ rest))
            && no_double "-" (w +:+ rest)).
    rewrite IHw by done.
    destruct (Ascii.eqb_spec a "-") as [->|]; [by vm_compute in Ha|done]. }
  induction Hws as [|w ws [Hne Hw] Hws IH]; [done|].
  destruct ws as [|w' ws'].
  - simpl. rewrite (Hpart w Hw). simpl.
    rewrite <- (append_empty_r w). by apply Hnd.
  - change (String.concat "-" (w :: w' :: ws'))
      with (w +:+ String "-" (String.concat "-" (w' :: ws'))).
    apply andb_true_iff in IH as [IH1 IH2].
    assert (Hhead : starts_with "-" (String.concat "-" (w' :: ws')) = false).
    { apply Forall_cons in Hws as [[Hne' Hw'] _].
      destruct w' as [|b w'']; [done|].
      simpl in Hw'. apply andb_true_iff in Hw' as [Hb _].
      destruct ws'; simpl;
        (destruct (Ascii.eqb_spec b "-") as [->|]; [by vm_compute in Hb|done]). }
    revert IH1 IH2 Hhead. generalize (String.concat "-" (w' :: ws')).
    intros rest IH1 IH2 Hhead.
    rewrite str_all_append, (Hpart w Hw). simpl. rewrite IH1. simpl.
    apply Hnd; [done|]. simpl. by rewrite Hhead, IH2.
Qed.

Lemma take_five_parts (ps : list string) :
  take 5 ((Some <$> ps) ++ replicate (5 - length ps) None) = five_parts (take 5 ps).
Proof.
  unfold five_parts. destruct (decide (length ps ≤ 5)%nat) as [Hle|Hgt].
  - rewrite (take_ge ps) by done. apply take_ge.
    rewrite length_app, length_fmap, length_replicate. lia.
  - replace (5 - length ps)%nat with 0%nat by lia.
    rewrite length_take. replace (5 `min` length ps - 5)%nat with 0%nat by lia.
    replace (5 - 5 `min` length ps)%nat with 0%nat by lia.
    simpl. rewrite !app_nil_r. by rewrite fmap_take.
Qed.

Lemma filter_parts (ps : list string) :
  Forall (λ p, str_all is_part_char p = true) ps →
  strip <$> List.filter (fun p => negb (String.eqb (strip p) "")) ps
  = List.filter (fun p => negb (String.eqb p "")) ps
  ∧ Forall is_part (List.filter (fun p => negb (String.eqb p "")) ps).
Proof.
  induction 1 as [|p ps Hp _ [IH1 IH2]]; [done|]. cbn [List.filter].
  rewrite (part_strip_fixed p Hp).
  destruct (String.eqb_spec p ""); cbn [negb]; [done|].
  rewrite fmap_cons, (part_strip_fixed p Hp), IH1. split; [done|]. by constructor.
Qed.

(** X20.  [split_hvdc_code] returns five entries: the parts of the
    normalised code (non-empty runs of part characters), at most five of
    them, followed by [None] up to five.  Conversely, at most five parts
    joined by hyphens are a normalised code that is split into exactly these
    parts. *)
Theorem split_hvdc_code_parts (code : string) (ws : list string) :
  (∀ parts, split_hvdc_code code = Some parts →
            length parts = 5%nat
            ∧ ∃ ps, parts = five_parts ps ∧ (length ps ≤ 5)%nat ∧ Forall is_part ps)
  ∧ (ws ≠ [] → (length ws ≤ 5)%nat → Forall is_part ws →
     normalize_hvdc_code (String.concat "-" ws) = Some (String.concat "-" ws)
     ∧ split_hvdc_code (String.concat "-" ws) = Some (five_parts ws)).
Proof.
  split.
  - intros parts. unfold split_hvdc_code.
    destruct (normalize_hvdc_code code) as [r|] eqn:Er; simpl; [|done].
    intros [= <-].
    pose proof (normalize_hvdc_code_normal code r Er) as Hn.
    unfold normal_code in Hn. apply andb_true_iff in Hn as [Hc _].
    assert (Hps : Forall (λ p, str_all is_part_char p = true) (split "-" r)).
    { pose proof (str_all_split _ "-"%char r Hc) as H1.
      pose proof (split_no_sep "-"%char r) as H2.
      revert H1 H2. generalize (split "-" r). intros l H1.
      induction H1 as [|p l Hp _ IH]; intros H2; [done|].
      apply Forall_cons in H2 as [Hp' H2]. constructor; [|by apply IH].
      by apply part_of_piece. }
    destruct (filter_parts _ Hps) as [-> Hparts].
    rewrite take_five_parts. split.
    + unfold five_parts. rewrite length_app, length_fmap, length_replicate.
      rewrite length_take. lia.
    + eexists. split; [done|]. split; [rewrite length_take; lia|].
      by apply Forall_take.
  - intros Hne Hlen Hws.
    pose proof (normalize_hvdc_code_fixed _ (normal_code_concat ws Hws)) as Hnorm.
    split; [done|]. unfold split_hvdc_code. rewrite Hnorm. simpl.
    rewrite (split_concat ws Hne Hws).
    assert (Hps : Forall (λ p, str_all is_part_char p = true) ws).
    { eapply Forall_impl; [exact Hws|]. by intros w [_ ?]. }
    destruct (filter_parts _ Hps) as [-> _].
    assert (List.filter (fun p => negb (String.eqb p "")) ws = ws) as ->.
    { clear -Hws. induction Hws as [|w ws [Hw _] _ IH]; simpl; [done|].
      destruct (String.eqb_spec w ""); [done|]. simpl. by rewrite IH. }
    rewrite take_five_parts. by rewrite take_ge.
Qed.

Lemma split_hvdc_code_parts_witness :
  split_hvdc_code "HVDC-ADOPT-HE-0325"
  = Some [Some "HVDC"; Some "ADOPT"; Some "HE"; Some "0325"; None].
Proof.
  destruct (split_hvdc_code_parts "" ["HVDC"; "ADOPT"; "HE"; "0325"]) as [_ H].
  destruct H as [_ H]; [discriminate|simpl; lia| |exact H].
  repeat constructor; discriminate.
Defined.

Lemma normalize_hvdc_code_normal_form_witness :
  is_Some (normalize_hvdc_code " hvdc--adopt - he/0325 ")
  ∧ normalize_hvdc_code "HVDC-ADOPT-HE0325" = Some "HVDC-ADOPT-HE0325".
Proof.
  destruct (normalize_hvdc_code_normal_form " hvdc--adopt - he/0325 ") as [H1 H2].
  split; [apply H1; reflexivity|].
  destruct (H2 "HVDC-ADOPT-HE0325") as (_ & _ & H); [reflexivity|exact H].
Defined.

(** ** The status given by the main script *)

Lemma valid_sel_le (n k : nat) (sel : list nat) : valid_sel n k sel → (k ≤ n)%nat.
Proof.
  intros (Hl & Hn & Hb).
  assert (Hsub : ∀ x, x ∈ sel → x ∈ seq 0 n).
  { intros x Hx. apply elem_of_seq. specialize (Hb x Hx). lia. }
  pose proof (submseteq_length _ _ (NoDup_submseteq _ _ Hn Hsub)) as Hle.
  rewrite length_seq in Hle. lia.
Qed.

Lemma int_of_float_nonneg (x : Q) : 0 <= x → int_of_float x = Qfloor x.
Proof.
  destruct x as [num den]. unfold Qle, int_of_float, Qfloor. simpl.
  intros H. apply Z.quot_div_nonneg; lia.
Qed.

Lemma Qfloor_nonneg (x : Q) : 0 <= x → (0 ≤ Qfloor x)%Z.
Proof. intros H. apply (Qfloor_resp_le 0 x) in H. exact H. Qed.

Lemma units_le_pkgs (cand : list cand_row) :
  Forall (λ row, 0 <= Pkg row) cand →
  0 <= Qsum (map Pkg cand)
  ∧ (Z.of_nat (sum_list (map unit_count cand)) ≤ Qfloor (Qsum (map Pkg cand)))%Z.
Proof.
  induction 1 as [|row cand Hrow _ [IH0 IH]]; [done|].
  change (Qsum (map Pkg (row :: cand))) with (Pkg row + Qsum (map Pkg cand)).
  split.
  - rewrite <- (Qplus_0_r 0). by apply Qplus_le_compat.
  - simpl sum_list. rewrite Nat2Z.inj_add. unfold unit_count at 1.
    rewrite (int_of_float_nonneg _ Hrow), Z2Nat.id by (by apply Qfloor_nonneg).
    rewrite <- (Qfloor_Z (Qfloor (Pkg row) + Z.of_nat (sum_list (map unit_count cand)))).
    apply Qfloor_resp_le. rewrite inject_Z_plus.
    apply Qplus_le_compat; [apply Qfloor_le|].
    eapply Qle_trans; [|apply (Qfloor_le (Qsum (map Pkg cand)))].
    rewrite <- Zle_Qle. exact IH.
Qed.

Lemma match_code_past_exits (cand : list cand_row) (k : Z) (gw_tgt cbm_tgt : Q) :
  cand ≠ [] → (0 < k)%Z → int_of_float (Qsum (map Pkg cand)) ≠ 0%Z →
  explode_by_pkg cand ≠ [] →
  Script.result (Script.match_code cand k gw_tgt cbm_tgt)
  = find_subset_match_exploded cand k gw_tgt cbm_tgt TOL.
Proof.
  intros Hne Hk Hsum Hunits.
  unfold Script.match_code, find_subset_match_exploded.
  destruct cand as [|row cand]; [done|].
  rewrite bool_decide_eq_false_2 by done.
  assert ((k <=? 0)%Z = false) as -> by (apply Z.leb_gt; lia).
  cbn [length Nat.ltb Nat.leb Nat.eqb orb].
  assert ((int_of_float (Qsum (map Pkg (row :: cand))) =? 0)%Z = false) as ->
    by (by apply Z.eqb_neq).
  cbn [orb].
  destruct (explode_by_pkg (row :: cand)) as [|u units] eqn:Eu; [done|].
  cbn [length Nat.eqb].
  destruct (length (u :: units) <=? MAX_EXACT_N)%nat.
  - by destruct (find _ _).
  - by destruct (robust_greedy_local _ _ _ _ _ _ _) as [[[? ?] ?] ?].
Qed.

Lemma match_code_cases (cand : list cand_row) (k : Z) (gw_tgt cbm_tgt : Q) :
  (Script.match_status (Script.match_code cand k gw_tgt cbm_tgt) = "FAIL"
   ∧ found (Script.result (Script.match_code cand k gw_tgt cbm_tgt)) = false
   ∧ (cand = [] ∨ (k ≤ 0)%Z ∨ int_of_float (Qsum (map Pkg cand)) = 0%Z
      ∨ explode_by_pkg cand = []))
  ∨ (cand ≠ [] ∧ (0 < k)%Z
     ∧ Script.result (Script.match_code cand k gw_tgt cbm_tgt)
       = find_subset_match_exploded cand k gw_tgt cbm_tgt TOL
     ∧ Script.pkg_pass (Script.match_code cand k gw_tgt cbm_tgt)
       = (k <=? int_of_float (Qsum (map Pkg cand)))%Z
     ∧ Script.match_status (Script.match_code cand k gw_tgt cbm_tgt)
       = if (k <=? int_of_float (Qsum (map Pkg cand)))%Z
            && found (find_subset_match_exploded cand k gw_tgt cbm_tgt TOL)
         then "PASS" else "FAIL").
Proof.
  destruct (decide (cand = [])) as [->|Hne]; [left; split_and!; [done|done|by left]|].
  destruct (Z.leb_spec k 0) as [Hk|Hk].
  { left. unfold Script.match_code.
    assert ((k <=? 0)%Z = true) as -> by (by apply Z.leb_le).
    rewrite !orb_true_r. split_and!; [done|done|by right; left]. }
  destruct (decide (int_of_float (Qsum (map Pkg cand)) = 0%Z)) as [Hz|Hnz].
  { left. unfold Script.match_code. destruct cand as [|row cand]; [done|].
    cbn [length Nat.ltb Nat.leb Nat.eqb orb]. rewrite Hz. cbn [Z.eqb orb].
    split_and!; [done|done|by right; right; left]. }
  destruct (decide (explode_by_pkg cand = [])) as [Hu|Hu].
  { left. unfold Script.match_code. rewrite Hu.
    destruct (_ || _ || _); split_and!; try done; by right; right; right. }
  right.
  pose proof (match_code_past_exits cand k gw_tgt cbm_tgt Hne Hk Hnz Hu) as Hres.
  pose proof (find_subset_match_exploded_consistent cand k gw_tgt cbm_tgt TOL)
    as [Hcons _].
  split_and!; [done|done|done| |].
  - unfold Script.match_code. destruct cand as [|row cand]; [done|].
    cbn [length Nat.ltb Nat.leb].
    by repeat match goal with |- context [if ?b then _ else _] => destruct b end.
  - rewrite Hcons, <- Hres. unfold Script.match_code.
    destruct cand as [|row cand]; [done|].
    cbn [length Nat.ltb Nat.leb Nat.eqb orb].
    assert ((int_of_float (Qsum (map Pkg (row :: cand))) =? 0)%Z = false) as ->
      by (by apply Z.eqb_neq).
    assert ((k <=? 0)%Z = false) as -> by (apply Z.leb_gt; lia).
    cbn [orb].
    destruct (explode_by_pkg (row :: cand)) as [|u units] eqn:Eu; [done|].
    cbn [length Nat.eqb]. cbn [Script.match_status Script.result].
    by rewrite andb_assoc.
Qed.

(** X21.  In the loop of the main script the status of a code is PASS
    exactly when a selection of units was found and the package counts of
    the candidates, summed and truncated, reach [k]; a found selection has
    [k] units and is the result of [find_subset_match_exploded] on the same
    inputs.  When no candidate has a negative package count the test on the
    package counts is implied: the status is PASS exactly when a selection
    is found, and the script finds one exactly when
    [find_subset_match_exploded] does. *)
Theorem script_match_status (cand : list cand_row) (k : Z) (gw_tgt cbm_tgt : Q) :
  (Script.match_status (Script.match_code cand k gw_tgt cbm_tgt) = "PASS"
   ↔ Script.pkg_pass (Script.match_code cand k gw_tgt cbm_tgt) = true
     ∧ found (Script.result (Script.match_code cand k gw_tgt cbm_tgt)) = true)
  ∧ (found (Script.result (Script.match_code cand k gw_tgt cbm_tgt)) = true →
     (0 < k)%Z
     ∧ Script.result (Script.match_code cand k gw_tgt cbm_tgt)
       = find_subset_match_exploded cand k gw_tgt cbm_tgt TOL
     ∧ length (picked (Script.result (Script.match_code cand k gw_tgt cbm_tgt)))
       = Z.to_nat k)
  ∧ (Forall (λ row, 0 <= Pkg row) cand →
     (Script.match_status (Script.match_code cand k gw_tgt cbm_tgt) = "PASS"
      ↔ found (Script.result (Script.match_code cand k gw_tgt cbm_tgt)) = true)
     ∧ found (Script.result (Script.match_code cand k gw_tgt cbm_tgt))
       = found (find_subset_match_exploded cand k gw_tgt cbm_tgt TOL)).
Proof.
  pose proof (find_subset_match_exploded_consistent cand k gw_tgt cbm_tgt TOL)
    as [_ Hpicked].
  destruct (match_code_cases cand k gw_tgt cbm_tgt)
    as [(Hs & Hf & Hwhy)|(Hne & Hk & Hres & Hpp & Hs)].
  - rewrite Hs, Hf. split_and!; [split; [done|by intros [_ ?]]|done|].
    intros Hpos. split; [done|]. symmetry.
    destruct (find_subset_match_exploded_cases cand k gw_tgt cbm_tgt TOL)
      as [[m ->]|(sel & m & Hk & Hv & _)]; [done|].
    exfalso. apply valid_sel_le in Hv. rewrite length_explode_by_pkg in Hv.
    destruct (units_le_pkgs cand Hpos) as [H0 Hle].
    destruct Hwhy as [->|[?|[Hz|Hu]]]; [simpl in Hv; lia|lia| |].
    + rewrite (int_of_float_nonneg _ H0) in Hz. lia.
    + apply (f_equal length) in Hu. rewrite length_explode_by_pkg in Hu.
      simpl in Hu. lia.
  - rewrite Hs, Hpp, Hres. split_and!.
    + destruct (_ <=? _)%Z, (found _); simpl; split; (done || by intros [? ?]).
    + intros Hf. destruct (Hpicked Hf) as [_ Hl]. done.
    + intros Hpos. split; [|done].
      destruct (found (find_subset_match_exploded cand k gw_tgt cbm_tgt TOL)) eqn:Hf;
        [|by rewrite andb_false_r].
      destruct (find_subset_match_exploded_cases cand k gw_tgt cbm_tgt TOL)
        as [[m Hm]|(sel & m & _ & Hv & _)]; [by rewrite Hm in Hf|].
      apply valid_sel_le in Hv. rewrite length_explode_by_pkg in Hv.
      destruct (units_le_pkgs cand Hpos) as [H0 Hle].
      rewrite (int_of_float_nonneg _ H0).
      assert ((k <=? Qfloor (Qsum (map Pkg cand)))%Z = true) as ->
        by (apply Z.leb_le; lia).
      done.
Qed.

Lemma script_match_status_witness :
  Script.match_status (Script.match_code cand3 2 7 3) = "PASS".
Proof.
  destruct (script_match_status cand3 2 7 3) as (_ & _ & H).
  destruct H as [[_ H] _]; [repeat constructor; discriminate|].
  apply H. vm_compute. reflexivity.
Defined.

(** With a negative package count among the candidates a selection can be
    found and the status still be FAIL: three packages and a row of minus
    two sum to one, below the two packages asked for. *)
Example script_match_negative_count :
  found (Script.result (Script.match_code
           [CandRow 1 3 6 3; CandRow 2 (-2) 0 0] 2 4 2)) = true
  ∧ Script.match_status (Script.match_code
      [CandRow 1 3 6 3; CandRow 2 (-2) 0 0] 2 4 2) = "FAIL".
Proof. split; vm_compute; reflexivity. Qed.
